(** * frida-gum, POSIX memory backend ([gum/backend-posix/gummemory-posix.c])

    A shallow embedding of the page allocator, the near-address allocator,
    the free-range scanner, the alignment-aware raw allocator and
    decommit, over an explicit model of the kernel's address space, and
    the properties of the design document checked against it.

    Target: LP64 Linux.  [gsize], [GumAddress] and pointers are 64-bit
    unsigned words, [guint] is a 32-bit unsigned word; all of them are
    carried as [Z] with the wrap-around written out. *)

From stdpp Require Import gmap list.
From Stdlib Require Import ZArith Lia Bool.

Local Open Scope Z_scope.

(** ** Machine words *)

Module Word.

Definition wrap64 (z : Z) : Z := z mod 2 ^ 64.
Definition wrap32 (z : Z) : Z := z mod 2 ^ 32.

(** Two's complement reading of a 64-bit word ([ptrdiff_t]). *)
Definition signed64 (z : Z) : Z :=
  if z <? 2 ^ 63 then z else z - 2 ^ 64.

(** [~x] on a [gsize]. *)
Definition not64 (z : Z) : Z := Z.lxor z (Z.ones 64).

End Word.

Import Word.

(** ** GLib and Gum helper macros *)

(** glib: [#define ABS(a) (((a) < 0) ? -(a) : (a))]. *)
Definition ABS (a : Z) : Z := if a <? 0 then - a else a.

Definition NULL : Z := 0.

(** Modelled from the spec: [GUM_ALIGN_SIZE] of gumdefs.h, the
    [roundUp(s, b)] of section 4.5 step 2, written the way the macro is:
    [(s + (b - 1)) & ~(b - 1)] on [gsize]. *)
Definition GUM_ALIGN_SIZE (s b : Z) : Z :=
  Z.land (wrap64 (s + wrap64 (b - 1))) (not64 (wrap64 (b - 1))).

(** Modelled from the spec: [GUM_ALIGN_POINTER] of gumdefs.h, the
    [roundUp(base, alignment)] of section 4.5 step 4; the same macro is
    applied to the address hint. *)
Definition GUM_ALIGN_POINTER (p b : Z) : Z :=
  Z.land (wrap64 (p + wrap64 (b - 1))) (not64 (wrap64 (b - 1))).

(** Modelled from the spec: the protection flag set {Read, Write, Execute}
    of gummemory.h as a bit mask; "no access" is the empty set. *)
Definition GUM_PAGE_NO_ACCESS : Z := 0.
Definition GUM_PAGE_READ : Z := 1.
Definition GUM_PAGE_WRITE : Z := 2.
Definition GUM_PAGE_EXECUTE : Z := 4.
Definition GUM_PAGE_RW : Z := Z.lor GUM_PAGE_READ GUM_PAGE_WRITE.

(** Modelled from the spec: the [MemoryRange], [RangeDetails] and
    [AddressSpec] of section 3, with the field names of gummemory.h. *)
Record GumMemoryRange := {
  base_address : Z;   (* GumAddress *)
  size : Z            (* gsize *)
}.

Record GumRangeDetails := {
  range : GumMemoryRange;
  protection : Z
  (* file: opaque to this backend *)
}.

Record GumAddressSpec := {
  near_address : Z;   (* gpointer *)
  max_distance : Z    (* gsize *)
}.

(** ** The process and its kernel

    What the backend sees of the operating system: a page table, [errno]
    and the system calls it issues.  Everything the kernel decides on its
    own (where an unhinted mapping goes, whether a request is refused for
    lack of resources or because another thread took the address first,
    how [madvise] answers, what the range enumerator reports) is an
    oracle of the [Kernel] record and is not constrained: the system calls
    below validate what the oracle proposes, the way the kernel's own
    checks do. *)

Module Posix.

Definition PROT_NONE : Z := 0.
Definition PROT_READ : Z := 1.
Definition PROT_WRITE : Z := 2.
Definition PROT_EXEC : Z := 4.

Definition MAP_PRIVATE : Z := 2.
Definition MAP_FIXED : Z := 16.
Definition MAP_ANONYMOUS : Z := 32.
Definition MAP_FAILED : Z := 2 ^ 64 - 1.   (* (void * ) -1 *)

Definition MADV_DONTNEED : Z := 4.
Definition MADV_FREE : Z := 8.

Definition ENOMEM : Z := 12.
Definition EINVAL : Z := 22.
Definition ENOSYS : Z := 38.

(** A mapped page: its protection and the [gsize] words stored in it,
    by byte offset.  Anonymous pages start zero-filled. *)
Record Page := {
  pg_prot : Z;
  pg_words : gmap Z Z
}.

Inductive Syscall :=
| SysMmap (addr len prot flags ret : Z)
| SysMunmap (addr len ret : Z)
| SysMprotect (addr len prot ret : Z)
| SysMadvise (addr len advice ret : Z).

(** The process state: page table by page number, [errno], and the
    system calls issued so far, latest first. *)
Record OS := {
  pages : gmap Z Page;
  errno : Z;
  trace : list Syscall
}.

Record Kernel := {
  page_bits : Z;                                (* log2 of the page size *)
  k_place : OS -> Z -> Z -> Z -> option Z;      (* hint, len, prot: base chosen *)
  k_fixed : OS -> Z -> Z -> Z -> bool;          (* addr, len, prot: granted? *)
  k_madvise : OS -> Z -> Z -> Z -> Z;           (* addr, len, advice: errno or 0 *)
  k_ranges : OS -> list GumRangeDetails         (* occupied ranges reported *)
}.

Inductive crash := Segv | AssertFailed.

Inductive outcome (A : Type) :=
| Done (a : A) (s : OS)
| Crash (c : crash).
Arguments Done {A} a s.
Arguments Crash {A} c.

(** Computations of the process: state passing, with a crash (a fault
    or a failed assertion) ending the run. *)
Definition M (A : Type) : Type := OS -> outcome A.

Definition ret {A} (a : A) : M A := fun s => Done a s.

Definition bind {A B} (m : M A) (k : A -> M B) : M B :=
  fun s => match m s with
           | Done a s' => k a s'
           | Crash c => Crash c
           end.

Definition emit (e : Syscall) (s : OS) : OS :=
  {| pages := pages s; errno := errno s; trace := e :: trace s |}.

Definition fail_with (e : Z) (s : OS) : OS :=
  {| pages := pages s; errno := e; trace := trace s |}.

Definition with_pages (m : gmap Z Page) (s : OS) : OS :=
  {| pages := m; errno := errno s; trace := trace s |}.

(** Page-table updates over a run of [count] pages from page [first]. *)
Fixpoint map_pages (first : Z) (count : nat) (pg : Page)
    (m : gmap Z Page) : gmap Z Page :=
  match count with
  | O => m
  | S c => <[first := pg]> (map_pages (first + 1) c pg m)
  end.

Fixpoint unmap_pages (first : Z) (count : nat)
    (m : gmap Z Page) : gmap Z Page :=
  match count with
  | O => m
  | S c => delete first (unmap_pages (first + 1) c m)
  end.

Definition set_prot (prot : Z) (pg : Page) : Page :=
  {| pg_prot := prot; pg_words := pg_words pg |}.

Fixpoint protect_pages (first : Z) (count : nat) (prot : Z)
    (m : gmap Z Page) : gmap Z Page :=
  match count with
  | O => m
  | S c => alter (set_prot prot) first (protect_pages (first + 1) c prot m)
  end.

Fixpoint pages_free (first : Z) (count : nat) (m : gmap Z Page) : bool :=
  match count with
  | O => true
  | S c => match m !! first with
           | None => pages_free (first + 1) c m
           | Some _ => false
           end
  end.

Fixpoint pages_mapped (first : Z) (count : nat) (m : gmap Z Page) : bool :=
  match count with
  | O => true
  | S c => match m !! first with
           | Some _ => pages_mapped (first + 1) c m
           | None => false
           end
  end.

Section Syscalls.

Variable K : Kernel.

Definition page_size : Z := 2 ^ page_bits K.

(** Number of pages a request of [len] bytes spans. *)
Definition page_count (len : Z) : Z := (len + page_size - 1) / page_size.

Definition fresh_page (prot : Z) : Page :=
  {| pg_prot := prot; pg_words := ∅ |}.

(** [mmap] of anonymous private memory.  Without [MAP_FIXED] the kernel
    picks the base (the hint is only a hint) among free, page-aligned,
    non-null places, or fails; with [MAP_FIXED] the mapping is placed
    at [addr] exactly, replacing what is there, or fails.  A length of
    zero is refused.  The cause of a refusal is not told apart: [errno]
    is [ENOMEM]. *)
Definition mmap (addr len prot flags : Z) : M Z := fun s =>
  let fixed := negb (Z.land flags MAP_FIXED =? 0) in
  let n := page_count len in
  let chosen :=
    if fixed
    then (if k_fixed K s addr len prot then Some addr else None)
    else k_place K s addr len prot in
  let granted :=
    match chosen with
    | Some b =>
        if (0 <? len) && (b mod page_size =? 0) && (0 <=? b)
           && (b + n * page_size <=? 2 ^ 64)
           && (fixed || ((0 <? b)
                         && pages_free (b / page_size) (Z.to_nat n)
                              (pages s)))
        then Some b else None
    | None => None
    end in
  match granted with
  | Some b =>
      Done b
        (emit (SysMmap addr len prot flags b)
           (with_pages
              (map_pages (b / page_size) (Z.to_nat n) (fresh_page prot)
                 (pages s)) s))
  | None =>
      Done MAP_FAILED
        (emit (SysMmap addr len prot flags MAP_FAILED) (fail_with ENOMEM s))
  end.

(** [munmap]: the address must be page-aligned and the length positive;
    every page overlapping the range is removed. *)
Definition munmap (addr len : Z) : M Z := fun s =>
  let n := page_count len in
  if (0 <? len) && (addr mod page_size =? 0)
     && (addr + n * page_size <=? 2 ^ 64)
  then Done 0
         (emit (SysMunmap addr len 0)
            (with_pages
               (unmap_pages (addr / page_size) (Z.to_nat n) (pages s)) s))
  else Done (-1) (emit (SysMunmap addr len (-1)) (fail_with EINVAL s)).

(** [mprotect]: the address must be page-aligned and every page of
    the range mapped. *)
Definition mprotect (addr len prot : Z) : M Z := fun s =>
  let n := page_count len in
  if (addr mod page_size =? 0)
     && pages_mapped (addr / page_size) (Z.to_nat n) (pages s)
  then Done 0
         (emit (SysMprotect addr len prot 0)
            (with_pages
               (protect_pages (addr / page_size) (Z.to_nat n) prot
                  (pages s)) s))
  else Done (-1) (emit (SysMprotect addr len prot (-1)) (fail_with ENOMEM s)).

(** [madvise]: the kernel answers; page contents are not tracked
    across an advisory. *)
Definition madvise (addr len advice : Z) : M Z := fun s =>
  let e := k_madvise K s addr len advice in
  if e =? 0
  then Done 0 (emit (SysMadvise addr len advice 0) s)
  else Done (-1) (emit (SysMadvise addr len advice (-1)) (fail_with e s)).

Definition get_errno : M Z := fun s => Done (errno s) s.

(** [*((gsize * ) addr) = v]: faults unless the page is writable. *)
Definition store_gsize (addr v : Z) : M unit := fun s =>
  match pages s !! (addr / page_size) with
  | Some pg =>
      if Z.land (pg_prot pg) PROT_WRITE =? 0 then Crash Segv
      else Done tt
             (with_pages
                (<[addr / page_size :=
                     {| pg_prot := pg_prot pg;
                        pg_words := <[addr mod page_size := v]> (pg_words pg) |}]>
                   (pages s)) s)
  | None => Crash Segv
  end.

(** [*((gsize * ) addr)]: faults unless the page is readable. *)
Definition load_gsize (addr : Z) : M Z := fun s =>
  match pages s !! (addr / page_size) with
  | Some pg =>
      if Z.land (pg_prot pg) PROT_READ =? 0 then Crash Segv
      else Done (default 0 (pg_words pg !! (addr mod page_size))) s
  | None => Crash Segv
  end.

Definition g_assert (b : bool) : M unit := fun s =>
  if b then Done tt s else Crash AssertFailed.

End Syscalls.

End Posix.

Import Posix.

Declare Scope proc_scope.
Delimit Scope proc_scope with proc.
Notation "'do' x <- c1 ; c2" := (bind c1 (fun x => c2))
  (at level 10, x name, c1 at level 100, c2 at level 200) : proc_scope.
Notation "'do' ' p <- c1 ; c2" := (bind c1 (fun x => let 'p := x in c2))
  (at level 10, p pattern, c1 at level 100, c2 at level 200) : proc_scope.
Notation "c1 ;; c2" := (bind c1 (fun _ => c2))
  (at level 100, c2 at level 200, right associativity) : proc_scope.
Local Open Scope proc_scope.

(** ** The backend

    One definition per function of gummemory-posix.c, in the order of the
    file.  Pointers are words; [NULL] is 0. *)

(** Context of the near-address search ([struct _GumAllocNearContext]). *)
Record GumAllocNearContext := {
  nc_result : Z;               (* result *)
  nc_size : Z;                 (* size *)
  nc_posix_page_prot : Z;      (* posix_page_prot *)
  nc_address_spec : GumAddressSpec
}.

Definition GumFoundRangeFunc (U : Type) : Type :=
  GumRangeDetails -> U -> M (bool * U).

(** Context of the free-range scan
    ([struct _GumEnumerateFreeRangesContext]). *)
Record GumEnumerateFreeRangesContext (U : Type) := {
  fr_func : GumFoundRangeFunc U;   (* func *)
  fr_user_data : U;                (* user_data *)
  fr_prev_end : Z                  (* prev_end *)
}.
Arguments fr_func {U} _.
Arguments fr_user_data {U} _.
Arguments fr_prev_end {U} _.

Definition _gum_page_protection_to_posix (page_prot : Z) : Z :=
  let posix_page_prot := PROT_NONE in
  let posix_page_prot :=
    if negb (Z.land page_prot GUM_PAGE_READ =? 0)
    then Z.lor posix_page_prot PROT_READ else posix_page_prot in
  let posix_page_prot :=
    if negb (Z.land page_prot GUM_PAGE_WRITE =? 0)
    then Z.lor posix_page_prot PROT_WRITE else posix_page_prot in
  let posix_page_prot :=
    if negb (Z.land page_prot GUM_PAGE_EXECUTE =? 0)
    then Z.lor posix_page_prot PROT_EXEC else posix_page_prot in
  posix_page_prot.

(** The distance test of the near-address search:
    [ABS (near_address - GSIZE_TO_POINTER (base_address))], a pointer
    difference read as [ptrdiff_t] and stored into a [gsize]. *)
Definition near_distance (near_address base_address : Z) : Z :=
  wrap64 (ABS (signed64 (wrap64 (near_address - base_address)))).

(** The over-allocation of [gum_memory_allocate]: the slack
    [alignment - page_size] and the rounded request, on [gsize]. *)
Definition alignment_slack (alignment page_size : Z) : Z :=
  wrap64 (alignment - page_size).

Definition over_allocation (size alignment page_size : Z) : Z :=
  GUM_ALIGN_SIZE (wrap64 (size + alignment_slack alignment page_size))
    page_size.

Section Backend.

Variable K : Kernel.

(** Modelled from the spec: [gum_query_page_size] of gummemory.c, "the
    OS page size, queried once and treated as an immutable constant". *)
Definition gum_query_page_size : Z := page_size K.

(** Modelled from the spec: [gum_mprotect] of gummemory.c, which sets
    the protection of the pages covering [address, address + size)
    (section 4.2 step 3); its outcome is not reported. *)
Definition gum_mprotect (address size page_prot : Z) : M unit :=
  let aligned_address := address - address mod gum_query_page_size in
  let aligned_size :=
    (1 + (address + size - 1 - aligned_address) / gum_query_page_size)
    * gum_query_page_size in
  do _ <- mprotect K aligned_address aligned_size
            (_gum_page_protection_to_posix page_prot);
  ret tt.

Definition gum_memory_free (address size : Z) : M bool :=
  do r <- munmap K address size;
  ret (r =? 0).

Definition gum_memory_release (address size : Z) : M bool :=
  gum_memory_free address size.

Definition gum_memory_commit (address size page_prot : Z) : M bool :=
  ret true.

Definition gum_allocate_page_aligned (address size prot : Z) : M Z :=
  do result <- mmap K address size prot (Z.lor MAP_PRIVATE MAP_ANONYMOUS);
  ret (if negb (result =? MAP_FAILED) then result else NULL).

(** The trimming steps of [gum_memory_allocate] after a successful
    mapping at [base]: returns the tracked [allocation_size]. *)
Definition trim_prefix (base aligned_base allocation_size : Z) : M Z :=
  if negb (aligned_base =? base) then
    let prefix_size := wrap64 (aligned_base - base) in
    do _ <- gum_memory_free base prefix_size;
    ret (wrap64 (allocation_size - prefix_size))
  else ret allocation_size.

Definition trim_suffix (aligned_base size allocation_size : Z) : M Z :=
  if negb (allocation_size =? size) then
    let suffix_size := wrap64 (allocation_size - size) in
    do _ <- gum_memory_free (wrap64 (aligned_base + size)) suffix_size;
    ret (wrap64 (allocation_size - suffix_size))
  else ret allocation_size.

Definition gum_memory_allocate (address size alignment page_prot : Z)
    : M Z :=
  let address := GUM_ALIGN_POINTER address alignment in
  let page_size := gum_query_page_size in
  let allocation_size := over_allocation size alignment page_size in
  do base <- gum_allocate_page_aligned address allocation_size
               (_gum_page_protection_to_posix page_prot);
  if base =? NULL then ret NULL
  else
    let aligned_base := GUM_ALIGN_POINTER base alignment in
    do allocation_size <- trim_prefix base aligned_base allocation_size;
    do allocation_size <- trim_suffix aligned_base size allocation_size;
    g_assert (allocation_size =? size);;
    ret aligned_base.

(** The header step shared by the two page allocators: make the first
    page writable if it is not, store the total size, lock it
    read-only. *)
Definition write_header (result page_size size page_prot : Z) : M unit :=
  (if Z.land page_prot GUM_PAGE_WRITE =? 0
   then gum_mprotect result page_size GUM_PAGE_RW
   else ret tt);;
  store_gsize K result size;;
  gum_mprotect result page_size GUM_PAGE_READ.

Definition gum_try_alloc_n_pages (n_pages page_prot : Z) : M Z :=
  let page_size := gum_query_page_size in
  let size := wrap64 (wrap32 (1 + n_pages) * page_size) in
  do result <- gum_memory_allocate NULL size page_size page_prot;
  if result =? NULL then ret NULL
  else
    write_header result page_size size page_prot;;
    ret (wrap64 (result + page_size)).

Definition gum_try_alloc_in_range_if_near_enough
    (details : GumRangeDetails) (ctx : GumAllocNearContext)
    : M (bool * GumAllocNearContext) :=
  let range := range details in
  if size range <? nc_size ctx then ret (true, ctx)
  else
    let spec := nc_address_spec ctx in
    let base_address0 := base_address range in
    let distance0 := near_distance (near_address spec) base_address0 in
    let base_address1 :=
      if max_distance spec <? distance0
      then wrap64 (base_address range + size range - nc_size ctx)
      else base_address0 in
    let distance1 :=
      if max_distance spec <? distance0
      then near_distance (near_address spec) base_address1
      else distance0 in
    if max_distance spec <? distance1 then ret (true, ctx)
    else
      do r <- mmap K base_address1 (nc_size ctx) (nc_posix_page_prot ctx)
                (Z.lor (Z.lor MAP_PRIVATE MAP_ANONYMOUS) MAP_FIXED);
      let set_result v :=
        {| nc_result := v; nc_size := nc_size ctx;
           nc_posix_page_prot := nc_posix_page_prot ctx;
           nc_address_spec := nc_address_spec ctx |} in
      if r =? MAP_FAILED then ret (true, set_result NULL)
      else ret (false, set_result r).

Definition gum_emit_free_range {U : Type}
    (details : GumRangeDetails) (ctx : GumEnumerateFreeRangesContext U)
    : M (bool * GumEnumerateFreeRangesContext U) :=
  let range := range details in
  let start := base_address range in
  let end_ := wrap64 (start + size range) in
  do '(carry_on, user_data) <-
    (if negb (fr_prev_end ctx =? 0) then
       let gap_size := wrap64 (start - fr_prev_end ctx) in
       if 0 <? gap_size then
         let r := {| base_address := fr_prev_end ctx; size := gap_size |} in
         let d := {| range := r; protection := GUM_PAGE_NO_ACCESS |} in
         fr_func ctx d (fr_user_data ctx)
       else ret (true, fr_user_data ctx)
     else ret (true, fr_user_data ctx));
  ret (carry_on,
       {| fr_func := fr_func ctx; fr_user_data := user_data;
          fr_prev_end := end_ |}).

(** Modelled from the spec: [_gum_process_enumerate_ranges] of the
    process backend, the range enumerator of section 6: "invoke a
    callback once per occupied range [...]; the callback returns a
    boolean continuation signal; enumeration stops early when the
    callback returns false".  With the filter "no access" every range
    the kernel reports is passed on. *)
Fixpoint enumerate_list {U : Type} (ranges : list GumRangeDetails)
    (func : GumFoundRangeFunc U) (user_data : U) : M U :=
  match ranges with
  | [] => ret user_data
  | d :: rest =>
      do '(carry_on, user_data') <- func d user_data;
      if carry_on : bool then enumerate_list rest func user_data'
      else ret user_data'
  end.

Definition _gum_process_enumerate_ranges {U : Type} (prot : Z)
    (func : GumFoundRangeFunc U) (user_data : U) : M U :=
  fun s => enumerate_list (k_ranges K s) func user_data s.

Definition gum_enumerate_free_ranges {U : Type}
    (func : GumFoundRangeFunc U) (user_data : U) : M U :=
  let ctx := {| fr_func := func; fr_user_data := user_data;
                fr_prev_end := 0 |} in
  do ctx' <- _gum_process_enumerate_ranges GUM_PAGE_NO_ACCESS
               gum_emit_free_range ctx;
  ret (fr_user_data ctx').

Definition gum_try_alloc_n_pages_near (n_pages page_prot : Z)
    (address_spec : GumAddressSpec) : M Z :=
  let page_size := gum_query_page_size in
  let ctx := {| nc_result := NULL;
                nc_size := wrap64 (wrap32 (1 + n_pages) * page_size);
                nc_posix_page_prot := _gum_page_protection_to_posix page_prot;
                nc_address_spec := address_spec |} in
  do ctx <- gum_enumerate_free_ranges
              gum_try_alloc_in_range_if_near_enough ctx;
  if nc_result ctx =? NULL then ret NULL
  else
    write_header (nc_result ctx) page_size (nc_size ctx) page_prot;;
    ret (wrap64 (nc_result ctx + page_size)).

Definition gum_query_page_allocation_range (mem size : Z)
    : GumMemoryRange :=
  let page_size := gum_query_page_size in
  {| base_address := wrap64 (mem - page_size);
     size := wrap64 (wrap32 size + page_size) |}.

Definition gum_free_pages (mem : Z) : M unit :=
  let start := wrap64 (mem - gum_query_page_size) in
  do size <- load_gsize K start;
  do _ <- gum_memory_release start size;
  ret tt.

Definition gum_memory_decommit (address size : Z) : M bool :=
  do res <- madvise K address size MADV_FREE;
  if negb (res =? 0) then
    do e <- get_errno;
    if e =? ENOSYS then ret true
    else
      do res <- (if e =? EINVAL
                 then madvise K address size MADV_DONTNEED
                 else ret res);
      ret (res =? 0)
  else ret (res =? 0).

End Backend.

(** ** Specification-level vocabulary *)

(** The page size is a power of two that fits [guint] and holds a
    [gsize]. *)
Definition page_bits_ok (K : Kernel) : Prop := 3 <= page_bits K < 32.

Definition free_range (base size : Z) : GumRangeDetails :=
  {| range := {| base_address := base; size := size |};
     protection := GUM_PAGE_NO_ACCESS |}.

Definition range_end (d : GumRangeDetails) : Z :=
  base_address (range d) + size (range d).

(** The free-range synthesis in the words of section 4.3: [prevEnd]
    starts unset; for each reported range, if [prevEnd] is set and
    [range.base > prevEnd], the free range
    [{base: prevEnd, size: range.base - prevEnd}] is emitted; then
    [prevEnd = range.base + range.size]. *)
Fixpoint free_ranges_from (prevEnd : option Z)
    (occupied : list GumRangeDetails) : list GumRangeDetails :=
  match occupied with
  | [] => []
  | d :: rest =>
      let emitted :=
        match prevEnd with
        | Some e =>
            if e <? base_address (range d)
            then [free_range e (base_address (range d) - e)]
            else []
        | None => []
        end in
      emitted ++ free_ranges_from (Some (range_end d)) rest
  end.

Definition free_ranges (occupied : list GumRangeDetails)
    : list GumRangeDetails :=
  free_ranges_from None occupied.

(** The collaborator contract of section 4.3: non-empty ranges inside the
    64-bit address space, strictly ascending and non-overlapping. *)
Fixpoint ascending (occupied : list GumRangeDetails) : bool :=
  match occupied with
  | [] => true
  | d :: rest =>
      (0 <=? base_address (range d)) && (0 <? size (range d))
      && (range_end d <=? 2 ^ 64)
      && match rest with
         | [] => true
         | d' :: _ =>
             (range_end d <=? base_address (range d'))
             && (base_address (range d') <? 2 ^ 64)
         end
      && ascending rest
  end.

(** A callback that records every range it is given and never stops. *)
Definition record_range : GumFoundRangeFunc (list GumRangeDetails) :=
  fun d seen => ret (true, seen ++ [d]).

(** The candidate base the near-address predicate accepts inside a free
    range, if any: the start of the range, else the end-aligned base. *)
Definition near_candidate (required : Z) (spec : GumAddressSpec)
    (r : GumMemoryRange) : option Z :=
  if size r <? required then None
  else if max_distance spec <? near_distance (near_address spec) (base_address r)
  then
    let alt := wrap64 (base_address r + size r - required) in
    if max_distance spec <? near_distance (near_address spec) alt
    then None else Some alt
  else Some (base_address r).

Definition near_candidates (required : Z) (spec : GumAddressSpec)
    (gaps : list GumRangeDetails) : list Z :=
  omap (fun d => near_candidate required spec (range d)) gaps.

Definition FIXED_FLAGS : Z := Z.lor (Z.lor MAP_PRIVATE MAP_ANONYMOUS) MAP_FIXED.

(** A fixed-address mapping request that was refused. *)
Definition missed (required prot : Z) (b : Z) : Syscall :=
  SysMmap b required prot FIXED_FLAGS MAP_FAILED.

(** A fixed-address mapping request that was granted. *)
Definition claimed (required prot : Z) (b : Z) : Syscall :=
  SysMmap b required prot FIXED_FLAGS b.

Definition is_mprotect (e : Syscall) : Prop :=
  match e with SysMprotect _ _ _ _ => True | _ => False end.

(** The total byte size of an allocation of [n_pages] usable pages. *)
Definition total_size (K : Kernel) (n_pages : Z) : Z :=
  (n_pages + 1) * page_size K.

(** The header page after the allocator is done with it. *)
Definition header_page (total : Z) : Page :=
  {| pg_prot := PROT_READ; pg_words := {[ 0 := total ]} |}.

(** The free ranges in the words of the property: one range for each
    consecutive pair of occupied ranges separated by a strictly positive
    gap. *)
Definition gap_of_pair (ab : GumRangeDetails * GumRangeDetails)
    : option GumRangeDetails :=
  let '(a, b) := ab in
  if range_end a <? base_address (range b)
  then Some (free_range (range_end a) (base_address (range b) - range_end a))
  else None.

Definition gaps_between (occupied : list GumRangeDetails)
    : list GumRangeDetails :=
  omap gap_of_pair (zip occupied (tail occupied)).

(** A callback that stops at the first range it is given and keeps it. *)
Definition stop_at_first : GumFoundRangeFunc (option GumRangeDetails) :=
  fun d _ => ret (false, Some d).

(** The scanner's [prev_end] word for the specification's optional
    [prevEnd]: zero stands for "unset". *)
Definition prev_word (prevEnd : option Z) : Z :=
  match prevEnd with Some e => e | None => 0 end.

(** [prevEnd], when set, is a non-null address at or below the next
    occupied range. *)
Definition prev_fits (prevEnd : option Z) (rs : list GumRangeDetails)
    : Prop :=
  match prevEnd, rs with
  | Some e, d :: _ => 0 < e <= base_address (range d)
                      /\ base_address (range d) < 2 ^ 64
  | _, _ => True
  end.

(** The ranges [gum_emit_free_range] hands to the callback over a feed,
    whatever its order: the scan state [prev_end] threaded through the
    feed, a gap emitted when [prev_end] is set and the wrapped difference
    is positive. *)
Fixpoint scanned_gaps (prev_end : Z) (rs : list GumRangeDetails)
    : list GumRangeDetails :=
  match rs with
  | [] => []
  | d :: rest =>
      let start := base_address (range d) in
      let gap_size := wrap64 (start - prev_end) in
      (if negb (prev_end =? 0) && (0 <? gap_size)
       then [free_range prev_end gap_size] else [])
      ++ scanned_gaps (wrap64 (start + size (range d))) rest
  end.

(** The distance between two addresses around the 64-bit circle: the
    plain distance [|a - b|] when that is at most [2 ^ 63], else the way
    round. *)
Definition circular_distance (a b : Z) : Z :=
  Z.min (Z.abs (a - b)) (2 ^ 64 - Z.abs (a - b)).

(** Address [b] is within the distance budget of the target. *)
Definition within_reach (spec : GumAddressSpec) (b : Z) : Prop :=
  circular_distance (near_address spec) b <= max_distance spec.

(** The end-aligned base of a free range for a region of [required]
    bytes. *)
Definition end_aligned (required : Z) (r : GumMemoryRange) : Z :=
  base_address r + size r - required.

(** A free range satisfies the size requirement and the distance bound:
    it holds [required] bytes and its start, or its end-aligned base, is
    within reach of the target. *)
Definition gap_reachable (required : Z) (spec : GumAddressSpec)
    (r : GumMemoryRange) : Prop :=
  required <= size r
  /\ (within_reach spec (base_address r)
      \/ within_reach spec (end_aligned required r)).

(** Byte [x] lies in a range; byte [x] lies in one of the ranges of a
    list. *)
Definition in_range (r : GumMemoryRange) (x : Z) : Prop :=
  base_address r <= x < base_address r + size r.

Definition covered (rs : list GumRangeDetails) (x : Z) : Prop :=
  exists d, d ∈ rs /\ in_range (range d) x.

Definition ANY_FLAGS : Z := Z.lor MAP_PRIVATE MAP_ANONYMOUS.

(** The page covering byte [x], if it is mapped. *)
Definition page_at (K : Kernel) (s : OS) (x : Z) : option Page :=
  pages s !! (x / page_size K).

(** What [gum_memory_allocate] leaves behind on success: exactly [m]
    fresh pages at an aligned base. *)
Definition allocated (K : Kernel) (s s' : OS) (a m prot alignment : Z)
    : Prop :=
  0 < a /\ a mod alignment = 0 /\ a mod page_size K = 0
  /\ a + m * page_size K <= 2 ^ 64
  /\ (forall i, a / page_size K <= i < a / page_size K + m ->
        pages s !! i = None)
  /\ (forall i,
        pages s' !! i
        = if decide (a / page_size K <= i < a / page_size K + m)
          then Some (fresh_page prot) else pages s !! i).

(** What a successful page allocation leaves behind: a read-only header
    page holding the total size at page [B], then [n] usable pages. *)
Definition sized_allocation (K : Kernel) (s s' : OS) (B n prot : Z) : Prop :=
  0 < B /\ (B + n + 1) * page_size K <= 2 ^ 64
  /\ (forall i, B <= i < B + n + 1 -> pages s !! i = None)
  /\ (forall i,
        pages s' !! i
        = if decide (i = B) then Some (header_page (total_size K n))
          else if decide (B < i < B + n + 1) then Some (fresh_page prot)
          else pages s !! i).

(** The header page of the allocation returned as [p] is read-only and
    holds the total size; the [n] usable pages carry the requested
    protection. *)
Definition header_locked (K : Kernel) (s' : OS) (p n page_prot : Z) : Prop :=
  page_at K s' (p - page_size K) = Some (header_page (total_size K n))
  /\ forall x, p <= x < p + n * page_size K ->
       page_at K s' x
       = Some (fresh_page (_gum_page_protection_to_posix page_prot)).

Definition set_result (ctx : GumAllocNearContext) (v : Z)
    : GumAllocNearContext :=
  {| nc_result := v; nc_size := nc_size ctx;
     nc_posix_page_prot := nc_posix_page_prot ctx;
     nc_address_spec := nc_address_spec ctx |}.

(** The search found nothing: every candidate was tried and refused. *)
Definition search_missed (ctx ctx' : GumAllocNearContext) (s s' : OS)
    (gaps : list GumRangeDetails) : Prop :=
  nc_result ctx' = NULL /\ pages s' = pages s
  /\ trace s'
     = rev (map (missed (nc_size ctx) (nc_posix_page_prot ctx))
              (near_candidates (nc_size ctx) (nc_address_spec ctx) gaps))
       ++ trace s.

(** The search claimed candidate [b] after the candidates [pre] were
    refused. *)
Definition search_claimed (K : Kernel) (ctx ctx' : GumAllocNearContext)
    (s s' : OS) (gaps : list GumRangeDetails) (pre : list Z) (b : Z) : Prop :=
  (exists post,
     near_candidates (nc_size ctx) (nc_address_spec ctx) gaps
     = pre ++ b :: post)
  /\ nc_result ctx' = b
  /\ trace s'
     = claimed (nc_size ctx) (nc_posix_page_prot ctx) b
         :: rev (map (missed (nc_size ctx) (nc_posix_page_prot ctx)) pre)
         ++ trace s
  /\ pages s'
     = map_pages (b / page_size K) (Z.to_nat (page_count K (nc_size ctx)))
         (fresh_page (nc_posix_page_prot ctx)) (pages s)
  /\ 0 < nc_size ctx /\ b mod page_size K = 0 /\ 0 <= b
  /\ b + page_count K (nc_size ctx) * page_size K <= 2 ^ 64.

(** The byte size the near-address search asks for. *)
Definition near_required (K : Kernel) (n_pages : Z) : Z :=
  wrap64 (wrap32 (1 + n_pages) * page_size K).

(** A successful near allocation: candidate [B * page_size] was claimed
    after the candidates [pre] were refused; the header page and the
    usable pages are in place. *)
Definition near_claimed (K : Kernel) (gaps : list GumRangeDetails)
    (s s' : OS) (n page_prot : Z) (spec : GumAddressSpec)
    (p : Z) (pre : list Z) (B : Z) : Prop :=
  let pp := _gum_page_protection_to_posix page_prot in
  let required := near_required K n in
  (exists post,
     near_candidates required spec gaps = pre ++ B * page_size K :: post)
  /\ 0 < B /\ p = (B + 1) * page_size K /\ required = total_size K n
  /\ (B + n + 1) * page_size K <= 2 ^ 64
  /\ (exists hdr,
        Forall is_mprotect hdr
        /\ trace s'
           = hdr ++ claimed required pp (B * page_size K)
               :: rev (map (missed required pp) pre) ++ trace s)
  /\ (forall i,
        pages s' !! i
        = if decide (i = B) then Some (header_page (total_size K n))
          else if decide (B < i < B + n + 1) then Some (fresh_page pp)
          else pages s !! i).

(** A near allocation that found nothing: every candidate was tried
    and refused, and the address space is as before. *)
Definition near_missed (K : Kernel) (gaps : list GumRangeDetails)
    (s s' : OS) (n page_prot : Z) (spec : GumAddressSpec) : Prop :=
  let pp := _gum_page_protection_to_posix page_prot in
  let required := near_required K n in
  pages s' = pages s
  /\ trace s'
     = rev (map (missed required pp) (near_candidates required spec gaps))
       ++ trace s.

(** Decommit in the words of section 4.6: issue the "may free
    immediately" advisory; unsupported counts as success; an invalid
    request is retried once with "don't need"; the result is that of the
    final attempt. *)
Definition decommit_per_spec (K : Kernel) (address size : Z) : M bool :=
  do first <- madvise K address size MADV_FREE;
  if first =? 0 then ret true
  else
    do e <- get_errno;
    if e =? ENOSYS then ret true
    else if e =? EINVAL then
      do second <- madvise K address size MADV_DONTNEED;
      ret (second =? 0)
    else ret false.

(** ** Example machines *)

Definition boot : OS := {| pages := ∅; errno := 0; trace := [] |}.

Definition occupied (base size : Z) : GumRangeDetails :=
  {| range := {| base_address := base; size := size |};
     protection := GUM_PAGE_READ |}.

(** 4 KiB pages; unhinted mappings go to 0x10000; fixed mappings are
    granted; [MADV_FREE] is rejected as invalid. *)
Definition demo_kernel : Kernel :=
  {| page_bits := 12;
     k_place := fun _ _ _ _ => Some 65536;
     k_fixed := fun _ _ _ _ => true;
     k_madvise := fun _ _ _ advice => if advice =? MADV_FREE then EINVAL else 0;
     k_ranges := fun _ => [occupied 65536 65536; occupied 196608 65536] |}.

(** As [demo_kernel], but the first fixed mapping of a run loses the race
    and three ranges are occupied. *)
Definition racy_kernel : Kernel :=
  {| page_bits := 12;
     k_place := fun _ _ _ _ => Some 65536;
     k_fixed := fun s _ _ _ => negb (Nat.eqb (length (trace s)) 0);
     k_madvise := fun _ _ _ _ => ENOSYS;
     k_ranges := fun _ => [occupied 65536 65536; occupied 196608 65536;
                           occupied 327680 65536] |}.

(** The mocked enumerator of section 8: [0,100) and [150,200). *)
Definition mock_kernel : Kernel :=
  {| page_bits := 12;
     k_place := fun _ _ _ _ => None;
     k_fixed := fun _ _ _ _ => false;
     k_madvise := fun _ _ _ _ => 0;
     k_ranges := fun _ => [occupied 0 100; occupied 150 50] |}.

Definition near_demo_spec : GumAddressSpec :=
  {| near_address := 131072; max_distance := 256 |}.

Definition racy_demo_spec : GumAddressSpec :=
  {| near_address := 131072; max_distance := 131072 |}.

(** ** Vocabulary of the further properties *)

(** The mask of the three protection flags. *)
Definition GUM_PAGE_RWX : Z :=
  Z.lor GUM_PAGE_RW GUM_PAGE_EXECUTE.

(** Total byte size of a list of ranges. *)
Definition sum_sizes (rs : list GumRangeDetails) : Z :=
  foldr (fun d acc => size (range d) + acc) 0 rs.

Definition is_madvise (e : Syscall) : Prop :=
  match e with SysMadvise _ _ _ _ => True | _ => False end.

(** Two page allocations in a row. *)
Definition two_allocations (K : Kernel) (n1 prot1 n2 prot2 : Z) : M (Z * Z) :=
  do p1 <- gum_try_alloc_n_pages K n1 prot1;
  do p2 <- gum_try_alloc_n_pages K n2 prot2;
  ret (p1, p2).

(** Decommit followed by commit of the same region. *)
Definition decommit_then_commit (K : Kernel) (address size page_prot : Z)
    : M bool :=
  do _ <- gum_memory_decommit K address size;
  gum_memory_commit address size page_prot.

(** 4 KiB pages and a given feed of occupied ranges. *)
Definition feed_kernel (rs : list GumRangeDetails) : Kernel :=
  {| page_bits := 12;
     k_place := fun _ _ _ _ => Some 65536;
     k_fixed := fun _ _ _ _ => true;
     k_madvise := fun _ _ _ _ => 0;
     k_ranges := fun _ => rs |}.

(** 4 KiB pages; each unhinted mapping goes 64 KiB further up for every
    system call issued so far. *)
Definition bump_kernel : Kernel :=
  {| page_bits := 12;
     k_place := fun s _ _ _ => Some (65536 * (1 + Z.of_nat (length (trace s))));
     k_fixed := fun _ _ _ _ => true;
     k_madvise := fun _ _ _ _ => 0;
     k_ranges := fun _ => [] |}.

(** ** Proof automation *)

Ltac unbool :=
  repeat match goal with
  | H : (_ && _) = true |- _ => apply andb_prop in H as [? ?]
  | H : (_ <? _) = true |- _ => apply Z.ltb_lt in H
  | H : (_ <=? _) = true |- _ => apply Z.leb_le in H
  | H : (_ =? _) = true |- _ => apply Z.eqb_eq in H
  | H : (_ <? _) = false |- _ => apply Z.ltb_ge in H
  | H : (_ <=? _) = false |- _ => apply Z.leb_gt in H
  | H : (_ =? _) = false |- _ => apply Z.eqb_neq in H
  end.

(** ** Rounding facts about the alignment macros *)

Section AlignFacts.

Lemma wrap64_small z : 0 <= z < 2 ^ 64 -> wrap64 z = z.
Proof. intros H. unfold wrap64. apply Z.mod_small. exact H. Qed.

Lemma wrap64_range z : 0 <= wrap64 z < 2 ^ 64.
Proof. unfold wrap64. apply Z.mod_pos_bound. lia. Qed.

Lemma pow2_pos k : 0 <= k -> 0 < 2 ^ k.
Proof. intros. apply Z.pow_pos_nonneg; lia. Qed.

Lemma pow2_le_64 k : 0 <= k <= 64 -> 2 ^ k <= 2 ^ 64.
Proof. intros. apply Z.pow_le_mono_r; lia. Qed.

(** Masking off the low [k] bits of a 64-bit word rounds it down to a
    multiple of [2 ^ k]. *)
Lemma land_not64_ones x k :
  0 <= k <= 64 -> 0 <= x < 2 ^ 64 ->
  Z.land x (not64 (Z.ones k)) = x - x mod 2 ^ k.
Proof.
  intros Hk Hx.
  assert (Hd : x - x mod 2 ^ k = Z.shiftl (Z.shiftr x k) k).
  { rewrite Z.shiftl_mul_pow2, Z.shiftr_div_pow2 by lia.
    pose proof (Z.div_mod x (2 ^ k)). pose proof (pow2_pos k). lia. }
  rewrite Hd. apply Z.bits_inj'. intros n Hn.
  unfold not64. rewrite Z.land_spec, Z.lxor_spec.
  rewrite !Z.testbit_ones_nonneg by lia.
  destruct (Z.ltb_spec n k) as [Hlt | Hge].
  - rewrite Z.shiftl_spec_low by lia.
    replace (n <? 64) with true by (symmetry; apply Z.ltb_lt; lia).
    replace (0 <=? n) with true by (symmetry; apply Z.leb_le; lia).
    simpl. apply andb_false_r.
  - rewrite Z.shiftl_spec by lia. rewrite Z.shiftr_spec by lia.
    replace (n - k + k) with n by lia.
    replace (0 <=? n) with true by (symmetry; apply Z.leb_le; lia).
    simpl. destruct (Z.ltb_spec n 64) as [H64 | H64].
    + simpl. apply andb_true_r.
    + simpl. rewrite andb_false_r. symmetry.
      apply Z.bits_above_log2; [lia |].
      destruct (Z.eq_dec x 0) as [-> | Hne]; [simpl; lia |].
      assert (2 ^ 64 <= 2 ^ n) by (apply Z.pow_le_mono_r; lia).
      apply Z.log2_lt_pow2; lia.
Qed.

Lemma round_up_pow2 s k :
  0 <= k < 64 -> 0 <= s < 2 ^ 64 ->
  GUM_ALIGN_SIZE s (2 ^ k) =
    wrap64 (s + (2 ^ k - 1)) - wrap64 (s + (2 ^ k - 1)) mod 2 ^ k.
Proof.
  intros Hk Hs. unfold GUM_ALIGN_SIZE.
  pose proof (pow2_pos k) as Hp. pose proof (pow2_le_64 k) as Hq.
  assert (Hk' : k + 1 <= 64) by lia.
  assert (2 ^ k < 2 ^ 64) by (apply Z.pow_lt_mono_r; lia).
  rewrite (wrap64_small (2 ^ k - 1)) by lia.
  replace (2 ^ k - 1) with (Z.ones k) at 2
    by (rewrite Z.ones_equiv; lia).
  apply land_not64_ones; [lia | apply wrap64_range].
Qed.

End AlignFacts.

(** ** The free-range scanner *)

Section Scanner.

Context {U : Type}.
Variable func : GumFoundRangeFunc U.

Lemma scan_any rs : forall prev_end ud s,
  bind (enumerate_list rs gum_emit_free_range
          {| fr_func := func; fr_user_data := ud; fr_prev_end := prev_end |})
       (fun c => ret (fr_user_data c)) s
  = enumerate_list (scanned_gaps prev_end rs) func ud s.
Proof.
  induction rs as [| d rest IH]; intros prev_end ud s; [reflexivity |].
  cbn [enumerate_list scanned_gaps].
  unfold gum_emit_free_range at 1. cbn [fr_prev_end fr_func fr_user_data].
  set (next := wrap64 (base_address (range d) + size (range d))).
  specialize (IH next).
  destruct (prev_end =? 0); cbn [negb andb app].
  - unfold bind in IH |- *. cbn [ret]. apply IH.
  - destruct (0 <? wrap64 (base_address (range d) - prev_end)); cbn [app].
    + cbn [enumerate_list]. unfold free_range. unfold bind in IH |- *.
      destruct (func _ ud s) as [[carry ud'] s' | c]; [| reflexivity].
      cbn [ret]. destruct carry; [apply IH | reflexivity].
    + unfold bind in IH |- *. cbn [ret]. apply IH.
Qed.

End Scanner.

Lemma gaps_between_cons a b rest :
  gaps_between (a :: b :: rest)
  = match gap_of_pair (a, b) with
    | Some g => g :: gaps_between (b :: rest)
    | None => gaps_between (b :: rest)
    end.
Proof. reflexivity. Qed.

Lemma free_ranges_from_pairs rest : forall a,
  free_ranges_from (Some (range_end a)) rest = gaps_between (a :: rest).
Proof.
  induction rest as [| b rest IH]; intros a; [reflexivity |].
  cbn [free_ranges_from]. rewrite IH, gaps_between_cons.
  unfold gap_of_pair.
  destruct (range_end a <? base_address (range b)); reflexivity.
Qed.

Lemma free_ranges_pairs occupied :
  free_ranges occupied = gaps_between occupied.
Proof.
  destruct occupied as [| a rest]; [reflexivity |].
  unfold free_ranges. cbn [free_ranges_from app].
  apply free_ranges_from_pairs.
Qed.

Lemma scan_emits K {U} (func : GumFoundRangeFunc U) ud s :
  gum_enumerate_free_ranges K func ud s
  = enumerate_list (scanned_gaps 0 (k_ranges K s)) func ud s.
Proof.
  rewrite <- scan_any. reflexivity.
Qed.

(** On a feed that honours the collaborator contract the scan state is
    the specification's [prevEnd] and no difference wraps. *)
Lemma scanned_gaps_ascending rs : forall prevEnd,
  ascending rs = true ->
  prev_fits prevEnd rs ->
  scanned_gaps (prev_word prevEnd) rs = free_ranges_from prevEnd rs.
Proof.
  induction rs as [| d rest IH]; intros prevEnd Hasc Hfit; [reflexivity |].
  cbn [ascending] in Hasc. unfold range_end in Hasc.
  apply andb_prop in Hasc as [Hasc Hrest].
  apply andb_prop in Hasc as [Hasc Hnext].
  unbool.
  cbn [scanned_gaps free_ranges_from].
  assert (Htail : scanned_gaps
                    (wrap64 (base_address (range d) + size (range d))) rest
                  = free_ranges_from (Some (range_end d)) rest).
  { destruct rest as [| d' rest']; [reflexivity |].
    unbool. rewrite wrap64_small by lia.
    apply (IH (Some (range_end d))); [exact Hrest |].
    unfold range_end. simpl. lia. }
  rewrite Htail. f_equal.
  destruct prevEnd as [e |]; cbn [prev_word]; [| reflexivity].
  simpl in Hfit. destruct Hfit as [[He1 He2] He3].
  replace (e =? 0) with false by (symmetry; apply Z.eqb_neq; lia).
  rewrite (wrap64_small (base_address (range d) - e)) by lia.
  cbn [negb andb].
  destruct (Z.ltb_spec e (base_address (range d)));
    destruct (Z.ltb_spec 0 (base_address (range d) - e));
    try reflexivity; lia.
Qed.

Lemma scanned_gaps_between rs :
  ascending rs = true -> scanned_gaps 0 rs = gaps_between rs.
Proof.
  intros Hasc. rewrite <- free_ranges_pairs.
  exact (scanned_gaps_ascending rs None Hasc I).
Qed.

Lemma scan_refines K {U} (func : GumFoundRangeFunc U) ud s :
  ascending (k_ranges K s) = true ->
  gum_enumerate_free_ranges K func ud s
  = enumerate_list (gaps_between (k_ranges K s)) func ud s.
Proof.
  intros Hasc. rewrite scan_emits, scanned_gaps_between by exact Hasc.
  reflexivity.
Qed.

Lemma enumerate_record gaps : forall seen s,
  enumerate_list gaps record_range seen s = Done (seen ++ gaps) s.
Proof.
  induction gaps as [| g gaps IH]; intros seen s.
  - cbn. unfold ret. rewrite app_nil_r. reflexivity.
  - cbn [enumerate_list]. unfold bind, record_range, ret.
    rewrite IH. rewrite <- app_assoc. reflexivity.
Qed.

(** C2. Driven by a collaborator that reports occupied ranges in
    strictly ascending, non-overlapping order, the free-range scanner
    calls the callback exactly on the gaps between consecutive occupied
    ranges that are strictly positive, in order, each
    [{base: prevEnd, size: range.base - prevEnd}], with the enumerator's
    early stop: a recording callback sees exactly those gaps (none before
    the first occupied range, none after the last), and a callback that
    stops at once sees only the first of them. *)
Theorem scanner_emits_gaps_between K s :
  ascending (k_ranges K s) = true ->
  (forall (U : Type) (func : GumFoundRangeFunc U) (ud : U),
     gum_enumerate_free_ranges K func ud s
     = enumerate_list (gaps_between (k_ranges K s)) func ud s)
  /\ gum_enumerate_free_ranges K record_range [] s
     = Done (gaps_between (k_ranges K s)) s
  /\ gum_enumerate_free_ranges K stop_at_first None s
     = Done (head (gaps_between (k_ranges K s))) s.
Proof.
  intros Hasc. split; [| split].
  - intros U func ud. apply scan_refines. exact Hasc.
  - rewrite scan_refines by exact Hasc. apply enumerate_record.
  - rewrite scan_refines by exact Hasc.
    destruct (gaps_between (k_ranges K s)); reflexivity.
Qed.

(** The mocked enumerator reporting [0,100) and [150,200): exactly the
    free range [{base:100, size:50}] is emitted. *)
Lemma scanner_mock_example :
  ascending (k_ranges mock_kernel boot) = true
  /\ gum_enumerate_free_ranges mock_kernel record_range [] boot
     = Done [free_range 100 50] boot.
Proof.
  split; [reflexivity |].
  exact (proj1 (proj2 (scanner_emits_gaps_between mock_kernel boot eq_refl))).
Defined.

(** ** System calls always return *)

Lemma munmap_returns K addr len s :
  exists r s', munmap K addr len s = Done r s'.
Proof. unfold munmap. destruct (_ && _); eauto. Qed.

Lemma mmap_returns K addr len prot flags s :
  exists r s', mmap K addr len prot flags s = Done r s'.
Proof.
  unfold mmap.
  destruct (match (if negb _ then _ else _) with Some _ => _ | None => _ end);
    eauto.
Qed.

Lemma wrap64_sub_sub a b :
  0 <= b < 2 ^ 64 -> wrap64 (a - wrap64 (a - b)) = b.
Proof.
  intros Hb. unfold wrap64.
  rewrite Zminus_mod_idemp_r.
  replace (a - (a - b)) with b by lia.
  apply Z.mod_small. exact Hb.
Qed.

(** ** The trimming invariant of [gum_memory_allocate] *)

Lemma trim_tracks_size K base aligned_base allocation_size size s :
  0 <= size < 2 ^ 64 ->
  exists s', bind (trim_prefix K base aligned_base allocation_size)
                  (trim_suffix K aligned_base size) s = Done size s'.
Proof.
  intros Hsize.
  assert (Hsuffix : forall a s0,
            exists s1, trim_suffix K aligned_base size a s0 = Done size s1).
  { intros a s0. unfold trim_suffix.
    destruct (Z.eqb_spec a size) as [-> | Hne]; cbn [negb].
    - eexists. reflexivity.
    - unfold bind, gum_memory_free, bind.
      destruct (munmap_returns K (wrap64 (aligned_base + size))
                  (wrap64 (a - size)) s0) as (r & s1 & ->).
      cbn [ret]. rewrite wrap64_sub_sub by exact Hsize. eexists. reflexivity. }
  unfold trim_prefix. destruct (aligned_base =? base); cbn [negb].
  - unfold bind at 1. cbn [ret]. apply Hsuffix.
  - unfold bind at 1. unfold bind at 1. unfold gum_memory_free, bind.
    destruct (munmap_returns K base (wrap64 (aligned_base - base)) s)
      as (r & s1 & ->).
    cbn [ret]. apply Hsuffix.
Qed.

(** C6. Whenever the page-aligned mapping of [gum_memory_allocate]
    succeeds, the allocation size tracked through the release of the
    unaligned prefix and of the surplus suffix ends equal to the requested
    size, so the assertion closing the trimming sequence never fires:
    the call always returns. *)
Theorem allocate_assertion_never_fires K address size alignment page_prot s :
  0 <= size < 2 ^ 64 ->
  (forall base s0,
     exists s1,
       bind (trim_prefix K base (GUM_ALIGN_POINTER base alignment)
               (over_allocation size alignment (page_size K)))
            (trim_suffix K (GUM_ALIGN_POINTER base alignment) size) s0
       = Done size s1)
  /\ exists a s',
       gum_memory_allocate K address size alignment page_prot s = Done a s'.
Proof.
  intros Hsize. split.
  - intros base s0. apply trim_tracks_size. exact Hsize.
  - unfold gum_memory_allocate, gum_allocate_page_aligned.
    unfold bind at 1. unfold bind at 1.
    destruct (mmap_returns K (GUM_ALIGN_POINTER address alignment)
                (over_allocation size alignment (gum_query_page_size K))
                (_gum_page_protection_to_posix page_prot)
                (Z.lor MAP_PRIVATE MAP_ANONYMOUS) s) as (r & s1 & ->).
    cbn [ret].
    destruct ((if negb (r =? MAP_FAILED) then r else NULL) =? NULL).
    + eauto.
    + set (b := if negb (r =? MAP_FAILED) then r else NULL).
      destruct (trim_tracks_size K b (GUM_ALIGN_POINTER b alignment)
                  (over_allocation size alignment (gum_query_page_size K))
                  size s1 Hsize) as (s2 & Htrim).
      unfold bind in Htrim |- *.
      destruct (trim_prefix K b _ _ s1) as [a1 s1' | c]; [| discriminate].
      rewrite Htrim. rewrite Z.eqb_refl. cbn. eauto.
Qed.

Lemma allocate_assertion_example :
  0 <= 8192 < 2 ^ 64
  /\ ((forall base s0,
        exists s1,
          bind (trim_prefix demo_kernel base (GUM_ALIGN_POINTER base 65536)
                  (over_allocation 8192 65536 (page_size demo_kernel)))
               (trim_suffix demo_kernel (GUM_ALIGN_POINTER base 65536) 8192) s0
          = Done 8192 s1)
      /\ exists a s',
          gum_memory_allocate demo_kernel NULL 8192 65536 GUM_PAGE_RW boot
          = Done a s').
Proof.
  split; [lia |].
  apply (allocate_assertion_never_fires demo_kernel NULL 8192 65536
           GUM_PAGE_RW boot).
  lia.
Defined.

(** ** Decommit *)

(** C8. [gum_memory_decommit] first issues [MADV_FREE]; when the kernel
    answers [ENOSYS] it reports success without a second call; when the
    kernel answers [EINVAL] it retries once with [MADV_DONTNEED] and
    reports that attempt's outcome; otherwise it reports the outcome of
    the only attempt. *)
Theorem decommit_follows_spec K address size s :
  gum_memory_decommit K address size s = decommit_per_spec K address size s
  /\ match gum_memory_decommit K address size s with
     | Done ok s' =>
         let e1 := k_madvise K s address size MADV_FREE in
         let refused := SysMadvise address size MADV_FREE (-1) in
         let s1 := emit refused (fail_with e1 s) in
         if e1 =? 0 then
           ok = true
           /\ trace s' = SysMadvise address size MADV_FREE 0 :: trace s
         else if e1 =? ENOSYS then
           ok = true /\ trace s' = refused :: trace s
         else if e1 =? EINVAL then
           let e2 := k_madvise K s1 address size MADV_DONTNEED in
           ok = (e2 =? 0)
           /\ trace s'
              = SysMadvise address size MADV_DONTNEED (if e2 =? 0 then 0 else -1)
                  :: refused :: trace s
         else ok = false /\ trace s' = refused :: trace s
     | Crash _ => False
     end.
Proof.
  unfold gum_memory_decommit, decommit_per_spec.
  unfold bind at 1 4 7. unfold madvise at 1 3 5.
  destruct (k_madvise K s address size MADV_FREE =? 0) eqn:He1.
  - cbn. auto.
  - cbn [Z.eqb negb]. unfold bind at 1 3 5. unfold get_errno at 1 2 3.
    cbn [errno emit fail_with].
    destruct (k_madvise K s address size MADV_FREE =? ENOSYS) eqn:He2.
    + cbn. auto.
    + destruct (k_madvise K s address size MADV_FREE =? EINVAL) eqn:He3.
      * unfold bind, madvise.
        destruct (k_madvise K _ address size MADV_DONTNEED =? 0) eqn:He4;
          cbn; rewrite ?He4; auto.
      * cbn. auto.
Qed.

(** ** The unsigned slack of the over-allocation *)

(** The slack [alignment - page_size] is computed on [gsize]: below the
    page size the difference wraps around to within one page of the
    largest word. *)
Lemma alignment_slack_wraps alignment page_size :
  0 <= alignment < page_size -> page_size <= 2 ^ 64 ->
  alignment_slack alignment page_size = 2 ^ 64 - (page_size - alignment).
Proof.
  intros Ha Hps. unfold alignment_slack, wrap64.
  replace (alignment - page_size)
    with (2 ^ 64 - (page_size - alignment) + (-1) * 2 ^ 64) by lia.
  rewrite Z.mod_add by lia. apply Z.mod_small. lia.
Qed.

(** ** Page-table updates, pointwise *)

Lemma lookup_map_pages count : forall first pg (m : gmap Z Page) i,
  map_pages first count pg m !! i
  = if decide (first <= i < first + Z.of_nat count) then Some pg else m !! i.
Proof.
  induction count as [| c IH]; intros first pg m i.
  - cbn. case_decide; [lia | reflexivity].
  - cbn [map_pages]. rewrite lookup_insert, IH.
    repeat case_decide; try reflexivity; lia.
Qed.

Lemma lookup_unmap_pages count : forall first (m : gmap Z Page) i,
  unmap_pages first count m !! i
  = if decide (first <= i < first + Z.of_nat count) then None else m !! i.
Proof.
  induction count as [| c IH]; intros first m i.
  - cbn. case_decide; [lia | reflexivity].
  - cbn [unmap_pages]. rewrite lookup_delete, IH.
    repeat case_decide; try reflexivity; lia.
Qed.

Lemma lookup_protect_pages count : forall first prot (m : gmap Z Page) i,
  protect_pages first count prot m !! i
  = if decide (first <= i < first + Z.of_nat count)
    then set_prot prot <$> m !! i else m !! i.
Proof.
  induction count as [| c IH]; intros first prot m i.
  - cbn. case_decide; [lia | reflexivity].
  - cbn [protect_pages]. rewrite lookup_alter, !IH.
    repeat case_decide; subst; try reflexivity; try lia.
Qed.

Lemma pages_free_spec count : forall first (m : gmap Z Page),
  pages_free first count m = true ->
  forall i, first <= i < first + Z.of_nat count -> m !! i = None.
Proof.
  induction count as [| c IH]; intros first m Hfree i Hi; [lia |].
  cbn [pages_free] in Hfree.
  destruct (m !! first) eqn:Hfirst; [discriminate |].
  destruct (decide (i = first)) as [-> | Hne]; [exact Hfirst |].
  apply (IH (first + 1)); [exact Hfree | lia].
Qed.

Lemma pages_mapped_intro count : forall first (m : gmap Z Page),
  (forall i, first <= i < first + Z.of_nat count -> is_Some (m !! i)) ->
  pages_mapped first count m = true.
Proof.
  induction count as [| c IH]; intros first m Hall; [reflexivity |].
  cbn [pages_mapped].
  destruct (Hall first ltac:(lia)) as [pg ->].
  apply IH. intros i Hi. apply Hall. lia.
Qed.

(** ** Page arithmetic *)

Section PageArith.

Variable K : Kernel.
Hypothesis Hok : page_bits_ok K.

Lemma page_size_bounds : 8 <= page_size K < 2 ^ 32.
Proof.
  unfold page_bits_ok in Hok. unfold page_size. split.
  - change 8 with (2 ^ 3). apply Z.pow_le_mono_r; lia.
  - apply Z.pow_lt_mono_r; lia.
Qed.

Lemma page_count_mul m : page_count K (m * page_size K) = m.
Proof.
  pose proof page_size_bounds as Hps. unfold page_count.
  replace (m * page_size K + page_size K - 1)
    with (page_size K - 1 + m * page_size K) by lia.
  rewrite Z.div_add by lia. rewrite Z.div_small by lia. lia.
Qed.

Lemma page_number_mul m : m * page_size K / page_size K = m.
Proof. pose proof page_size_bounds. apply Z.div_mul. lia. Qed.

Lemma page_offset_mul m : (m * page_size K) mod page_size K = 0.
Proof. apply Z.mod_mul. pose proof page_size_bounds. lia. Qed.

Lemma aligned_is_multiple b :
  b mod page_size K = 0 -> b = (b / page_size K) * page_size K.
Proof.
  intros Hb. pose proof page_size_bounds.
  pose proof (Z.div_mod b (page_size K)). lia.
Qed.

Lemma map_failed_unaligned : MAP_FAILED mod page_size K <> 0.
Proof.
  pose proof page_size_bounds as Hps. unfold page_bits_ok in Hok.
  unfold MAP_FAILED.
  assert (Hpow : 2 ^ 64 = 2 ^ (64 - page_bits K) * page_size K).
  { unfold page_size. rewrite <- Z.pow_add_r by lia. f_equal. lia. }
  replace (2 ^ 64 - 1)
    with (page_size K - 1 + (2 ^ (64 - page_bits K) - 1) * page_size K)
    by lia.
  rewrite Z.mod_add by lia. rewrite Z.mod_small by lia. lia.
Qed.

Lemma round_up_page x :
  0 <= x < 2 ^ 64 ->
  GUM_ALIGN_SIZE x (page_size K)
  = wrap64 (x + (page_size K - 1))
    - wrap64 (x + (page_size K - 1)) mod page_size K.
Proof.
  intros Hx. unfold page_size. apply round_up_pow2; [| exact Hx].
  unfold page_bits_ok in Hok. lia.
Qed.

End PageArith.

(** ** What [mmap] and [munmap] do *)

Lemma mmap_cases K addr len prot flags s :
  let n := page_count K len in
  let fixed := negb (Z.land flags MAP_FIXED =? 0) in
  (mmap K addr len prot flags s
   = Done MAP_FAILED
       (emit (SysMmap addr len prot flags MAP_FAILED) (fail_with ENOMEM s)))
  \/ exists b,
       mmap K addr len prot flags s
       = Done b
           (emit (SysMmap addr len prot flags b)
              (with_pages
                 (map_pages (b / page_size K) (Z.to_nat n) (fresh_page prot)
                    (pages s)) s))
       /\ 0 < len /\ b mod page_size K = 0 /\ 0 <= b
       /\ b + n * page_size K <= 2 ^ 64
       /\ (if fixed then b = addr /\ k_fixed K s addr len prot = true
           else 0 < b
                /\ pages_free (b / page_size K) (Z.to_nat n) (pages s) = true).
Proof.
  intros n fixed. unfold mmap. fold n. fold fixed.
  destruct fixed eqn:Hfixed.
  - destruct (k_fixed K s addr len prot) eqn:Hk; [| left; reflexivity].
    destruct (_ && _) eqn:Hchk; [| left; reflexivity].
    right. exists addr. split; [reflexivity |].
    unbool. repeat split; assumption.
  - destruct (k_place K s addr len prot) as [b |] eqn:Hk; [| left; reflexivity].
    destruct (_ && _) eqn:Hchk; [| left; reflexivity].
    right. exists b. split; [reflexivity |].
    cbn [orb] in Hchk. unbool. repeat split; assumption.
Qed.

Lemma munmap_pages K (Hok : page_bits_ok K) first count s :
  0 <= first -> 0 < count -> (first + count) * page_size K <= 2 ^ 64 ->
  munmap K (first * page_size K) (count * page_size K) s
  = Done 0
      (emit (SysMunmap (first * page_size K) (count * page_size K) 0)
         (with_pages (unmap_pages first (Z.to_nat count) (pages s)) s)).
Proof.
  intros Hf Hc Hend. pose proof (page_size_bounds K Hok) as Hps.
  unfold munmap.
  rewrite page_count_mul, page_number_mul, page_offset_mul by assumption.
  replace (0 <? count * page_size K) with true by (symmetry; apply Z.ltb_lt; nia).
  replace (first * page_size K + count * page_size K <=? 2 ^ 64) with true
    by (symmetry; apply Z.leb_le; lia).
  reflexivity.
Qed.

(** ** The alignment-aware raw allocator on page multiples *)

Lemma align_pointer_pow2 p k :
  0 <= k < 64 -> 0 <= p -> p + 2 ^ k <= 2 ^ 64 ->
  GUM_ALIGN_POINTER p (2 ^ k) mod 2 ^ k = 0
  /\ p <= GUM_ALIGN_POINTER p (2 ^ k) < p + 2 ^ k.
Proof.
  intros Hk Hp Hfit. pose proof (pow2_pos k ltac:(lia)) as Hpos.
  change (GUM_ALIGN_POINTER p (2 ^ k)) with (GUM_ALIGN_SIZE p (2 ^ k)).
  rewrite round_up_pow2 by lia.
  rewrite (wrap64_small (p + (2 ^ k - 1))) by lia.
  pose proof (Z.div_mod (p + (2 ^ k - 1)) (2 ^ k) ltac:(lia)) as Hdm.
  pose proof (Z.mod_pos_bound (p + (2 ^ k - 1)) (2 ^ k) Hpos) as Hmod.
  split; [| lia].
  replace (p + (2 ^ k - 1) - (p + (2 ^ k - 1)) mod 2 ^ k)
    with ((p + (2 ^ k - 1)) / 2 ^ k * 2 ^ k) by lia.
  apply Z.mod_mul. lia.
Qed.

Section RawAllocator.

Variable K : Kernel.
Hypothesis Hok : page_bits_ok K.

Let ps := page_size K.

Lemma trim_prefix_pages B P A s :
  0 < B -> 0 <= P -> (B + P) * ps <= 2 ^ 64 -> 0 <= A - P * ps < 2 ^ 64 ->
  exists s',
    trim_prefix K (B * ps) ((B + P) * ps) A s = Done (A - P * ps) s'
    /\ pages s' = unmap_pages B (Z.to_nat P) (pages s).
Proof.
  intros HB HP Hend HA. pose proof (page_size_bounds K Hok) as Hps.
  fold ps in Hps. unfold trim_prefix.
  destruct (Z.eqb_spec ((B + P) * ps) (B * ps)) as [Heq | Hne]; cbn [negb].
  - assert (P = 0) by (apply Z.mul_cancel_r in Heq; lia).
    subst P. eexists. split.
    + unfold ret. f_equal. lia.
    + reflexivity.
  - assert (0 < P) by (destruct (Z.eq_dec P 0); [subst; lia | lia]).
    assert (ps <= B * ps) by nia. assert (0 < P * ps) by nia.
    replace ((B + P) * ps - B * ps) with (P * ps) by lia.
    rewrite (wrap64_small (P * ps)) by lia.
    unfold bind, gum_memory_free, bind. unfold ps.
    rewrite munmap_pages by (assumption || lia).
    cbn [ret]. fold ps. rewrite wrap64_small by lia.
    eexists. split; reflexivity.
Qed.

Lemma trim_suffix_pages Q m S s :
  0 < Q -> 0 <= m -> 0 <= S -> (Q + m + S) * ps <= 2 ^ 64 ->
  exists s',
    trim_suffix K (Q * ps) (m * ps) ((m + S) * ps) s = Done (m * ps) s'
    /\ pages s' = unmap_pages (Q + m) (Z.to_nat S) (pages s).
Proof.
  intros HQ Hm HS Hend. pose proof (page_size_bounds K Hok) as Hps.
  fold ps in Hps. unfold trim_suffix.
  destruct (Z.eqb_spec ((m + S) * ps) (m * ps)) as [Heq | Hne]; cbn [negb].
  - assert (S = 0) by (apply Z.mul_cancel_r in Heq; lia).
    subst S. exists s. split; [| reflexivity].
    unfold ret. f_equal. lia.
  - assert (0 < S) by (destruct (Z.eq_dec S 0); [subst; lia | lia]).
    assert (ps <= Q * ps) by nia. assert (0 < S * ps) by nia.
    assert (0 <= m * ps) by nia.
    replace ((m + S) * ps - m * ps) with (S * ps) by lia.
    rewrite (wrap64_small (S * ps)) by lia.
    replace (Q * ps + m * ps) with ((Q + m) * ps) by lia.
    rewrite (wrap64_small ((Q + m) * ps)) by lia.
    unfold bind, gum_memory_free, bind. unfold ps.
    rewrite munmap_pages by (assumption || lia).
    cbn [ret]. fold ps.
    replace ((m + S) * ps - S * ps) with (m * ps) by lia.
    rewrite wrap64_small by lia.
    eexists. split; reflexivity.
Qed.

Lemma over_allocation_pages m E :
  0 <= m -> 1 <= E -> (m + E) * ps <= 2 ^ 64 ->
  over_allocation (m * ps) (E * ps) ps = (m + E - 1) * ps.
Proof.
  intros Hm HE Hfit. pose proof (page_size_bounds K Hok) as Hps.
  fold ps in Hps. unfold over_allocation, alignment_slack.
  rewrite (wrap64_small (E * ps - ps)) by nia.
  rewrite (wrap64_small (m * ps + (E * ps - ps))) by nia.
  assert (0 <= m * ps) by nia. assert (ps <= E * ps) by nia.
  pose proof (round_up_page K Hok (m * ps + (E * ps - ps)) ltac:(lia)) as Hr.
  fold ps in Hr. rewrite Hr.
  replace (m * ps + (E * ps - ps) + (ps - 1))
    with (ps - 1 + (m + E - 1) * ps) by lia.
  rewrite (wrap64_small (ps - 1 + (m + E - 1) * ps)) by nia.
  rewrite Z.mod_add by lia. rewrite Z.mod_small by lia. lia.
Qed.

End RawAllocator.

Lemma mmap_anywhere_cases K hint len prot s :
  (mmap K hint len prot ANY_FLAGS s
   = Done MAP_FAILED
       (emit (SysMmap hint len prot ANY_FLAGS MAP_FAILED) (fail_with ENOMEM s)))
  \/ exists b,
       mmap K hint len prot ANY_FLAGS s
       = Done b
           (emit (SysMmap hint len prot ANY_FLAGS b)
              (with_pages
                 (map_pages (b / page_size K) (Z.to_nat (page_count K len))
                    (fresh_page prot) (pages s)) s))
       /\ 0 < len /\ b mod page_size K = 0 /\ 0 < b
       /\ b + page_count K len * page_size K <= 2 ^ 64
       /\ pages_free (b / page_size K) (Z.to_nat (page_count K len)) (pages s)
          = true.
Proof.
  destruct (mmap_cases K hint len prot ANY_FLAGS s)
    as [Hfail | (b & Hb & Hlen & Hal & Hnn & Hend & Hfree)].
  - left. exact Hfail.
  - right. exists b. change (negb (Z.land ANY_FLAGS MAP_FIXED =? 0)) with false in Hfree.
    cbv beta iota in Hfree. destruct Hfree as [Hpos Hfree].
    repeat split; assumption.
Qed.

Lemma mmap_fixed_cases K addr len prot s :
  (mmap K addr len prot FIXED_FLAGS s
   = Done MAP_FAILED
       (emit (SysMmap addr len prot FIXED_FLAGS MAP_FAILED) (fail_with ENOMEM s)))
  \/ (mmap K addr len prot FIXED_FLAGS s
      = Done addr
          (emit (SysMmap addr len prot FIXED_FLAGS addr)
             (with_pages
                (map_pages (addr / page_size K) (Z.to_nat (page_count K len))
                   (fresh_page prot) (pages s)) s))
      /\ 0 < len /\ addr mod page_size K = 0 /\ 0 <= addr
      /\ addr + page_count K len * page_size K <= 2 ^ 64
      /\ k_fixed K s addr len prot = true).
Proof.
  destruct (mmap_cases K addr len prot FIXED_FLAGS s)
    as [Hfail | (b & Hb & Hlen & Hal & Hnn & Hend & Hfix)].
  - left. exact Hfail.
  - right. change (negb (Z.land FIXED_FLAGS MAP_FIXED =? 0)) with true in Hfix.
    cbv beta iota in Hfix. destruct Hfix as [-> Hfix].
    repeat split; assumption.
Qed.

Section AlignedAllocation.

Variable K : Kernel.
Hypothesis Hok : page_bits_ok K.

Let ps := page_size K.

Lemma allocate_page_multiples hint m k page_prot s :
  page_bits K <= k < 64 -> 1 <= m -> m * ps + 2 ^ k <= 2 ^ 64 ->
  exists a s',
    gum_memory_allocate K hint (m * ps) (2 ^ k) page_prot s = Done a s'
    /\ ((a = NULL /\ pages s' = pages s)
        \/ allocated K s s' a m (_gum_page_protection_to_posix page_prot)
             (2 ^ k)).
Proof.
  intros Hk Hm Hfit. pose proof (page_size_bounds K Hok) as Hps. fold ps in Hps.
  assert (Hbits : 0 <= page_bits K) by (unfold page_bits_ok in Hok; lia).
  set (E := 2 ^ (k - page_bits K)).
  assert (HE : 1 <= E) by (pose proof (pow2_pos (k - page_bits K)); lia).
  assert (Hal : 2 ^ k = E * ps).
  { unfold E, ps, page_size. rewrite <- Z.pow_add_r by lia. f_equal. lia. }
  assert (Hover : over_allocation (m * ps) (2 ^ k) (gum_query_page_size K)
                  = (m + E - 1) * ps).
  { rewrite Hal. apply over_allocation_pages; [assumption | lia | lia | lia]. }
  unfold gum_memory_allocate. rewrite Hover.
  unfold gum_allocate_page_aligned. fold ANY_FLAGS.
  set (prot := _gum_page_protection_to_posix page_prot).
  set (h := GUM_ALIGN_POINTER hint (2 ^ k)).
  unfold bind at 1. unfold bind at 1.
  destruct (mmap_anywhere_cases K h ((m + E - 1) * ps) prot s)
    as [-> | (b & -> & Hlen & Hbal & Hbpos & Hbend & Hfree)].
  - unfold ret at 1. cbv beta iota.
    change (MAP_FAILED =? MAP_FAILED) with true. cbv beta iota delta [negb].
    change (NULL =? NULL) with true. cbv beta iota.
    eexists _, _. split; [reflexivity |]. left. split; reflexivity.
  - unfold ps in Hbend, Hfree. rewrite page_count_mul in Hbend, Hfree by assumption.
    fold ps in Hbend, Hfree.
    set (B := b / ps) in *.
    assert (HbB : b = B * ps) by (apply aligned_is_multiple; assumption).
    assert (HBpos : 0 < B) by nia.
    assert (Hm1 : ps <= m * ps) by nia.
    assert (HEp : ps <= E * ps) by nia.
    destruct (align_pointer_pow2 b k ltac:(lia) ltac:(lia) ltac:(lia))
      as [Hamod Harange].
    set (a := GUM_ALIGN_POINTER b (2 ^ k)) in *.
    assert (HaQ : a = (a / 2 ^ k * E) * ps).
    { pose proof (Z.div_mod a (2 ^ k)) as Hd.
      pose proof (pow2_pos k ltac:(lia)). lia. }
    set (P := a / 2 ^ k * E - B).
    assert (HaP : a = (B + P) * ps) by (unfold P; lia).
    assert (HP0 : 0 <= P) by nia.
    assert (HP1 : P <= E - 1) by nia.
    unfold ret at 1. cbv beta iota.
    replace (b =? MAP_FAILED) with false
      by (symmetry; apply Z.eqb_neq; unfold MAP_FAILED; lia).
    cbv beta iota delta [negb].
    replace (b =? NULL) with false
      by (symmetry; apply Z.eqb_neq; unfold NULL; lia).
    set (s1 := emit _ _).
    destruct (trim_prefix_pages K Hok B P ((m + E - 1) * ps) s1
                HBpos HP0 ltac:(fold ps; lia) ltac:(fold ps; nia))
      as (s2 & Hpre & Hpages2).
    fold ps in Hpre.
    destruct (trim_suffix_pages K Hok (B + P) m (E - 1 - P) s2
                ltac:(lia) ltac:(lia) ltac:(lia) ltac:(fold ps; lia))
      as (s3 & Hsuf & Hpages3).
    fold ps in Hsuf.
    replace ((m + E - 1) * ps - P * ps) with ((m + (E - 1 - P)) * ps)
      in Hpre by lia.
    rewrite <- HbB, <- HaP in Hpre. rewrite <- HaP in Hsuf.
    fold a. unfold bind. rewrite Hpre. rewrite Hsuf. rewrite Z.eqb_refl.
    unfold g_assert, ret.
    exists a, s3. split; [reflexivity |]. right.
    assert (Hadiv : a / ps = B + P).
    { rewrite HaP. apply Z.div_mul. lia. }
    unfold allocated. fold ps. rewrite Hadiv.
    split; [lia |]. split; [exact Hamod |].
    split; [rewrite HaP; apply Z.mod_mul; lia |].
    assert (HPE : P * ps <= (E - 1) * ps) by nia.
    split; [lia |].
    assert (Hwas : forall i, B <= i < B + (m + E - 1) -> pages s !! i = None).
    { intros i Hi. apply (pages_free_spec _ _ _ Hfree). lia. }
    split.
    + intros i Hi. apply Hwas. lia.
    + intros i. rewrite Hpages3, Hpages2. subst s1. cbn [pages emit with_pages].
      fold ps. rewrite (page_count_mul K Hok). change (b / ps) with B.
      rewrite !lookup_unmap_pages, lookup_map_pages.
      rewrite !Z2Nat.id by lia.
      repeat case_decide; try reflexivity; try lia;
        symmetry; apply Hwas; lia.
Qed.

(** Below the page size the two wrap-arounds of the over-allocation
    cancel on page multiples, and a page-aligned base is already
    aligned. *)
Lemma over_allocation_small m k :
  0 <= k < page_bits K -> 1 <= m -> m * ps + 2 ^ k <= 2 ^ 64 ->
  over_allocation (m * ps) (2 ^ k) ps = m * ps.
Proof.
  intros Hk Hm Hfit. pose proof (page_size_bounds K Hok) as Hps. fold ps in Hps.
  assert (Hlt : 0 < 2 ^ k < ps).
  { split; [apply pow2_pos; lia |].
    unfold ps, page_size. apply Z.pow_lt_mono_r; lia. }
  assert (Hm1 : ps <= m * ps) by nia.
  unfold over_allocation, alignment_slack.
  assert (Hslack : wrap64 (2 ^ k - ps) = 2 ^ 64 - (ps - 2 ^ k)).
  { unfold wrap64.
    replace (2 ^ k - ps) with (2 ^ 64 - (ps - 2 ^ k) + (-1) * 2 ^ 64) by lia.
    rewrite Z.mod_add by lia. apply Z.mod_small. lia. }
  rewrite Hslack.
  assert (Hsum : wrap64 (m * ps + (2 ^ 64 - (ps - 2 ^ k)))
                 = (m - 1) * ps + 2 ^ k).
  { unfold wrap64.
    replace (m * ps + (2 ^ 64 - (ps - 2 ^ k)))
      with ((m - 1) * ps + 2 ^ k + 1 * 2 ^ 64) by lia.
    rewrite Z.mod_add by lia. apply Z.mod_small. nia. }
  rewrite Hsum.
  pose proof (round_up_page K Hok ((m - 1) * ps + 2 ^ k) ltac:(nia)) as Hr.
  fold ps in Hr. rewrite Hr.
  replace ((m - 1) * ps + 2 ^ k + (ps - 1))
    with (2 ^ k - 1 + m * ps) by lia.
  rewrite (wrap64_small (2 ^ k - 1 + m * ps)) by lia.
  rewrite Z.mod_add by lia. rewrite Z.mod_small by lia. lia.
Qed.

Lemma allocate_page_multiples_small hint m k page_prot s :
  0 <= k < page_bits K -> 1 <= m -> m * ps + 2 ^ k <= 2 ^ 64 ->
  exists a s',
    gum_memory_allocate K hint (m * ps) (2 ^ k) page_prot s = Done a s'
    /\ ((a = NULL /\ pages s' = pages s)
        \/ allocated K s s' a m (_gum_page_protection_to_posix page_prot)
             (2 ^ k)).
Proof.
  intros Hk Hm Hfit. pose proof (page_size_bounds K Hok) as Hps. fold ps in Hps.
  assert (Hlt : 0 < 2 ^ k < ps).
  { split; [apply pow2_pos; lia |].
    unfold ps, page_size. apply Z.pow_lt_mono_r; lia. }
  assert (Hm1 : ps <= m * ps) by nia.
  unfold gum_memory_allocate, gum_query_page_size. fold ps.
  rewrite over_allocation_small by assumption.
  unfold gum_allocate_page_aligned. fold ANY_FLAGS.
  set (prot := _gum_page_protection_to_posix page_prot).
  set (h := GUM_ALIGN_POINTER hint (2 ^ k)).
  unfold bind at 1. unfold bind at 1.
  destruct (mmap_anywhere_cases K h (m * ps) prot s)
    as [-> | (b & -> & Hlen & Hbal & Hbpos & Hbend & Hfree)].
  - unfold ret at 1. cbv beta iota.
    change (MAP_FAILED =? MAP_FAILED) with true. cbv beta iota delta [negb].
    change (NULL =? NULL) with true. cbv beta iota.
    eexists _, _. split; [reflexivity |]. left. split; reflexivity.
  - unfold ps in Hbend, Hfree. rewrite page_count_mul in Hbend, Hfree by assumption.
    fold ps in Hbend, Hfree, Hbal.
    set (B := b / ps) in *.
    assert (HbB : b = B * ps) by (apply aligned_is_multiple; assumption).
    destruct (align_pointer_pow2 b k ltac:(unfold page_bits_ok in Hok; lia)
                ltac:(lia) ltac:(lia)) as [Hamod Harange].
    assert (Hbk : b mod 2 ^ k = 0).
    { rewrite HbB. unfold ps, page_size.
      replace (page_bits K) with (page_bits K - k + k) by lia.
      rewrite Z.pow_add_r by lia. rewrite Z.mul_assoc.
      apply Z.mod_mul. lia. }
    assert (Hsame : GUM_ALIGN_POINTER b (2 ^ k) = b).
    { pose proof (Z.div_mod (GUM_ALIGN_POINTER b (2 ^ k)) (2 ^ k)
                    ltac:(lia)) as Ha.
      pose proof (Z.div_mod b (2 ^ k) ltac:(lia)) as Hb.
      rewrite Hamod in Ha. rewrite Hbk in Hb.
      set (qa := GUM_ALIGN_POINTER b (2 ^ k) / 2 ^ k) in *.
      set (qb := b / 2 ^ k) in *.
      assert (qb <= qa) by (apply (Z.mul_le_mono_pos_l _ _ (2 ^ k)); lia).
      assert (qa < qb + 1) by (apply (Z.mul_lt_mono_pos_l (2 ^ k)); lia).
      replace qa with qb in Ha by lia. lia. }
    unfold ret at 1. cbv beta iota.
    replace (b =? MAP_FAILED) with false
      by (symmetry; apply Z.eqb_neq; unfold MAP_FAILED; lia).
    cbv beta iota delta [negb].
    replace (b =? NULL) with false
      by (symmetry; apply Z.eqb_neq; unfold NULL; lia).
    rewrite Hsame. unfold bind, trim_prefix, trim_suffix.
    rewrite !Z.eqb_refl. cbv beta iota delta [negb ret g_assert].
    rewrite !Z.eqb_refl. cbv beta iota.
    eexists _, _. split; [reflexivity |]. right.
    unfold allocated. fold ps. fold B.
    split; [lia |]. split; [exact Hbk |]. split; [exact Hbal |].
    split; [lia |].
    assert (Hwas : forall i, B <= i < B + m -> pages s !! i = None).
    { intros i Hi. apply (pages_free_spec _ _ _ Hfree). lia. }
    split; [exact Hwas |].
    intros i. cbn [pages emit with_pages].
    fold ps. rewrite (page_count_mul K Hok). fold B.
    rewrite lookup_map_pages, Z2Nat.id by lia. reflexivity.
Qed.

End AlignedAllocation.

(** ** The header page *)

Lemma posix_of_writable page_prot :
  Z.land page_prot GUM_PAGE_WRITE <> 0 ->
  Z.land (_gum_page_protection_to_posix page_prot) PROT_WRITE <> 0.
Proof.
  intros Hw. unfold _gum_page_protection_to_posix.
  destruct (Z.eqb_spec (Z.land page_prot GUM_PAGE_WRITE) 0); [contradiction |].
  destruct (Z.land page_prot GUM_PAGE_READ =? 0),
           (Z.land page_prot GUM_PAGE_EXECUTE =? 0); cbn; discriminate.
Qed.

Section HeaderPage.

Variable K : Kernel.
Hypothesis Hok : page_bits_ok K.

Let ps := page_size K.

Lemma gum_mprotect_page B page_prot s :
  is_Some (pages s !! B) ->
  exists s',
    gum_mprotect K (B * ps) ps page_prot s = Done tt s'
    /\ pages s'
       = alter (set_prot (_gum_page_protection_to_posix page_prot)) B (pages s)
    /\ exists e, is_mprotect e /\ trace s' = e :: trace s.
Proof.
  intros Hmapped. pose proof (page_size_bounds K Hok) as Hps. fold ps in Hps.
  unfold gum_mprotect, gum_query_page_size. fold ps.
  rewrite Z.mod_mul by lia.
  replace (B * ps + ps - 1 - (B * ps - 0)) with (ps - 1) by lia.
  rewrite (Z.div_small (ps - 1) ps) by lia.
  replace (B * ps - 0) with (B * ps) by lia.
  replace ((1 + 0) * ps) with (1 * ps) by lia.
  unfold bind, mprotect. subst ps.
  rewrite page_count_mul, page_number_mul, page_offset_mul by assumption.
  cbn [Z.eqb andb]. change (Z.to_nat 1) with 1%nat.
  cbn [pages_mapped protect_pages].
  destruct Hmapped as [pg ->]. eexists. split; [reflexivity |].
  split; [reflexivity |]. eexists. split; [| reflexivity]. exact I.
Qed.

Lemma write_header_page B total page_prot s :
  pages s !! B = Some (fresh_page (_gum_page_protection_to_posix page_prot)) ->
  exists s',
    write_header K (B * ps) ps total page_prot s = Done tt s'
    /\ (forall i,
          pages s' !! i
          = if decide (i = B) then Some (header_page total) else pages s !! i)
    /\ exists hdr, Forall is_mprotect hdr /\ trace s' = hdr ++ trace s.
Proof.
  intros Hpage. pose proof (page_size_bounds K Hok) as Hps. fold ps in Hps.
  unfold write_header.
  assert (Hstep : forall s1 prot1 hdr1,
            Z.land prot1 PROT_WRITE <> 0 ->
            pages s1 !! B = Some (fresh_page prot1) ->
            (forall i, i <> B -> pages s1 !! i = pages s !! i) ->
            Forall is_mprotect hdr1 -> trace s1 = hdr1 ++ trace s ->
            exists s',
              bind (store_gsize K (B * ps) total)
                   (fun _ => gum_mprotect K (B * ps) ps GUM_PAGE_READ) s1
              = Done tt s'
              /\ (forall i,
                    pages s' !! i
                    = if decide (i = B) then Some (header_page total)
                      else pages s !! i)
              /\ exists hdr, Forall is_mprotect hdr /\ trace s' = hdr ++ trace s).
  { intros s1 prot1 hdr1 Hw Hp1 Hrest Hhdr1 Htr1. unfold bind at 1.
    unfold store_gsize.
    pose proof (page_number_mul K Hok B) as Hnum.
    pose proof (page_offset_mul K Hok B) as Hoff.
    fold ps in Hnum, Hoff |- *. rewrite Hnum, Hoff.
    rewrite Hp1. cbn [pg_prot fresh_page pg_words].
    destruct (Z.eqb_spec (Z.land prot1 PROT_WRITE) 0) as [| _]; [contradiction |].
    set (s2 := with_pages _ s1).
    destruct (gum_mprotect_page B GUM_PAGE_READ s2)
      as (s3 & Hrun & Hpages3 & e & He & Htr3).
    { subst s2. cbn [pages with_pages]. rewrite lookup_insert_eq. eauto. }
    exists s3. split; [exact Hrun |]. split.
    - intros i. rewrite Hpages3. subst s2. cbn [pages with_pages].
      destruct (decide (i = B)) as [-> | Hi].
      + rewrite lookup_alter_eq, lookup_insert_eq. reflexivity.
      + rewrite lookup_alter_ne, lookup_insert_ne by congruence.
        apply Hrest. exact Hi.
    - exists (e :: hdr1). split; [constructor; assumption |].
      rewrite Htr3. subst s2. cbn [trace with_pages]. rewrite Htr1.
      reflexivity. }
  destruct (Z.eqb_spec (Z.land page_prot GUM_PAGE_WRITE) 0) as [Hro | Hrw].
  - destruct (gum_mprotect_page B GUM_PAGE_RW s)
      as (s1 & Hrun & Hpages1 & e & He & Htr1);
      [rewrite Hpage; eauto |].
    unfold bind at 1. rewrite Hrun.
    apply (Hstep s1 (_gum_page_protection_to_posix GUM_PAGE_RW) [e]).
    + cbn. discriminate.
    + rewrite Hpages1, lookup_alter_eq, Hpage. reflexivity.
    + intros i Hi. rewrite Hpages1. apply lookup_alter_ne. congruence.
    + constructor; [exact He | constructor].
    + rewrite Htr1. reflexivity.
  - unfold bind at 1. unfold ret at 1.
    apply (Hstep s (_gum_page_protection_to_posix page_prot) []).
    + apply posix_of_writable. exact Hrw.
    + exact Hpage.
    + reflexivity.
    + constructor.
    + reflexivity.
Qed.

End HeaderPage.

(** ** The sized page allocator *)

Section SizedPages.

Variable K : Kernel.
Hypothesis Hok : page_bits_ok K.

Let ps := page_size K.

Lemma allocate_nothing hint page_prot s :
  exists s',
    gum_memory_allocate K hint 0 ps page_prot s = Done NULL s'
    /\ pages s' = pages s.
Proof.
  pose proof (page_size_bounds K Hok) as Hps. fold ps in Hps.
  unfold gum_memory_allocate.
  pose proof (over_allocation_pages K Hok 0 1 ltac:(lia) ltac:(lia)
                ltac:(lia)) as Hover.
  fold ps in Hover.
  replace (0 * ps) with 0 in Hover by lia.
  replace (1 * ps) with ps in Hover by lia.
  replace ((0 + 1 - 1) * ps) with 0 in Hover by lia.
  unfold gum_query_page_size. fold ps. rewrite Hover.
  unfold gum_allocate_page_aligned. fold ANY_FLAGS.
  unfold bind at 1. unfold bind at 1.
  destruct (mmap_anywhere_cases K (GUM_ALIGN_POINTER hint ps) 0
              (_gum_page_protection_to_posix page_prot) s)
    as [-> | (b & _ & Hlen & _)]; [| lia].
  unfold ret at 1. cbv beta iota.
  change (MAP_FAILED =? MAP_FAILED) with true. cbv beta iota delta [negb].
  change (NULL =? NULL) with true. cbv beta iota.
  eexists. split; reflexivity.
Qed.

Lemma alloc_n_pages_run n page_prot s :
  1 <= n < 2 ^ 32 ->
  exists p s',
    gum_try_alloc_n_pages K n page_prot s = Done p s'
    /\ ((p = NULL /\ pages s' = pages s)
        \/ exists B,
             p = (B + 1) * ps
             /\ sized_allocation K s s' B n
                  (_gum_page_protection_to_posix page_prot)).
Proof.
  intros Hn. pose proof (page_size_bounds K Hok) as Hps. fold ps in Hps.
  unfold gum_try_alloc_n_pages, gum_query_page_size. fold ps.
  destruct (Z.eq_dec n (2 ^ 32 - 1)) as [-> | Hmax].
  - change (wrap32 (1 + (2 ^ 32 - 1))) with 0.
    change (wrap64 (0 * ps)) with 0.
    destruct (allocate_nothing NULL page_prot s) as (s1 & Hrun & Hpages).
    unfold bind. rewrite Hrun. change (NULL =? NULL) with true. cbv iota.
    exists NULL, s1. split; [reflexivity |]. left. split; [reflexivity | exact Hpages].
  - assert (Hw32 : wrap32 (1 + n) = n + 1).
    { unfold wrap32. rewrite Z.mod_small by lia. lia. }
    rewrite Hw32.
    assert (Hsz : 0 <= (n + 1) * ps < 2 ^ 64).
    { assert ((n + 1) * ps < 2 ^ 32 * 2 ^ 32) by nia. lia. }
    rewrite (wrap64_small ((n + 1) * ps)) by exact Hsz.
    assert (Hroom : (n + 1) * ps + ps <= 2 ^ 64).
    { assert ((n + 2) * ps <= 2 ^ 32 * 2 ^ 32) by nia. lia. }
    destruct (allocate_page_multiples K Hok NULL (n + 1) (page_bits K)
                page_prot s) as (a & s1 & Hrun & Hres).
    { unfold page_bits_ok in Hok. lia. }
    { lia. }
    { unfold ps, page_size in *. lia. }
    fold ps in Hrun. change (2 ^ page_bits K) with ps in Hrun.
    unfold bind at 1. rewrite Hrun.
    destruct Hres as [[-> Hpages] | Halloc].
    + change (NULL =? NULL) with true. cbv iota.
      exists NULL, s1. split; [reflexivity |]. left. split; [reflexivity | exact Hpages].
    + destruct Halloc as (Hapos & _ & Hamod & Haend & Hfree & Hnew).
      fold ps in Hamod, Haend, Hfree, Hnew.
      set (B := a / ps) in *.
      assert (HaB : a = B * ps) by (apply aligned_is_multiple; assumption).
      assert (HB : 0 < B) by nia.
      replace (a =? NULL) with false
        by (symmetry; apply Z.eqb_neq; unfold NULL; lia).
      destruct (write_header_page K Hok B ((n + 1) * ps) page_prot s1)
        as (s2 & Hhdr & Hpages2 & _).
      { rewrite Hnew. rewrite decide_True by lia. reflexivity. }
      fold ps in Hhdr. rewrite <- HaB in Hhdr.
      unfold bind. rewrite Hhdr. unfold ret.
      exists (wrap64 (a + ps)), s2. split; [reflexivity |]. right.
      exists B. split.
      * rewrite wrap64_small by nia. lia.
      * unfold sized_allocation. fold ps.
        split; [exact HB |]. split; [lia |].
        split; [intros i Hi; apply Hfree; lia |].
        intros i. rewrite Hpages2. unfold total_size. fold ps.
        case_decide; [reflexivity |].
        rewrite Hnew. repeat case_decide; try reflexivity; lia.
Qed.

End SizedPages.

(** ** The near-address search *)

Lemma near_step K d ctx s :
  gum_try_alloc_in_range_if_near_enough K d ctx s
  = match near_candidate (nc_size ctx) (nc_address_spec ctx) (range d) with
    | None => Done (true, ctx) s
    | Some b =>
        bind (mmap K b (nc_size ctx) (nc_posix_page_prot ctx) FIXED_FLAGS)
             (fun r => if r =? MAP_FAILED then ret (true, set_result ctx NULL)
                       else ret (false, set_result ctx r)) s
    end.
Proof.
  unfold gum_try_alloc_in_range_if_near_enough, near_candidate.
  destruct (size (range d) <? nc_size ctx); [reflexivity |].
  destruct (max_distance (nc_address_spec ctx)
            <? near_distance (near_address (nc_address_spec ctx))
                 (base_address (range d))) eqn:Hfar.
  - destruct (max_distance (nc_address_spec ctx)
              <? near_distance (near_address (nc_address_spec ctx))
                   (wrap64 (base_address (range d) + size (range d)
                            - nc_size ctx)));
      reflexivity.
  - rewrite Hfar. reflexivity.
Qed.

Lemma near_candidate_inside required spec r b :
  0 <= required -> 0 < base_address r ->
  base_address r + size r < 2 ^ 64 ->
  near_candidate required spec r = Some b ->
  base_address r <= b /\ b + required <= base_address r + size r
  /\ near_distance (near_address spec) b <= max_distance spec.
Proof.
  intros Hreq Hbase Hend. unfold near_candidate.
  destruct (Z.ltb_spec (size r) required) as [| Hfits]; [discriminate |].
  destruct (Z.ltb_spec (max_distance spec)
              (near_distance (near_address spec) (base_address r)))
    as [Hfar | Hnear].
  - rewrite (wrap64_small (base_address r + size r - required)) by lia.
    destruct (Z.ltb_spec (max_distance spec)
                (near_distance (near_address spec)
                   (base_address r + size r - required)))
      as [| Hnear]; [discriminate |].
    intros [= <-]. lia.
  - intros [= <-]. lia.
Qed.

Lemma gaps_between_inside rs :
  ascending rs = true ->
  Forall (fun g => 0 < base_address (range g)
                   /\ base_address (range g) + size (range g) < 2 ^ 64)
         (gaps_between rs).
Proof.
  induction rs as [| a rest IH]; intros Hasc; [constructor |].
  destruct rest as [| b rest]; [constructor |].
  rewrite gaps_between_cons.
  cbn [ascending] in Hasc. unfold range_end in Hasc.
  apply andb_prop in Hasc as [Hasc Hrest].
  specialize (IH Hrest). unbool.
  unfold gap_of_pair, range_end.
  destruct (Z.ltb_spec (base_address (range a) + size (range a))
              (base_address (range b))); [| exact IH].
  constructor; [| exact IH]. cbn. lia.
Qed.

Section NearSearch.

Variable K : Kernel.
Hypothesis Hok : page_bits_ok K.

Let ps := page_size K.

Lemma near_search gaps : forall ctx s,
  exists ctx' s',
    enumerate_list gaps (gum_try_alloc_in_range_if_near_enough K) ctx s
    = Done ctx' s'
    /\ nc_size ctx' = nc_size ctx
    /\ ((nc_result ctx = NULL -> search_missed ctx ctx' s s' gaps)
        \/ exists pre b, search_claimed K ctx ctx' s s' gaps pre b).
Proof.
  pose proof (page_size_bounds K Hok) as Hps. fold ps in Hps.
  induction gaps as [| d rest IH]; intros ctx s.
  - exists ctx, s. split; [reflexivity |]. split; [reflexivity |].
    left. intros Hnull. repeat split; assumption.
  - cbn [enumerate_list]. unfold bind at 1. rewrite near_step.
    unfold near_candidates. cbn [omap list_omap].
    fold (near_candidates (nc_size ctx) (nc_address_spec ctx) rest).
    unfold search_missed, search_claimed, near_candidates.
    cbn [omap list_omap].
    fold (near_candidates (nc_size ctx) (nc_address_spec ctx) rest).
    destruct (near_candidate (nc_size ctx) (nc_address_spec ctx) (range d))
      as [b |] eqn:Hcand.
    + unfold bind at 1.
      destruct (mmap_fixed_cases K b (nc_size ctx) (nc_posix_page_prot ctx) s)
        as [-> | (-> & Hlen & Hal & Hnn & Hend & _)].
      * change (MAP_FAILED =? MAP_FAILED) with true. cbv iota. unfold ret at 1.
        destruct (IH (set_result ctx NULL)
                    (emit (missed (nc_size ctx) (nc_posix_page_prot ctx) b)
                       (fail_with ENOMEM s)))
          as (ctx' & s' & Hrun & Hsize & Hres).
        fold (missed (nc_size ctx) (nc_posix_page_prot ctx) b).
        rewrite Hrun. exists ctx', s'. split; [reflexivity |].
        split; [exact Hsize |].
        destruct Hres as [Hmiss | (pre & b' & (post & Hpost) & Hb' & Htr & Hrest)].
        -- left. intros _. destruct (Hmiss eq_refl) as (Hr & Hp & Htr).
           cbn [set_result nc_size nc_posix_page_prot nc_address_spec
                pages trace emit fail_with] in *.
           split; [exact Hr |]. split; [exact Hp |].
           rewrite Htr. cbn [map rev]. rewrite <- app_assoc. reflexivity.
        -- right. exists (b :: pre), b'.
           cbn [set_result nc_size nc_posix_page_prot nc_address_spec
                pages trace emit fail_with] in *.
           split; [exists post; rewrite Hpost; reflexivity |].
           split; [exact Hb' |].
           split; [| exact Hrest].
           rewrite Htr. cbn [map rev]. rewrite <- app_assoc. reflexivity.
      * replace (b =? MAP_FAILED) with false.
        2: { symmetry. apply Z.eqb_neq. intros ->.
             exact (map_failed_unaligned K Hok Hal). }
        unfold ret at 1.
        exists (set_result ctx b). eexists. split; [reflexivity |].
        split; [reflexivity |]. right. exists [], b.
        cbn [set_result nc_size nc_posix_page_prot nc_address_spec nc_result
             pages trace emit fail_with with_pages map rev app].
        fold ps in Hal, Hend.
        repeat split; try assumption. eexists. reflexivity.
    + exact (IH ctx s).
Qed.

End NearSearch.

(** ** The near-address allocator *)

Section NearAllocator.

Variable K : Kernel.
Hypothesis Hok : page_bits_ok K.

Let ps := page_size K.

Lemma near_required_range n : 0 <= near_required K n < 2 ^ 64.
Proof. apply wrap64_range. Qed.

Lemma near_required_total n :
  0 <= n < 2 ^ 32 -> 0 < near_required K n ->
  near_required K n = total_size K n /\ n + 1 < 2 ^ 32.
Proof.
  intros Hn Hpos. pose proof (page_size_bounds K Hok) as Hps. fold ps in Hps.
  unfold near_required, total_size in *. fold ps in Hpos |- *.
  destruct (Z.eq_dec n (2 ^ 32 - 1)) as [-> | Hmax].
  - exfalso. change (wrap32 (1 + (2 ^ 32 - 1))) with 0 in Hpos.
    change (wrap64 (0 * ps)) with 0 in Hpos. lia.
  - unfold wrap32. rewrite (Z.mod_small (1 + n)) by lia.
    assert ((1 + n) * ps < 2 ^ 32 * 2 ^ 32) by nia.
    rewrite wrap64_small by lia. lia.
Qed.

Lemma near_run_any n page_prot spec s :
  1 <= n < 2 ^ 32 ->
  let gaps := scanned_gaps 0 (k_ranges K s) in
  exists p s',
    gum_try_alloc_n_pages_near K n page_prot spec s = Done p s'
    /\ ((p = NULL
         /\ (near_missed K gaps s s' n page_prot spec
             \/ 0 ∈ near_candidates (near_required K n) spec gaps))
        \/ exists pre B, near_claimed K gaps s s' n page_prot spec p pre B).
Proof.
  intros Hn gaps. pose proof (page_size_bounds K Hok) as Hps. fold ps in Hps.
  unfold gum_try_alloc_n_pages_near, gum_query_page_size. fold ps.
  change (wrap64 (wrap32 (1 + n) * ps)) with (near_required K n).
  set (pp := _gum_page_protection_to_posix page_prot).
  set (ctx0 := {| nc_result := NULL; nc_size := near_required K n;
                  nc_posix_page_prot := pp; nc_address_spec := spec |}).
  unfold bind at 1. rewrite scan_emits. fold gaps.
  destruct (near_search K Hok gaps ctx0 s)
    as (ctx' & s1 & -> & Hsize & Hres).
  cbn [nc_size ctx0] in Hsize.
  destruct Hres as [Hmiss | (pre & b & (post & Hpost) & Hb & Htr & Hpages
                              & Hlen & Hal & Hnn & Hend)].
  - destruct (Hmiss eq_refl) as (Hr & Hp & Htr).
    rewrite Hr. change (NULL =? NULL) with true. cbv iota.
    exists NULL, s1. split; [reflexivity |]. left.
    split; [reflexivity |]. left. split; [exact Hp | exact Htr].
  - cbn [nc_size nc_posix_page_prot nc_address_spec ctx0] in *.
    assert (Hin : b ∈ near_candidates (near_required K n) spec gaps).
    { rewrite Hpost. apply elem_of_app. right. apply elem_of_cons. left.
      reflexivity. }
    rewrite Hb.
    destruct (Z.eq_dec b 0) as [-> | Hbne].
    { change (0 =? NULL) with true. cbv iota.
      exists NULL, s1. split; [reflexivity |]. left.
      split; [reflexivity |]. right. exact Hin. }
    destruct (near_required_total n ltac:(lia) Hlen) as [Htotal Hn1].
    fold ps in Hal, Hend.
    assert (Hcount : page_count K (near_required K n) = n + 1).
    { rewrite Htotal. unfold total_size. apply page_count_mul. exact Hok. }
    rewrite Hcount in Hpages, Hend. fold ps in Hpages.
    set (B := b / ps) in *.
    assert (HbB : b = B * ps) by (apply aligned_is_multiple; assumption).
    assert (HB : 0 < B) by nia.
    replace (b =? NULL) with false
      by (symmetry; apply Z.eqb_neq; unfold NULL; lia).
    destruct (write_header_page K Hok B (nc_size ctx') page_prot s1)
      as (s2 & Hhdr & Hpages2 & hdr & Hmp & Htr2).
    { rewrite Hpages, lookup_map_pages. rewrite decide_True; [reflexivity |].
      rewrite Z2Nat.id by lia. lia. }
    fold ps in Hhdr. rewrite <- HbB in Hhdr.
    unfold bind. rewrite Hhdr. unfold ret.
    exists (wrap64 (b + ps)), s2. split; [reflexivity |]. right.
    exists pre, B. unfold near_claimed. fold pp. fold ps. cbv zeta.
    rewrite <- HbB.
    split; [exists post; exact Hpost |].
    split; [exact HB |].
    split; [rewrite wrap64_small by nia; lia |].
    split; [exact Htotal |].
    split; [lia |].
    split.
    + exists hdr. split; [exact Hmp |]. rewrite Htr2, Htr. reflexivity.
    + intros i. rewrite Hpages2. rewrite Hsize, Htotal.
      case_decide; [reflexivity |].
      rewrite Hpages, lookup_map_pages. rewrite Z2Nat.id by lia.
      repeat case_decide; try reflexivity; lia.
Qed.

Lemma near_run n page_prot spec s :
  1 <= n < 2 ^ 32 ->
  ascending (k_ranges K s) = true ->
  let gaps := gaps_between (k_ranges K s) in
  exists p s',
    gum_try_alloc_n_pages_near K n page_prot spec s = Done p s'
    /\ ((p = NULL /\ near_missed K gaps s s' n page_prot spec)
        \/ exists pre B, near_claimed K gaps s s' n page_prot spec p pre B).
Proof.
  intros Hn Hasc gaps.
  destruct (near_run_any n page_prot spec s Hn) as (p & s' & Hrun & Hres).
  rewrite (scanned_gaps_between _ Hasc) in Hres. fold gaps in Hres.
  exists p, s'. split; [exact Hrun |].
  destruct Hres as [[Hnull [Hmiss | Hzero]] | Hclaimed].
  - left. split; assumption.
  - exfalso. apply list_elem_of_omap in Hzero as (g & Hg & Hcand).
    pose proof (gaps_between_inside _ Hasc) as Hall.
    rewrite Forall_forall in Hall. destruct (Hall g Hg) as [Hg1 Hg2].
    pose proof (near_required_range n) as Hreq.
    destruct (near_candidate_inside _ _ _ _ (proj1 Hreq) Hg1 Hg2 Hcand)
      as (Hlo & _). lia.
  - right. exact Hclaimed.
Qed.

End NearAllocator.

(** ** The address space by byte *)

Lemma page_in_range K (Hok : page_bits_ok K) B m x :
  B <= x / page_size K < B + m
  <-> B * page_size K <= x < (B + m) * page_size K.
Proof.
  pose proof (page_size_bounds K Hok) as Hps.
  pose proof (Z.div_mod x (page_size K) ltac:(lia)) as Hd.
  pose proof (Z.mod_pos_bound x (page_size K) ltac:(lia)) as Hm.
  split; intros H; nia.
Qed.

(** Between two 64-bit addresses the pointer difference of the search,
    read as [ptrdiff_t] and made positive, is the distance around the
    address circle. *)
Lemma near_distance_round a b :
  0 <= a < 2 ^ 64 -> 0 <= b < 2 ^ 64 ->
  near_distance a b = circular_distance a b.
Proof.
  intros Ha Hb. unfold near_distance, circular_distance, ABS, signed64.
  destruct (Z_lt_le_dec a b) as [Hlt | Hge].
  - assert (Hw : wrap64 (a - b) = 2 ^ 64 - (b - a)).
    { unfold wrap64.
      replace (a - b) with (2 ^ 64 - (b - a) + (-1) * 2 ^ 64) by lia.
      rewrite Z.mod_add by lia. apply Z.mod_small. lia. }
    rewrite Hw.
    destruct (Z.ltb_spec (2 ^ 64 - (b - a)) (2 ^ 63)).
    + destruct (Z.ltb_spec (2 ^ 64 - (b - a)) 0); [lia |].
      rewrite wrap64_small by lia. lia.
    + destruct (Z.ltb_spec (2 ^ 64 - (b - a) - 2 ^ 64) 0); [| lia].
      rewrite wrap64_small by lia. lia.
  - rewrite (wrap64_small (a - b)) by lia.
    destruct (Z.ltb_spec (a - b) (2 ^ 63)).
    + destruct (Z.ltb_spec (a - b) 0); [lia |].
      rewrite wrap64_small by lia. lia.
    + destruct (Z.ltb_spec (a - b - 2 ^ 64) 0); [| lia].
      rewrite wrap64_small by lia. lia.
Qed.

(** The candidate of a free range is its start when the start is within
    reach, else its end-aligned base, which then is within reach. *)
Lemma near_candidate_choice required spec r b :
  0 <= required -> 0 < base_address r ->
  base_address r + size r < 2 ^ 64 ->
  0 <= near_address spec < 2 ^ 64 ->
  near_candidate required spec r = Some b ->
  required <= size r
  /\ ((within_reach spec (base_address r) /\ b = base_address r)
      \/ (~ within_reach spec (base_address r)
          /\ b = end_aligned required r))
  /\ within_reach spec b.
Proof.
  intros Hreq Hbase Hend Htarget. unfold near_candidate, within_reach.
  destruct (Z.ltb_spec (size r) required) as [| Hfits]; [discriminate |].
  rewrite (near_distance_round (near_address spec) (base_address r))
    by lia.
  destruct (Z.ltb_spec (max_distance spec)
              (circular_distance (near_address spec) (base_address r)))
    as [Hfar | Hnear].
  - rewrite (wrap64_small (base_address r + size r - required)) by lia.
    rewrite (near_distance_round (near_address spec)
               (base_address r + size r - required)) by lia.
    destruct (Z.ltb_spec (max_distance spec)
                (circular_distance (near_address spec)
                   (base_address r + size r - required)))
      as [| Hnear]; [discriminate |].
    intros [= <-]. unfold end_aligned.
    split; [exact Hfits |]. split; [right; split; [lia | reflexivity] |].
    exact Hnear.
  - intros [= <-]. split; [exact Hfits |].
    split; [left; split; [exact Hnear | reflexivity] | exact Hnear].
Qed.

Lemma near_candidate_unreachable required spec r :
  0 <= required -> 0 < base_address r ->
  base_address r + size r < 2 ^ 64 ->
  0 <= near_address spec < 2 ^ 64 ->
  ~ gap_reachable required spec r -> near_candidate required spec r = None.
Proof.
  intros Hreq Hbase Hend Htarget Hno.
  destruct (near_candidate required spec r) as [b |] eqn:Hcand;
    [| reflexivity].
  exfalso. apply Hno.
  destruct (near_candidate_choice _ _ _ _ Hreq Hbase Hend Htarget Hcand)
    as (Hfits & [[Hnear _] | [_ ->]] & Hb).
  - split; [exact Hfits |]. left. exact Hnear.
  - split; [exact Hfits |]. right. exact Hb.
Qed.

(** On addresses below [2 ^ 63] the distance of the search is the plain
    absolute difference. *)
Lemma near_distance_plain a b :
  0 <= a < 2 ^ 63 -> 0 <= b < 2 ^ 63 -> near_distance a b = Z.abs (a - b).
Proof.
  intros Ha Hb. unfold near_distance, ABS, signed64.
  destruct (Z_lt_le_dec a b) as [Hlt | Hge].
  - assert (Hw : wrap64 (a - b) = 2 ^ 64 - (b - a)).
    { unfold wrap64.
      replace (a - b) with (2 ^ 64 - (b - a) + (-1) * 2 ^ 64) by lia.
      rewrite Z.mod_add by lia. apply Z.mod_small. lia. }
    rewrite Hw.
    destruct (Z.ltb_spec (2 ^ 64 - (b - a)) (2 ^ 63)); [lia |].
    destruct (Z.ltb_spec (2 ^ 64 - (b - a) - 2 ^ 64) 0); [| lia].
    rewrite wrap64_small by lia. lia.
  - rewrite (wrap64_small (a - b)) by lia.
    destruct (Z.ltb_spec (a - b) (2 ^ 63)); [| lia].
    destruct (Z.ltb_spec (a - b) 0); [lia |].
    rewrite wrap64_small by lia. lia.
Qed.

(** ** Properties of the sized page allocator *)

(** C3. For every [n >= 1] and every protection, [gum_try_alloc_n_pages]
    returns [NULL] or [base + page_size] for a region of exactly
    [(n + 1) * page_size] bytes that was free before the call and is
    mapped after it, nothing else changing: the returned address is
    page-aligned and the [n * page_size] bytes that follow it are mapped
    with the requested protection. *)
Theorem alloc_pages_returns_usable_pages K n page_prot s :
  page_bits_ok K -> 1 <= n < 2 ^ 32 ->
  exists p s',
    gum_try_alloc_n_pages K n page_prot s = Done p s'
    /\ (p = NULL
        \/ exists base,
             p = base + page_size K
             /\ 0 < base /\ base mod page_size K = 0
             /\ p mod page_size K = 0
             /\ base + (n + 1) * page_size K <= 2 ^ 64
             /\ (forall x, base <= x < base + (n + 1) * page_size K ->
                   page_at K s x = None /\ is_Some (page_at K s' x))
             /\ (forall x, ~ base <= x < base + (n + 1) * page_size K ->
                   page_at K s' x = page_at K s x)
             /\ (forall x, p <= x < p + n * page_size K ->
                   page_at K s' x
                   = Some (fresh_page (_gum_page_protection_to_posix page_prot)))).
Proof.
  intros Hok Hn. pose proof (page_size_bounds K Hok) as Hps.
  destruct (alloc_n_pages_run K Hok n page_prot s Hn)
    as (p & s' & Hrun & [[Hnull _] | (B & Hp & HB & Hend & Hfree & Hnew)]).
  - exists p, s'. split; [exact Hrun |]. left. exact Hnull.
  - exists p, s'. split; [exact Hrun |]. right. exists (B * page_size K).
    split; [lia |]. split; [nia |].
    split; [apply Z.mod_mul; lia |].
    split; [rewrite Hp; apply Z.mod_mul; lia |].
    split; [lia |].
    split; [| split].
    + intros x Hx. unfold page_at.
      assert (Hi : B <= x / page_size K < B + (n + 1))
        by (apply page_in_range; [exact Hok | lia]).
      split; [apply Hfree; lia |].
      rewrite Hnew. repeat case_decide; eauto; lia.
    + intros x Hx. unfold page_at.
      assert (Hi : ~ B <= x / page_size K < B + (n + 1)).
      { intros Hi. apply Hx. apply page_in_range in Hi; [lia | exact Hok]. }
      rewrite Hnew. repeat case_decide; try reflexivity; lia.
    + intros x Hx. unfold page_at.
      assert (Hi : B + 1 <= x / page_size K < B + 1 + n)
        by (apply page_in_range; [exact Hok | lia]).
      rewrite Hnew. repeat case_decide; try reflexivity; lia.
Qed.

Lemma alloc_pages_example :
  page_bits_ok demo_kernel /\ 1 <= 3 < 2 ^ 32
  /\ exists p s',
       gum_try_alloc_n_pages demo_kernel 3 GUM_PAGE_READ boot = Done p s'
       /\ (p = NULL
           \/ exists base,
                p = base + page_size demo_kernel
                /\ 0 < base /\ base mod page_size demo_kernel = 0
                /\ p mod page_size demo_kernel = 0
                /\ base + (3 + 1) * page_size demo_kernel <= 2 ^ 64
                /\ (forall x, base <= x < base + (3 + 1) * page_size demo_kernel ->
                      page_at demo_kernel boot x = None
                      /\ is_Some (page_at demo_kernel s' x))
                /\ (forall x, ~ base <= x < base + (3 + 1) * page_size demo_kernel ->
                      page_at demo_kernel s' x = page_at demo_kernel boot x)
                /\ (forall x, p <= x < p + 3 * page_size demo_kernel ->
                      page_at demo_kernel s' x
                      = Some (fresh_page
                                (_gum_page_protection_to_posix GUM_PAGE_READ)))).
Proof.
  assert (Hok : page_bits_ok demo_kernel) by (unfold page_bits_ok; simpl; lia).
  assert (Hn : 1 <= 3 < 2 ^ 32) by lia.
  split; [exact Hok |]. split; [exact Hn |].
  exact (alloc_pages_returns_usable_pages demo_kernel 3 GUM_PAGE_READ boot Hok Hn).
Defined.

(** C5. Round trip: after a successful [gum_try_alloc_n_pages] returning
    [p], the header word at [p - page_size] is the total size
    [(n + 1) * page_size]; [gum_free_pages p] reads it and issues one
    [munmap] of exactly [p - page_size, p - page_size + size), which
    succeeds, and the page table is again what it was before the
    allocation. *)
Theorem free_pages_round_trip K n page_prot s :
  page_bits_ok K -> 1 <= n < 2 ^ 32 ->
  exists p s',
    gum_try_alloc_n_pages K n page_prot s = Done p s'
    /\ (p = NULL
        \/ (load_gsize K (p - page_size K) s' = Done (total_size K n) s'
            /\ exists s'',
                 gum_free_pages K p s' = Done tt s''
                 /\ trace s''
                    = SysMunmap (p - page_size K) (total_size K n) 0 :: trace s'
                 /\ (forall x,
                       page_at K s'' x
                       = if decide (p - page_size K <= x
                                    < p - page_size K + total_size K n)
                         then None else page_at K s' x)
                 /\ pages s'' = pages s)).
Proof.
  intros Hok Hn. pose proof (page_size_bounds K Hok) as Hps.
  destruct (alloc_n_pages_run K Hok n page_prot s Hn)
    as (p & s' & Hrun & [[Hnull _] | (B & Hp & HB & Hend & Hfree & Hnew)]).
  - exists p, s'. split; [exact Hrun |]. left. exact Hnull.
  - exists p, s'. split; [exact Hrun |]. right.
    assert (Hstart : p - page_size K = B * page_size K) by lia.
    assert (Hload : load_gsize K (B * page_size K) s'
                    = Done (total_size K n) s').
    { unfold load_gsize.
      rewrite page_number_mul, page_offset_mul by exact Hok.
      rewrite Hnew, decide_True by reflexivity.
      cbn [header_page pg_prot pg_words].
      change (Z.land PROT_READ PROT_READ =? 0) with false. cbv iota.
      rewrite lookup_singleton_eq. reflexivity. }
    rewrite Hstart. split; [exact Hload |].
    unfold gum_free_pages, gum_query_page_size.
    assert (Hwrap : wrap64 (p - page_size K) = B * page_size K)
      by (rewrite Hstart; apply wrap64_small; nia).
    rewrite Hwrap. unfold bind at 1. rewrite Hload.
    unfold gum_memory_release, gum_memory_free, bind, total_size.
    rewrite munmap_pages by (assumption || lia).
    unfold ret. eexists. split; [reflexivity |].
    cbn [trace pages emit with_pages].
    split; [reflexivity |].
    assert (Hlook : forall i,
              unmap_pages B (Z.to_nat (n + 1)) (pages s') !! i
              = if decide (B <= i < B + (n + 1)) then None else pages s' !! i).
    { intros i. rewrite lookup_unmap_pages, Z2Nat.id by lia. reflexivity. }
    split.
    + intros x. unfold page_at. cbn [pages]. rewrite Hlook.
      pose proof (page_in_range K Hok B (n + 1) x) as Hiff.
      repeat case_decide; try reflexivity; lia.
    + apply map_eq. intros i. rewrite Hlook, Hnew.
      repeat case_decide; try reflexivity; try lia.
      symmetry. apply Hfree. lia.
Qed.

Lemma free_pages_example :
  page_bits_ok demo_kernel /\ 1 <= 3 < 2 ^ 32
  /\ exists p s',
       gum_try_alloc_n_pages demo_kernel 3 GUM_PAGE_RW boot = Done p s'
       /\ (p = NULL
           \/ (load_gsize demo_kernel (p - page_size demo_kernel) s'
               = Done (total_size demo_kernel 3) s'
               /\ exists s'',
                    gum_free_pages demo_kernel p s' = Done tt s''
                    /\ trace s''
                       = SysMunmap (p - page_size demo_kernel)
                           (total_size demo_kernel 3) 0 :: trace s'
                    /\ (forall x,
                          page_at demo_kernel s'' x
                          = if decide (p - page_size demo_kernel <= x
                                       < p - page_size demo_kernel
                                         + total_size demo_kernel 3)
                            then None else page_at demo_kernel s' x)
                    /\ pages s'' = pages boot)).
Proof.
  assert (Hok : page_bits_ok demo_kernel) by (unfold page_bits_ok; simpl; lia).
  assert (Hn : 1 <= 3 < 2 ^ 32) by lia.
  split; [exact Hok |]. split; [exact Hn |].
  exact (free_pages_round_trip demo_kernel 3 GUM_PAGE_RW boot Hok Hn).
Defined.

(** The end-to-end scenario of section 8 on the example machine: three
    read-write pages at [A = 0x11000], backed by [0x10000, 0x14000);
    freeing [A] unmaps exactly those 16384 bytes. *)
Example alloc_free_end_to_end :
  exists s' s'',
    gum_try_alloc_n_pages demo_kernel 3 GUM_PAGE_RW boot = Done 69632 s'
    /\ page_at demo_kernel s' 65536 = Some (header_page 16384)
    /\ gum_free_pages demo_kernel 69632 s' = Done tt s''
    /\ trace s''
       = [SysMunmap 65536 16384 0; SysMprotect 65536 4096 PROT_READ 0;
          SysMmap 0 16384 3 ANY_FLAGS 65536]
    /\ pages s'' = ∅.
Proof.
  eexists _, _. split; [vm_compute; reflexivity |].
  split; [vm_compute; reflexivity |].
  split; [vm_compute; reflexivity |].
  split; vm_compute; reflexivity.
Qed.

(** A read-only request: the header page is made writable for the store
    and then locked. *)
Example alloc_read_only_run :
  exists s',
    gum_try_alloc_n_pages demo_kernel 3 GUM_PAGE_READ boot = Done 69632 s'
    /\ trace s'
       = [SysMprotect 65536 4096 PROT_READ 0; SysMprotect 65536 4096 3 0;
          SysMmap 0 16384 PROT_READ ANY_FLAGS 65536]
    /\ page_at demo_kernel s' 65536 = Some (header_page 16384)
    /\ page_at demo_kernel s' 69632 = Some (fresh_page PROT_READ).
Proof.
  eexists. split; [vm_compute; reflexivity |].
  split; [vm_compute; reflexivity |].
  split; vm_compute; reflexivity.
Qed.

(** ** Properties of the hidden header *)

Lemma header_locked_intro K (Hok : page_bits_ok K) s s' B n page_prot :
  0 <= n ->
  (forall i,
     pages s' !! i
     = if decide (i = B) then Some (header_page (total_size K n))
       else if decide (B < i < B + n + 1)
            then Some (fresh_page (_gum_page_protection_to_posix page_prot))
            else pages s !! i) ->
  header_locked K s' ((B + 1) * page_size K) n page_prot.
Proof.
  intros Hn Hnew. pose proof (page_size_bounds K Hok) as Hps.
  unfold header_locked, page_at. split.
  - replace ((B + 1) * page_size K - page_size K) with (B * page_size K) by lia.
    rewrite page_number_mul by exact Hok.
    rewrite Hnew, decide_True by reflexivity. reflexivity.
  - intros x Hx.
    assert (Hi : B + 1 <= x / page_size K < B + 1 + n)
      by (apply page_in_range; [exact Hok | lia]).
    rewrite Hnew. repeat case_decide; try reflexivity; lia.
Qed.

(** C9. For every successful [gum_try_alloc_n_pages] and
    [gum_try_alloc_n_pages_near], whatever the requested protection, the
    total size is stored in the header page and the header page ends
    read-only, while the usable pages keep the requested protection. *)
Theorem header_page_is_read_only K n page_prot spec s :
  page_bits_ok K -> 1 <= n < 2 ^ 32 ->
  (exists p s',
     gum_try_alloc_n_pages K n page_prot s = Done p s'
     /\ (p = NULL \/ header_locked K s' p n page_prot))
  /\ (exists p s',
        gum_try_alloc_n_pages_near K n page_prot spec s = Done p s'
        /\ (p = NULL \/ header_locked K s' p n page_prot))
  /\ pg_prot (header_page (total_size K n)) = PROT_READ
  /\ pg_words (header_page (total_size K n)) !! 0 = Some (total_size K n).
Proof.
  intros Hok Hn. split; [| split; [| split]].
  - destruct (alloc_n_pages_run K Hok n page_prot s Hn)
      as (p & s' & Hrun & [[Hnull _] | (B & Hp & HB & Hend & Hfree & Hnew)]).
    + exists p, s'. split; [exact Hrun |]. left. exact Hnull.
    + exists p, s'. split; [exact Hrun |]. right. rewrite Hp.
      apply (header_locked_intro K Hok s); [lia | exact Hnew].
  - destruct (near_run_any K Hok n page_prot spec s Hn)
      as (p & s' & Hrun & [[Hnull _] | (pre & B & Hclaimed)]).
    + exists p, s'. split; [exact Hrun |]. left. exact Hnull.
    + exists p, s'. split; [exact Hrun |]. right.
      destruct Hclaimed as (_ & HB & Hp & _ & _ & _ & Hnew). rewrite Hp.
      apply (header_locked_intro K Hok s); [lia | exact Hnew].
  - reflexivity.
  - cbn [header_page pg_words]. apply lookup_singleton_eq.
Qed.

Lemma header_page_example :
  page_bits_ok demo_kernel /\ 1 <= 1 < 2 ^ 32
  /\ (exists p s',
        gum_try_alloc_n_pages demo_kernel 1 GUM_PAGE_RW boot = Done p s'
        /\ (p = NULL \/ header_locked demo_kernel s' p 1 GUM_PAGE_RW))
  /\ (exists p s',
        gum_try_alloc_n_pages_near demo_kernel 1 GUM_PAGE_RW near_demo_spec boot
        = Done p s'
        /\ (p = NULL \/ header_locked demo_kernel s' p 1 GUM_PAGE_RW)).
Proof.
  assert (Hok : page_bits_ok demo_kernel) by (unfold page_bits_ok; simpl; lia).
  assert (Hn : 1 <= 1 < 2 ^ 32) by lia.
  split; [exact Hok |]. split; [exact Hn |].
  pose proof (header_page_is_read_only demo_kernel 1 GUM_PAGE_RW near_demo_spec
                boot Hok Hn) as (H1 & H2 & _).
  split; [exact H1 | exact H2].
Defined.

(** ** Properties of the near-address allocator *)

(** C7. A fixed-address mapping refused at an accepted candidate is not
    reported: [gum_try_alloc_n_pages_near] always returns, and it returns
    [NULL] only after every candidate of every gap was tried and refused;
    otherwise the candidates refused before the first granted one were
    passed over and the granted one is returned. *)
Theorem near_absorbs_refused_mappings K n page_prot spec s :
  page_bits_ok K -> 1 <= n < 2 ^ 32 ->
  ascending (k_ranges K s) = true ->
  exists p s',
    gum_try_alloc_n_pages_near K n page_prot spec s = Done p s'
    /\ (p = NULL ->
        near_missed K (gaps_between (k_ranges K s)) s s' n page_prot spec)
    /\ (p <> NULL ->
        exists pre B,
          near_claimed K (gaps_between (k_ranges K s)) s s' n page_prot spec
            p pre B).
Proof.
  intros Hok Hn Hasc. pose proof (page_size_bounds K Hok) as Hps.
  destruct (near_run K Hok n page_prot spec s Hn Hasc)
    as (p & s' & Hrun & [[Hnull Hmiss] | (pre & B & Hclaimed)]).
  - exists p, s'. split; [exact Hrun |]. split; [intros _; exact Hmiss |].
    intros Hne. contradiction.
  - exists p, s'. split; [exact Hrun |]. split.
    + intros Hnull. exfalso. destruct Hclaimed as (_ & HB & Hp & _).
      unfold NULL in Hnull. nia.
    + intros _. exists pre, B. exact Hclaimed.
Qed.

Lemma near_absorbs_example :
  page_bits_ok racy_kernel /\ 1 <= 1 < 2 ^ 32
  /\ ascending (k_ranges racy_kernel boot) = true
  /\ exists p s',
       gum_try_alloc_n_pages_near racy_kernel 1 GUM_PAGE_READ racy_demo_spec boot
       = Done p s'
       /\ (p = NULL ->
           near_missed racy_kernel (gaps_between (k_ranges racy_kernel boot))
             boot s' 1 GUM_PAGE_READ racy_demo_spec)
       /\ (p <> NULL ->
           exists pre B,
             near_claimed racy_kernel (gaps_between (k_ranges racy_kernel boot))
               boot s' 1 GUM_PAGE_READ racy_demo_spec p pre B).
Proof.
  assert (Hok : page_bits_ok racy_kernel) by (unfold page_bits_ok; simpl; lia).
  assert (Hn : 1 <= 1 < 2 ^ 32) by lia.
  split; [exact Hok |]. split; [exact Hn |]. split; [reflexivity |].
  exact (near_absorbs_refused_mappings racy_kernel 1 GUM_PAGE_READ racy_demo_spec
           boot Hok Hn eq_refl).
Defined.

(** The racy machine: the first candidate is refused, the second gap's
    candidate is granted and returned. *)
Example near_absorbs_run :
  exists s',
    gum_try_alloc_n_pages_near racy_kernel 1 GUM_PAGE_READ racy_demo_spec boot
    = Done 266240 s'
    /\ trace s'
       = [SysMprotect 262144 4096 1 0; SysMprotect 262144 4096 3 0;
          claimed 8192 1 262144; missed 8192 1 131072].
Proof. eexists. split; vm_compute; reflexivity. Qed.

(** C1 (as the code has it). For every successful
    [gum_try_alloc_n_pages_near] returning [p], the base of the mapped
    region, [p - page_size] (the hidden header page), is the start of a
    free gap of at least [n + 1] pages when that start is within reach
    of the target, else the end-aligned base of the gap; the whole
    region lies inside the gap; and the distance from that base to the
    target, taken around the 64-bit address circle, is at most
    [max_distance]: the plain distance [|target - base|] is, whenever it
    does not exceed [2 ^ 63].  When no free gap meets the size
    requirement with its start or its end-aligned base within reach, the
    call returns [NULL]. *)
Theorem near_allocation_base_within_distance K n page_prot spec s :
  page_bits_ok K -> 1 <= n < 2 ^ 32 ->
  ascending (k_ranges K s) = true ->
  0 <= near_address spec < 2 ^ 64 ->
  exists p s',
    gum_try_alloc_n_pages_near K n page_prot spec s = Done p s'
    /\ (p <> NULL ->
        exists g,
          g ∈ gaps_between (k_ranges K s)
          /\ total_size K n <= size (range g)
          /\ ((within_reach spec (base_address (range g))
               /\ p - page_size K = base_address (range g))
              \/ (~ within_reach spec (base_address (range g))
                  /\ p - page_size K
                     = end_aligned (total_size K n) (range g)))
          /\ base_address (range g) <= p - page_size K
          /\ p - page_size K + total_size K n
             <= base_address (range g) + size (range g)
          /\ circular_distance (near_address spec) (p - page_size K)
             <= max_distance spec
          /\ (Z.abs (near_address spec - (p - page_size K)) <= 2 ^ 63 ->
              Z.abs (near_address spec - (p - page_size K))
              <= max_distance spec))
    /\ ((forall g, g ∈ gaps_between (k_ranges K s) ->
           ~ gap_reachable (total_size K n) spec (range g)) ->
        p = NULL).
Proof.
  intros Hok Hn Hasc Htarget. pose proof (page_size_bounds K Hok) as Hps.
  pose proof (gaps_between_inside _ Hasc) as Hall.
  rewrite Forall_forall in Hall.
  destruct (near_run K Hok n page_prot spec s Hn Hasc)
    as (p & s' & Hrun & [[Hnull Hmiss] | (pre & B & Hclaimed)]).
  - exists p, s'. split; [exact Hrun |]. split; [contradiction | auto].
  - exists p, s'. split; [exact Hrun |].
    destruct Hclaimed as ((post & Hpost) & HB & Hp & Htotal & Hend & _).
    assert (Hin : B * page_size K
                  ∈ near_candidates (near_required K n) spec
                      (gaps_between (k_ranges K s))).
    { rewrite Hpost. apply elem_of_app. right. apply elem_of_cons. left.
      reflexivity. }
    apply list_elem_of_omap in Hin as (g & Hg & Hcand).
    destruct (Hall g Hg) as [Hg1 Hg2].
    pose proof (near_required_range K n) as Hreq.
    rewrite Htotal in Hcand, Hreq.
    split.
    + intros _. exists g. split; [exact Hg |].
      destruct (near_candidate_choice _ _ _ _ (proj1 Hreq) Hg1 Hg2 Htarget
                  Hcand) as (Hfits & Hwhich & Hnear).
      replace (p - page_size K) with (B * page_size K) by lia.
      unfold within_reach, circular_distance in Hnear.
      split; [exact Hfits |]. split; [exact Hwhich |].
      unfold end_aligned in Hwhich.
      split; [destruct Hwhich as [[_ ->] | [_ ->]]; lia |].
      split; [destruct Hwhich as [[_ ->] | [_ ->]]; lia |].
      split; [exact Hnear | lia].
    + intros Hnone. exfalso.
      rewrite (near_candidate_unreachable _ _ _ (proj1 Hreq) Hg1 Hg2 Htarget
                 (Hnone g Hg)) in Hcand.
      discriminate.
Qed.

Lemma near_allocation_example :
  page_bits_ok demo_kernel /\ 1 <= 1 < 2 ^ 32
  /\ ascending (k_ranges demo_kernel boot) = true
  /\ 0 <= near_address near_demo_spec < 2 ^ 64
  /\ exists p s',
       gum_try_alloc_n_pages_near demo_kernel 1 GUM_PAGE_RW near_demo_spec boot
       = Done p s'
       /\ (p <> NULL ->
           exists g,
             g ∈ gaps_between (k_ranges demo_kernel boot)
             /\ total_size demo_kernel 1 <= size (range g)
             /\ ((within_reach near_demo_spec (base_address (range g))
                  /\ p - page_size demo_kernel = base_address (range g))
                 \/ (~ within_reach near_demo_spec (base_address (range g))
                     /\ p - page_size demo_kernel
                        = end_aligned (total_size demo_kernel 1) (range g)))
             /\ base_address (range g) <= p - page_size demo_kernel
             /\ p - page_size demo_kernel + total_size demo_kernel 1
                <= base_address (range g) + size (range g)
             /\ circular_distance (near_address near_demo_spec)
                  (p - page_size demo_kernel)
                <= max_distance near_demo_spec
             /\ (Z.abs (near_address near_demo_spec
                        - (p - page_size demo_kernel)) <= 2 ^ 63 ->
                 Z.abs (near_address near_demo_spec
                        - (p - page_size demo_kernel))
                 <= max_distance near_demo_spec))
       /\ ((forall g, g ∈ gaps_between (k_ranges demo_kernel boot) ->
              ~ gap_reachable (total_size demo_kernel 1) near_demo_spec
                  (range g)) ->
           p = NULL).
Proof.
  assert (Hok : page_bits_ok demo_kernel) by (unfold page_bits_ok; simpl; lia).
  assert (Hn : 1 <= 1 < 2 ^ 32) by lia.
  assert (Ht : 0 <= near_address near_demo_spec < 2 ^ 64) by (simpl; lia).
  split; [exact Hok |]. split; [exact Hn |]. split; [reflexivity |].
  split; [exact Ht |].
  exact (near_allocation_base_within_distance demo_kernel 1 GUM_PAGE_RW
           near_demo_spec boot Hok Hn eq_refl Ht).
Defined.

(** C1 as stated fails: with 4 KiB pages, target 0x20000, budget 256 and
    a free gap starting at the target, the region is mapped at the target
    and the pointer returned is one page above it; both the pointer and
    the end of its region are farther from the target than the budget. *)
Lemma near_pointer_beyond_distance :
  exists p s',
    gum_try_alloc_n_pages_near demo_kernel 1 GUM_PAGE_RW near_demo_spec boot
    = Done p s'
    /\ p <> NULL
    /\ max_distance near_demo_spec
       < near_distance (near_address near_demo_spec) p
    /\ max_distance near_demo_spec
       < Z.abs (near_address near_demo_spec - p)
    /\ max_distance near_demo_spec
       < near_distance (near_address near_demo_spec)
           (p + 1 * page_size demo_kernel)
    /\ max_distance near_demo_spec
       < Z.abs (near_address near_demo_spec - (p + 1 * page_size demo_kernel)).
Proof.
  eexists _, _. split; [vm_compute; reflexivity |].
  vm_compute. repeat split; discriminate.
Qed.

(** Why the distance is the one around the circle: with the target one
    page below the top of the address space and a budget of 69632, the
    gap at 0x10000 is accepted, its start being 69632 away the short way
    round and [2^64 - 69632] away in plain terms. *)
Example near_allocation_round_the_circle :
  exists p s',
    gum_try_alloc_n_pages_near
      (feed_kernel [occupied 4096 61440; occupied 131072 4096]) 1 GUM_PAGE_RW
      {| near_address := 2 ^ 64 - 4096; max_distance := 69632 |} boot
    = Done p s'
    /\ p - 4096 = 65536
    /\ circular_distance (2 ^ 64 - 4096) (p - 4096) = 69632
    /\ Z.abs (2 ^ 64 - 4096 - (p - 4096)) = 2 ^ 64 - 69632.
Proof.
  eexists _, _. split; [vm_compute; reflexivity |].
  repeat split; vm_compute; reflexivity.
Qed.

(** ** Properties of the alignment-aware raw allocator *)

(** C4 (as the code has it). For every power-of-two alignment and
    every size that is a positive multiple of the page size (size plus
    alignment within the address space), [gum_memory_allocate] returns
    [NULL], the page table unchanged, or an address [a] with
    [a mod alignment = 0] such that exactly the [size] bytes from [a],
    free before the call, are mapped by it with the requested protection,
    every other byte being as before: the prefix and the suffix of the
    over-allocation are unmapped again. *)
Theorem allocate_alignment_contract K hint size alignment page_prot s k :
  page_bits_ok K ->
  alignment = 2 ^ k -> 0 <= k < 64 ->
  0 < size -> size mod page_size K = 0 -> size + alignment <= 2 ^ 64 ->
  exists a s',
    gum_memory_allocate K hint size alignment page_prot s = Done a s'
    /\ ((a = NULL /\ pages s' = pages s)
        \/ (0 < a /\ a mod alignment = 0 /\ a + size <= 2 ^ 64
            /\ (forall x, a <= x < a + size -> page_at K s x = None)
            /\ (forall x,
                  page_at K s' x
                  = if decide (a <= x < a + size)
                    then Some (fresh_page
                                 (_gum_page_protection_to_posix page_prot))
                    else page_at K s x))).
Proof.
  intros Hok -> Hk Hsize Hmod Hfit. pose proof (page_size_bounds K Hok) as Hps.
  set (m := size / page_size K).
  assert (Hsz : size = m * page_size K)
    by (apply aligned_is_multiple; assumption).
  assert (Hm : 1 <= m) by nia.
  assert (Hrun : exists a s',
            gum_memory_allocate K hint (m * page_size K) (2 ^ k) page_prot s
            = Done a s'
            /\ ((a = NULL /\ pages s' = pages s)
                \/ allocated K s s' a m
                     (_gum_page_protection_to_posix page_prot) (2 ^ k))).
  { destruct (Z_lt_le_dec k (page_bits K)).
    - apply allocate_page_multiples_small; [exact Hok | lia | lia | lia].
    - apply allocate_page_multiples; [exact Hok | lia | lia | lia]. }
  destruct Hrun as (a & s' & Hrun & Hres).
  rewrite <- Hsz in Hrun. exists a, s'. split; [exact Hrun |].
  destruct Hres as [Hnull | (Hapos & Hamod & Hapage & Haend & Hfree & Hnew)];
    [left; exact Hnull | right].
  set (A := a / page_size K) in *.
  assert (HaA : a = A * page_size K)
    by (apply aligned_is_multiple; assumption).
  split; [exact Hapos |]. split; [exact Hamod |]. split; [lia |].
  pose proof (fun x => page_in_range K Hok A m x) as Hiff.
  split.
  - intros x Hx. unfold page_at. apply Hfree. apply Hiff. lia.
  - intros x. unfold page_at. rewrite Hnew. specialize (Hiff x).
    repeat case_decide; try reflexivity; lia.
Qed.

Lemma allocate_alignment_example :
  page_bits_ok demo_kernel
  /\ 65536 = 2 ^ 16 /\ 0 <= 16 < 64
  /\ 0 < 8192 /\ 8192 mod page_size demo_kernel = 0
  /\ 8192 + 65536 <= 2 ^ 64
  /\ exists a s',
       gum_memory_allocate demo_kernel NULL 8192 65536 GUM_PAGE_RW boot
       = Done a s'
       /\ ((a = NULL /\ pages s' = pages boot)
           \/ (0 < a /\ a mod 65536 = 0 /\ a + 8192 <= 2 ^ 64
               /\ (forall x, a <= x < a + 8192 -> page_at demo_kernel boot x = None)
               /\ (forall x,
                     page_at demo_kernel s' x
                     = if decide (a <= x < a + 8192)
                       then Some (fresh_page
                                    (_gum_page_protection_to_posix GUM_PAGE_RW))
                       else page_at demo_kernel boot x))).
Proof.
  assert (Hok : page_bits_ok demo_kernel) by (unfold page_bits_ok; simpl; lia).
  assert (Hk : 0 <= 16 < 64) by lia.
  split; [exact Hok |]. split; [reflexivity |]. split; [exact Hk |].
  split; [lia |]. split; [reflexivity |]. split; [lia |].
  exact (allocate_alignment_contract demo_kernel NULL 8192 65536 GUM_PAGE_RW
           boot 16 Hok eq_refl Hk ltac:(lia) eq_refl ltac:(lia)).
Defined.

(** C4 as stated fails: alignment 16 is a power of two and size 5000 is
    positive, yet with 4 KiB pages one page is requested and returned,
    so byte [a + 4096] of the [size] bytes from [a] is not mapped. *)
Lemma allocate_small_alignment_short :
  exists a s',
    gum_memory_allocate demo_kernel NULL 5000 16 GUM_PAGE_RW boot = Done a s'
    /\ a <> NULL /\ a mod 16 = 0
    /\ a <= a + 4096 < a + 5000
    /\ page_at demo_kernel s' (a + 4096) = None.
Proof.
  eexists _, _. split; [vm_compute; reflexivity |].
  vm_compute. repeat split; discriminate.
Qed.

(** A size that is not a multiple of the page size: the suffix release
    is refused for its unaligned address, and the page holding the
    [size] bytes stays mapped past [a + size]. *)
Lemma allocate_unaligned_size_keeps_slack :
  exists a s',
    gum_memory_allocate demo_kernel NULL 100 4096 GUM_PAGE_RW boot = Done a s'
    /\ a <> NULL
    /\ trace s' = [SysMunmap (a + 100) 3996 (-1);
                   SysMmap 0 4096 3 ANY_FLAGS a]
    /\ is_Some (page_at demo_kernel s' (a + 100)).
Proof.
  eexists _, _. split; [vm_compute; reflexivity |].
  split; [vm_compute; discriminate |].
  split; [vm_compute; reflexivity |].
  vm_compute. eauto.
Qed.

(** A size so large that the over-allocation wraps around: the suffix
    release then unmaps the whole mapping, and one page below it. *)
Lemma allocate_overflowing_size_unmaps :
  exists a s',
    gum_memory_allocate demo_kernel NULL (2 ^ 64 - 4096) 16384 GUM_PAGE_RW boot
    = Done a s'
    /\ a <> NULL
    /\ trace s' = [SysMunmap (a - 4096) 12288 0; SysMmap 0 8192 3 ANY_FLAGS a]
    /\ page_at demo_kernel s' a = None.
Proof.
  eexists _, _. split; [vm_compute; reflexivity |].
  split; [vm_compute; discriminate |].
  split; vm_compute; reflexivity.
Qed.

(** ** Alignments below the page size *)

Section SmallAlignment.

Variable K : Kernel.
Hypothesis Hok : page_bits_ok K.

Let ps := page_size K.

Lemma wrap64_mod_page x : wrap64 x mod ps = x mod ps.
Proof.
  pose proof (page_size_bounds K Hok) as Hps. fold ps in Hps.
  unfold wrap64. apply Z.mod_mod_divide.
  exists (2 ^ (64 - page_bits K)). unfold ps, page_size.
  rewrite <- Z.pow_add_r by (unfold page_bits_ok in Hok; lia).
  f_equal. lia.
Qed.

(** A page-aligned address is aligned to every smaller power of two. *)
Lemma align_pointer_below_page b k :
  0 <= k < page_bits K -> 0 <= b -> b mod ps = 0 -> b + 2 ^ k <= 2 ^ 64 ->
  b mod 2 ^ k = 0 /\ GUM_ALIGN_POINTER b (2 ^ k) = b.
Proof.
  intros Hk Hb Hbal Hfit. pose proof (page_size_bounds K Hok) as Hps.
  fold ps in Hps. pose proof (pow2_pos k ltac:(lia)) as Hpos.
  assert (HbB : b = b / ps * ps) by (apply aligned_is_multiple; assumption).
  assert (Hbk : b mod 2 ^ k = 0).
  { rewrite HbB. unfold ps, page_size.
    replace (page_bits K) with (page_bits K - k + k) by lia.
    rewrite Z.pow_add_r by lia. rewrite Z.mul_assoc.
    apply Z.mod_mul. lia. }
  split; [exact Hbk |].
  destruct (align_pointer_pow2 b k ltac:(unfold page_bits_ok in Hok; lia)
              Hb Hfit) as [Hamod Harange].
  pose proof (Z.div_mod (GUM_ALIGN_POINTER b (2 ^ k)) (2 ^ k) ltac:(lia))
    as Ha.
  pose proof (Z.div_mod b (2 ^ k) ltac:(lia)) as Hd.
  rewrite Hamod in Ha. rewrite Hbk in Hd.
  set (qa := GUM_ALIGN_POINTER b (2 ^ k) / 2 ^ k) in *.
  set (qb := b / 2 ^ k) in *.
  assert (qb <= qa) by (apply (Z.mul_le_mono_pos_l _ _ (2 ^ k)); lia).
  assert (qa < qb + 1) by (apply (Z.mul_lt_mono_pos_l (2 ^ k)); lia).
  replace qa with qb in Ha by lia. lia.
Qed.

(** The two wrap-arounds of the request: the slack wraps up, adding the
    size and the rounding term wraps back down. *)
Lemma over_allocation_below_page size k :
  0 <= k < page_bits K -> 0 < size -> size + 2 ^ k <= 2 ^ 64 ->
  over_allocation size (2 ^ k) ps = (size + 2 ^ k - 1) / ps * ps.
Proof.
  intros Hk Hsize Hfit. pose proof (page_size_bounds K Hok) as Hps.
  fold ps in Hps. pose proof (pow2_pos k ltac:(lia)) as Hpos.
  unfold over_allocation, alignment_slack.
  pose proof (round_up_page K Hok (wrap64 (size + wrap64 (2 ^ k - ps)))
                (wrap64_range _)) as Hr.
  fold ps in Hr. rewrite Hr.
  assert (Hsum : wrap64 (wrap64 (size + wrap64 (2 ^ k - ps)) + (ps - 1))
                 = size + 2 ^ k - 1).
  { unfold wrap64. rewrite Zplus_mod_idemp_l.
    replace (size + (2 ^ k - ps) mod 2 ^ 64 + (ps - 1))
      with ((2 ^ k - ps) mod 2 ^ 64 + (size + ps - 1)) by lia.
    rewrite Zplus_mod_idemp_l.
    replace (2 ^ k - ps + (size + ps - 1)) with (size + 2 ^ k - 1) by lia.
    apply Z.mod_small. lia. }
  rewrite Hsum.
  pose proof (Z.div_mod (size + 2 ^ k - 1) ps ltac:(lia)). lia.
Qed.

(** The request in pages: the size rounded down, plus one page when the
    remainder of the size exceeds [page_size - alignment]. *)
Lemma request_below_page size k :
  0 <= k < page_bits K -> 0 < size ->
  (size + 2 ^ k - 1) / ps * ps
  = size - size mod ps + (if ps - 2 ^ k <? size mod ps then ps else 0).
Proof.
  intros Hk Hsize. pose proof (page_size_bounds K Hok) as Hps.
  fold ps in Hps. pose proof (pow2_pos k ltac:(lia)) as Hpos.
  assert (Hlt : 2 ^ k < ps)
    by (unfold ps, page_size; apply Z.pow_lt_mono_r; lia).
  pose proof (Z.div_mod size ps ltac:(lia)) as Hd.
  pose proof (Z.mod_pos_bound size ps ltac:(lia)) as Hm.
  set (q := size / ps) in *. set (r := size mod ps) in *.
  replace (size + 2 ^ k - 1) with (r + 2 ^ k - 1 + q * ps) by lia.
  rewrite Z.div_add by lia.
  destruct (Z.ltb_spec (ps - 2 ^ k) r) as [Hbig | Hsmall].
  - replace (r + 2 ^ k - 1) with (r + 2 ^ k - 1 - ps + 1 * ps) by lia.
    rewrite Z.div_add by lia. rewrite Z.div_small by lia. lia.
  - rewrite Z.div_small by lia. lia.
Qed.

Lemma allocate_below_page_size hint size k page_prot s :
  0 <= k < page_bits K -> 0 < size -> size + 2 ^ k <= 2 ^ 64 ->
  exists a s',
    gum_memory_allocate K hint size (2 ^ k) page_prot s = Done a s'
    /\ ((a = NULL /\ pages s' = pages s)
        \/ (0 < (size + 2 ^ k - 1) / ps
            /\ allocated K s s' a ((size + 2 ^ k - 1) / ps)
                 (_gum_page_protection_to_posix page_prot) (2 ^ k)
            /\ trace s'
               = (if decide ((size + 2 ^ k - 1) / ps * ps = size) then []
                  else [SysMunmap (wrap64 (a + size))
                          (wrap64 ((size + 2 ^ k - 1) / ps * ps - size))
                          (-1)])
                 ++ SysMmap (GUM_ALIGN_POINTER hint (2 ^ k))
                      ((size + 2 ^ k - 1) / ps * ps)
                      (_gum_page_protection_to_posix page_prot) ANY_FLAGS a
                 :: trace s)).
Proof.
  intros Hk Hsize Hfit. pose proof (page_size_bounds K Hok) as Hps.
  fold ps in Hps. pose proof (pow2_pos k ltac:(lia)) as Hpos.
  assert (Hlt : 2 ^ k < ps)
    by (unfold ps, page_size; apply Z.pow_lt_mono_r; lia).
  unfold gum_memory_allocate, gum_query_page_size. fold ps.
  rewrite over_allocation_below_page by assumption.
  pose proof (request_below_page size k Hk Hsize) as Hreq.
  set (M := (size + 2 ^ k - 1) / ps) in *.
  unfold gum_allocate_page_aligned. fold ANY_FLAGS.
  set (prot := _gum_page_protection_to_posix page_prot).
  set (h := GUM_ALIGN_POINTER hint (2 ^ k)).
  unfold bind at 1. unfold bind at 1.
  destruct (mmap_anywhere_cases K h (M * ps) prot s)
    as [-> | (b & -> & Hlen & Hbal & Hbpos & Hbend & Hfree)].
  - unfold ret at 1. cbv beta iota.
    change (MAP_FAILED =? MAP_FAILED) with true. cbv beta iota delta [negb].
    change (NULL =? NULL) with true. cbv beta iota.
    eexists _, _. split; [reflexivity |]. left. split; reflexivity.
  - unfold ps in Hbend, Hfree. rewrite page_count_mul in Hbend, Hfree by assumption.
    fold ps in Hbend, Hfree, Hbal.
    assert (HM : 0 < M) by nia.
    assert (HMp : ps <= M * ps) by nia.
    set (B := b / ps) in *.
    assert (HbB : b = B * ps) by (apply aligned_is_multiple; assumption).
    destruct (align_pointer_below_page b k Hk ltac:(lia) Hbal ltac:(lia))
      as [Hbk Hsame].
    unfold ret at 1. cbv beta iota.
    replace (b =? MAP_FAILED) with false
      by (symmetry; apply Z.eqb_neq; unfold MAP_FAILED; lia).
    cbv beta iota delta [negb].
    replace (b =? NULL) with false
      by (symmetry; apply Z.eqb_neq; unfold NULL; lia).
    rewrite Hsame. set (s1 := emit _ _).
    assert (Hsuf : exists s2,
              trim_suffix K b size (M * ps) s1 = Done size s2
              /\ pages s2 = pages s1
              /\ trace s2
                 = (if decide (M * ps = size) then []
                    else [SysMunmap (wrap64 (b + size))
                            (wrap64 (M * ps - size)) (-1)])
                   ++ trace s1).
    { unfold trim_suffix.
      destruct (Z.eqb_spec (M * ps) size) as [Heq | Hne]; cbn [negb].
      - exists s1. rewrite decide_True by exact Heq.
        split; [unfold ret; f_equal; exact Heq |]. split; reflexivity.
      - rewrite decide_False by exact Hne.
        assert (Hmod : size mod ps <> 0).
        { intros Hz. apply Hne. rewrite Hreq, Hz.
          destruct (Z.ltb_spec (ps - 2 ^ k) 0); lia. }
        unfold bind, gum_memory_free, bind, munmap. fold ps.
        replace (wrap64 (b + size) mod ps =? 0) with false.
        2: { symmetry. apply Z.eqb_neq. rewrite wrap64_mod_page.
             rewrite HbB. replace (B * ps + size) with (size + B * ps) by lia.
             rewrite Z.mod_add by lia. exact Hmod. }
        rewrite andb_false_r. cbn [andb ret].
        rewrite wrap64_sub_sub by lia.
        eexists. split; [reflexivity |]. split; reflexivity. }
    destruct Hsuf as (s2 & Hsuf & Hpages2 & Htrace2).
    unfold bind, trim_prefix. rewrite Z.eqb_refl.
    cbv beta iota delta [negb]. unfold ret at 1. rewrite Hsuf.
    rewrite Z.eqb_refl. unfold g_assert, ret.
    exists b, s2. split; [reflexivity |]. right.
    split; [exact HM |]. split.
    + unfold allocated. fold ps. fold B.
      split; [lia |]. split; [exact Hbk |]. split; [exact Hbal |].
      split; [lia |].
      assert (Hwas : forall i, B <= i < B + M -> pages s !! i = None).
      { intros i Hi. apply (pages_free_spec _ _ _ Hfree). lia. }
      split; [exact Hwas |].
      intros i. rewrite Hpages2. subst s1. cbn [pages emit with_pages].
      fold ps. rewrite (page_count_mul K Hok). fold B.
      rewrite lookup_map_pages, Z2Nat.id by lia. reflexivity.
    + rewrite Htrace2. subst s1. cbn [trace emit with_pages]. reflexivity.
Qed.

End SmallAlignment.

(** C10 (as the code has it). [gum_memory_allocate] computes its request
    as [size + (alignment - page_size)] on [gsize] before rounding up.
    For every power-of-two alignment below the page size the subtraction
    wraps around to [2^64 - (page_size - alignment)]; adding the size
    wraps back, so the request handed to [mmap] is the size rounded
    down to a page multiple, plus one page when the remainder of the
    size exceeds [page_size - alignment].  The request is short of the
    size exactly when the size has a remainder of at most
    [page_size - alignment]: then a successful call maps fewer than
    [size] bytes.  For every other size, page multiples included, the
    mapping holds the [size] bytes: the alignment has to reach the page
    size only for the former sizes. *)
Theorem alignment_below_page_size_request K hint size alignment page_prot s k :
  page_bits_ok K ->
  alignment = 2 ^ k -> 0 <= k < page_bits K ->
  0 < size -> size + alignment <= 2 ^ 64 ->
  alignment_slack alignment (page_size K)
  = 2 ^ 64 - (page_size K - alignment)
  /\ over_allocation size alignment (page_size K)
     = size - size mod page_size K
       + (if page_size K - alignment <? size mod page_size K
          then page_size K else 0)
  /\ (over_allocation size alignment (page_size K) < size
      <-> 0 < size mod page_size K <= page_size K - alignment)
  /\ exists a s',
       gum_memory_allocate K hint size alignment page_prot s = Done a s'
       /\ ((a = NULL /\ pages s' = pages s)
           \/ (0 < a /\ a mod page_size K = 0 /\ a mod alignment = 0
               /\ 0 < over_allocation size alignment (page_size K)
               /\ a + over_allocation size alignment (page_size K) <= 2 ^ 64
               /\ (forall x,
                     a <= x < a + over_allocation size alignment (page_size K) ->
                     page_at K s x = None)
               /\ (forall x,
                     page_at K s' x
                     = if decide
                          (a <= x
                           < a + over_allocation size alignment (page_size K))
                       then Some (fresh_page
                                    (_gum_page_protection_to_posix page_prot))
                       else page_at K s x)
               /\ exists refused,
                    trace s'
                    = refused
                      ++ SysMmap (GUM_ALIGN_POINTER hint alignment)
                           (over_allocation size alignment (page_size K))
                           (_gum_page_protection_to_posix page_prot)
                           ANY_FLAGS a
                      :: trace s
                    /\ (refused = []
                        \/ refused
                           = [SysMunmap (wrap64 (a + size))
                                (wrap64
                                   (over_allocation size alignment (page_size K)
                                    - size))
                                (-1)]))).
Proof.
  intros Hok -> Hk Hsize Hfit. pose proof (page_size_bounds K Hok) as Hps.
  pose proof (pow2_pos k ltac:(lia)) as Hpos.
  assert (Hlt : 2 ^ k < page_size K)
    by (unfold page_size; apply Z.pow_lt_mono_r; lia).
  pose proof (Z.mod_pos_bound size (page_size K) ltac:(lia)) as Hm.
  pose proof (over_allocation_below_page K Hok size k Hk Hsize Hfit) as Hover.
  pose proof (request_below_page K Hok size k Hk Hsize) as Hreq.
  split; [apply alignment_slack_wraps; lia |].
  split; [rewrite Hover; exact Hreq |].
  split.
  { rewrite Hover, Hreq.
    destruct (Z.ltb_spec (page_size K - 2 ^ k) (size mod page_size K)); lia. }
  destruct (allocate_below_page_size K Hok hint size k page_prot s Hk Hsize
              Hfit) as (a & s' & Hrun & Hres).
  exists a, s'. split; [exact Hrun |].
  destruct Hres as [Hnull | (HM & Halloc & Htrace)];
    [left; exact Hnull | right].
  rewrite !Hover. clear Hover Hreq.
  set (M := (size + 2 ^ k - 1) / page_size K) in *.
  destruct Halloc as (Hapos & Hamod & Hapage & Haend & Hfree & Hnew).
  set (A := a / page_size K) in *.
  assert (HaA : a = A * page_size K)
    by (apply aligned_is_multiple; assumption).
  split; [exact Hapos |]. split; [exact Hapage |]. split; [exact Hamod |].
  split; [nia |]. split; [lia |].
  pose proof (fun x => page_in_range K Hok A M x) as Hiff.
  split; [| split].
  - intros x Hx. unfold page_at. apply Hfree. apply Hiff. lia.
  - intros x. unfold page_at. rewrite Hnew. specialize (Hiff x).
    repeat case_decide; try reflexivity; lia.
  - eexists. split; [exact Htrace |].
    case_decide; [left; reflexivity | right; reflexivity].
Qed.

Lemma alignment_below_page_size_example :
  page_bits_ok demo_kernel
  /\ 64 = 2 ^ 6 /\ 0 <= 6 < page_bits demo_kernel
  /\ 0 < 6000 /\ 6000 + 64 <= 2 ^ 64
  /\ alignment_slack 64 (page_size demo_kernel)
     = 2 ^ 64 - (page_size demo_kernel - 64)
  /\ over_allocation 6000 64 (page_size demo_kernel) = 4096.
Proof.
  assert (Hok : page_bits_ok demo_kernel) by (unfold page_bits_ok; simpl; lia).
  assert (Hk : 0 <= 6 < page_bits demo_kernel) by (simpl; lia).
  split; [exact Hok |]. split; [reflexivity |]. split; [exact Hk |].
  split; [lia |]. split; [lia |].
  pose proof (alignment_below_page_size_request demo_kernel NULL 6000 64
                GUM_PAGE_RW boot 6 Hok eq_refl Hk ltac:(lia) ltac:(lia))
    as (Hslack & Hover & _).
  split; [exact Hslack |]. exact (eq_trans Hover eq_refl).
Defined.

(** C10 as stated fails: alignment 16 is below the 4 KiB page size and
    its slack wraps around, yet a request of two pages is served in
    full: one [mmap] of exactly 8192 bytes at an aligned address,
    nothing more and nothing less mapped. *)
Lemma small_alignment_page_multiple_allocates :
  exists a s',
    gum_memory_allocate demo_kernel NULL 8192 16 GUM_PAGE_RW boot = Done a s'
    /\ 16 < page_size demo_kernel
    /\ alignment_slack 16 (page_size demo_kernel) = 2 ^ 64 - 4080
    /\ a <> NULL /\ a mod 16 = 0
    /\ trace s' = [SysMmap 0 8192 3 ANY_FLAGS a]
    /\ page_at demo_kernel s' a = Some (fresh_page 3)
    /\ page_at demo_kernel s' (a + 8191) = Some (fresh_page 3)
    /\ page_at demo_kernel s' (a + 8192) = None
    /\ page_at demo_kernel s' (a - 1) = None.
Proof.
  eexists _, _. split; [vm_compute; reflexivity |].
  split; [vm_compute; reflexivity |].
  split; [vm_compute; reflexivity |].
  split; [vm_compute; discriminate |].
  repeat split; vm_compute; reflexivity.
Qed.

(** The other side: with the same alignment a size of 6000 bytes gets a
    single page, and the suffix size wraps around as well. *)
Example small_alignment_short_run :
  exists a s',
    gum_memory_allocate demo_kernel NULL 6000 64 GUM_PAGE_RW boot = Done a s'
    /\ a <> NULL
    /\ trace s' = [SysMunmap (a + 6000) (2 ^ 64 - 1904) (-1);
                   SysMmap 0 4096 3 ANY_FLAGS a]
    /\ page_at demo_kernel s' (a + 4096) = None.
Proof.
  eexists _, _. split; [vm_compute; reflexivity |].
  split; [vm_compute; discriminate |].
  split; vm_compute; reflexivity.
Qed.

(** * Further properties of the backend *)

(** ** The protection mapper *)

Lemma posix_low_bits page_prot :
  _gum_page_protection_to_posix page_prot
  = _gum_page_protection_to_posix (Z.land page_prot 7).
Proof.
  unfold _gum_page_protection_to_posix, GUM_PAGE_READ, GUM_PAGE_WRITE,
    GUM_PAGE_EXECUTE.
  rewrite <- !Z.land_assoc. reflexivity.
Qed.

Lemma three_bits r :
  0 <= r < 8 ->
  r = 0 \/ r = 1 \/ r = 2 \/ r = 3 \/ r = 4 \/ r = 5 \/ r = 6 \/ r = 7.
Proof. lia. Qed.

Lemma land_seven_range p : 0 <= Z.land p 7 < 8.
Proof.
  change 7 with (Z.ones 3). rewrite Z.land_ones by lia.
  apply Z.mod_pos_bound. lia.
Qed.

Lemma posix_is_mask page_prot :
  _gum_page_protection_to_posix page_prot = Z.land page_prot 7.
Proof.
  rewrite posix_low_bits.
  destruct (three_bits _ (land_seven_range page_prot))
    as [H | [H | [H | [H | [H | [H | [H | H]]]]]]];
    rewrite H; reflexivity.
Qed.

(** X1. The protection mapper looks at the three flags only and maps
    each on its own: the native value has read, write or execute set
    exactly when the flag set has it, it has nothing else set, and "no
    access" maps to [PROT_NONE]. *)
Theorem protection_flags_map_independently page_prot :
  (Z.land (_gum_page_protection_to_posix page_prot) PROT_READ <> 0
   <-> Z.land page_prot GUM_PAGE_READ <> 0)
  /\ (Z.land (_gum_page_protection_to_posix page_prot) PROT_WRITE <> 0
      <-> Z.land page_prot GUM_PAGE_WRITE <> 0)
  /\ (Z.land (_gum_page_protection_to_posix page_prot) PROT_EXEC <> 0
      <-> Z.land page_prot GUM_PAGE_EXECUTE <> 0)
  /\ Z.land (_gum_page_protection_to_posix page_prot)
       (Z.lor (Z.lor PROT_READ PROT_WRITE) PROT_EXEC)
     = _gum_page_protection_to_posix page_prot
  /\ (Z.land page_prot GUM_PAGE_RWX = GUM_PAGE_NO_ACCESS ->
      _gum_page_protection_to_posix page_prot = PROT_NONE).
Proof.
  rewrite posix_is_mask.
  unfold PROT_READ, PROT_WRITE, PROT_EXEC, GUM_PAGE_READ, GUM_PAGE_WRITE,
    GUM_PAGE_EXECUTE, PROT_NONE, GUM_PAGE_NO_ACCESS.
  change GUM_PAGE_RWX with 7.
  change (Z.lor (Z.lor 1 2) 4) with 7.
  rewrite <- !Z.land_assoc.
  change (Z.land 7 1) with 1. change (Z.land 7 2) with 2.
  change (Z.land 7 4) with 4. change (Z.land 7 7) with 7.
  repeat split; auto.
Qed.


(** ** The distance of the near-address search *)

(** X3. On 64-bit addresses the distance of the near-address test is the
    distance around the address circle: the smaller of [|a - b|] and
    [2^64 - |a - b|]; it is symmetric and never exceeds [2^63], so two
    addresses more than [2^63] apart count as near. *)
Theorem near_distance_is_circular a b :
  0 <= a < 2 ^ 64 -> 0 <= b < 2 ^ 64 ->
  near_distance a b = circular_distance a b
  /\ near_distance a b = near_distance b a
  /\ 0 <= near_distance a b <= 2 ^ 63.
Proof.
  intros Ha Hb.
  assert (Hcirc : forall x y, 0 <= x < 2 ^ 64 -> 0 <= y < 2 ^ 64 ->
            near_distance x y = circular_distance x y).
  { intros x y Hx Hy. unfold near_distance, circular_distance, ABS, signed64.
    destruct (Z_lt_le_dec x y) as [Hlt | Hge].
    - assert (Hw : wrap64 (x - y) = 2 ^ 64 - (y - x)).
      { unfold wrap64.
        replace (x - y) with (2 ^ 64 - (y - x) + (-1) * 2 ^ 64) by lia.
        rewrite Z.mod_add by lia. apply Z.mod_small. lia. }
      rewrite Hw.
      destruct (Z.ltb_spec (2 ^ 64 - (y - x)) (2 ^ 63)).
      + destruct (Z.ltb_spec (2 ^ 64 - (y - x)) 0); [lia |].
        rewrite wrap64_small by lia. lia.
      + destruct (Z.ltb_spec (2 ^ 64 - (y - x) - 2 ^ 64) 0); [| lia].
        rewrite wrap64_small by lia. lia.
    - rewrite (wrap64_small (x - y)) by lia.
      destruct (Z.ltb_spec (x - y) (2 ^ 63)).
      + destruct (Z.ltb_spec (x - y) 0); [lia |].
        rewrite wrap64_small by lia. lia.
      + destruct (Z.ltb_spec (x - y - 2 ^ 64) 0); [| lia].
        rewrite wrap64_small by lia. lia. }
  rewrite (Hcirc a b Ha Hb), (Hcirc b a Hb Ha).
  unfold circular_distance. repeat split; lia.
Qed.

Lemma near_distance_wraps_example :
  0 <= 4096 < 2 ^ 64 /\ 0 <= 2 ^ 64 - 4096 < 2 ^ 64
  /\ near_distance 4096 (2 ^ 64 - 4096) = 8192.
Proof.
  split; [lia |]. split; [lia |].
  exact (eq_trans
           (proj1 (near_distance_is_circular 4096 (2 ^ 64 - 4096)
                     ltac:(lia) ltac:(lia)))
           eq_refl).
Defined.

(** ** The free-range scanner on any feed *)

Lemma scanned_gaps_length rs : forall prev_end,
  (length (scanned_gaps prev_end rs) <= length rs)%nat.
Proof.
  induction rs as [| d rest IH]; intros prev_end; [reflexivity |].
  cbn [scanned_gaps]. rewrite length_app.
  specialize (IH (wrap64 (base_address (range d) + size (range d)))).
  destruct (negb (prev_end =? 0) && _); cbn [length] in *; lia.
Qed.

Lemma scanned_gaps_proper rs : forall prev_end,
  0 <= prev_end < 2 ^ 64 ->
  Forall (fun g => 0 < base_address (range g) < 2 ^ 64
                   /\ 0 < size (range g) < 2 ^ 64
                   /\ protection g = GUM_PAGE_NO_ACCESS)
         (scanned_gaps prev_end rs).
Proof.
  induction rs as [| d rest IH]; intros prev_end Hprev; [constructor |].
  cbn [scanned_gaps]. apply Forall_app. split.
  - destruct (Z.eqb_spec prev_end 0); cbn [negb andb]; [constructor |].
    destruct (Z.ltb_spec 0 (wrap64 (base_address (range d) - prev_end)));
      [| constructor].
    constructor; [| constructor]. cbn.
    pose proof (wrap64_range (base_address (range d) - prev_end)).
    repeat split; lia.
  - apply IH. apply wrap64_range.
Qed.

(** X4. A feed of at most one occupied range has no gap: the callback is
    never called, whatever it is, and the scan returns the caller's data
    and the process state untouched. *)
Theorem scanner_needs_two_ranges K {U : Type} (func : GumFoundRangeFunc U)
    (ud : U) s :
  (length (k_ranges K s) <= 1)%nat ->
  gum_enumerate_free_ranges K func ud s = Done ud s.
Proof.
  intros Hlen. rewrite scan_emits.
  destruct (k_ranges K s) as [| d [| d' rest]]; [reflexivity | | cbn in Hlen; lia].
  reflexivity.
Qed.

Lemma scanner_single_range_example :
  (length (k_ranges (feed_kernel [occupied 4096 4096]) boot) <= 1)%nat
  /\ gum_enumerate_free_ranges (feed_kernel [occupied 4096 4096])
       stop_at_first None boot
     = Done None boot.
Proof.
  split; [simpl; lia |].
  apply (scanner_needs_two_ranges (feed_kernel [occupied 4096 4096])
           stop_at_first None boot).
  simpl. lia.
Defined.

(** X5. On any feed, in any order, the scanner hands the callback fewer
    ranges than the feed has, each with a non-null base, a positive size
    and "no access" protection; it changes nothing in the process
    state. *)
Theorem scanner_emits_proper_gaps K s :
  exists gaps,
    gum_enumerate_free_ranges K record_range [] s = Done gaps s
    /\ (length gaps <= Nat.pred (length (k_ranges K s)))%nat
    /\ Forall (fun g => 0 < base_address (range g) < 2 ^ 64
                        /\ 0 < size (range g) < 2 ^ 64
                        /\ protection g = GUM_PAGE_NO_ACCESS) gaps.
Proof.
  exists (scanned_gaps 0 (k_ranges K s)).
  split; [rewrite scan_emits; apply enumerate_record |].
  split; [| apply scanned_gaps_proper; lia].
  destruct (k_ranges K s) as [| d rest]; [reflexivity |].
  cbn [scanned_gaps length Nat.pred Z.eqb negb andb app].
  apply scanned_gaps_length.
Qed.

(** ** The free ranges complement the occupied ones *)

Lemma ascending_tail d rest : ascending (d :: rest) = true -> ascending rest = true.
Proof.
  cbn [ascending]. intros H. apply andb_prop in H as [_ H]. exact H.
Qed.

Lemma sum_sizes_cons d l :
  sum_sizes (d :: l) = size (range d) + sum_sizes l.
Proof. reflexivity. Qed.

Lemma ascending_head_least rest : forall a d,
  ascending (a :: rest) = true -> d ∈ a :: rest ->
  base_address (range a) <= base_address (range d).
Proof.
  induction rest as [| b rest IH]; intros a d Hasc Hd.
  - apply elem_of_cons in Hd as [-> | Hd]; [lia |].
    apply elem_of_nil in Hd. contradiction.
  - apply elem_of_cons in Hd as [-> | Hd]; [lia |].
    pose proof (IH b d (ascending_tail _ _ Hasc) Hd) as Hle.
    cbn [ascending] in Hasc. unfold range_end in Hasc.
    apply andb_prop in Hasc as [Hasc _].
    apply andb_prop in Hasc as [Hasc Hnext]. unbool. lia.
Qed.

Lemma sizes_and_gaps_span rest : forall a z,
  ascending (a :: rest) = true ->
  last (a :: rest) = Some z ->
  sum_sizes (a :: rest) + sum_sizes (gaps_between (a :: rest))
  = range_end z - base_address (range a).
Proof.
  induction rest as [| b rest IH]; intros a z Hasc Hlast.
  - cbn in Hlast. injection Hlast as <-. cbn. unfold range_end. lia.
  - rewrite last_cons_cons in Hlast.
    specialize (IH b z (ascending_tail _ _ Hasc) Hlast).
    cbn [ascending] in Hasc. unfold range_end in Hasc.
    apply andb_prop in Hasc as [Hasc _].
    apply andb_prop in Hasc as [Hasc Hnext]. unbool.
    rewrite gaps_between_cons. unfold gap_of_pair, range_end in *.
    rewrite (sum_sizes_cons a).
    destruct (Z.ltb_spec (base_address (range a) + size (range a))
                (base_address (range b))).
    + rewrite (sum_sizes_cons (free_range _ _)).
      change (size (range (free_range ?x ?y))) with y. lia.
    + lia.
Qed.

Lemma ascending_last_end rest : forall a z,
  ascending (a :: rest) = true -> last (a :: rest) = Some z ->
  0 < size (range a) /\ range_end a <= range_end z.
Proof.
  induction rest as [| b rest IH]; intros a z Hasc Hlast.
  - cbn in Hlast. injection Hlast as <-.
    cbn [ascending] in Hasc. unbool. lia.
  - rewrite last_cons_cons in Hlast.
    destruct (IH b z (ascending_tail _ _ Hasc) Hlast) as [Hb Hz].
    cbn [ascending] in Hasc. unfold range_end in *.
    apply andb_prop in Hasc as [Hasc _].
    apply andb_prop in Hasc as [Hasc Hnext]. unbool. lia.
Qed.

(** Between the first base and the last end, a byte lies in a gap
    exactly when it lies in no occupied range. *)
Lemma gaps_complement rest : forall a z,
  ascending (a :: rest) = true -> last (a :: rest) = Some z ->
  forall x,
    covered (gaps_between (a :: rest)) x
    <-> base_address (range a) <= x < range_end z
        /\ ~ covered (a :: rest) x.
Proof.
  unfold covered.
  induction rest as [| b rest IH]; intros a z Hasc Hlast x.
  - cbn in Hlast. injection Hlast as <-.
    change (gaps_between [a]) with (@nil GumRangeDetails). split.
    + intros (g & Hg & _). apply elem_of_nil in Hg. contradiction.
    + intros [Hx Hno]. exfalso. apply Hno. exists a.
      split; [apply elem_of_cons; left; reflexivity |].
      unfold in_range, range_end in *. lia.
  - destruct (ascending_last_end _ _ _ Hasc Hlast) as [Hasize _].
    rewrite last_cons_cons in Hlast.
    pose proof (ascending_tail _ _ Hasc) as Htail.
    destruct (ascending_last_end _ _ _ Htail Hlast) as [Hbsize Hbz].
    pose proof (ascending_head_least rest b) as Hleast.
    specialize (IH b z Htail Hlast x).
    assert (Hab : range_end a <= base_address (range b)).
    { cbn [ascending] in Hasc.
      apply andb_prop in Hasc as [Hasc _].
      apply andb_prop in Hasc as [Hasc Hnext]. unbool. lia. }
    rewrite gaps_between_cons. unfold gap_of_pair.
    set (gap := free_range (range_end a)
                  (base_address (range b) - range_end a)).
    split.
    + intros (g & Hg & Hin).
      assert (Hcase : (g = gap /\ range_end a < base_address (range b))
                      \/ g ∈ gaps_between (b :: rest)).
      { destruct (Z.ltb_spec (range_end a) (base_address (range b)));
          [| right; exact Hg].
        apply elem_of_cons in Hg as [-> | Hg];
          [left; split; [reflexivity | lia] | right; exact Hg]. }
      destruct Hcase as [[-> Hlt] | Hg'].
      * unfold in_range, gap in Hin. cbn in Hin.
        split; [unfold range_end in *; lia |].
        intros (d & Hd & Hdin). unfold in_range in Hdin.
        apply elem_of_cons in Hd as [-> | Hd];
          [unfold range_end in *; lia |].
        pose proof (Hleast d Htail Hd). lia.
      * destruct (proj1 IH (ex_intro _ g (conj Hg' Hin))) as [Hx Hno].
        split; [unfold range_end in *; lia |].
        intros (d & Hd & Hdin).
        apply elem_of_cons in Hd as [-> | Hd].
        -- unfold in_range, range_end in *. lia.
        -- apply Hno. exists d. split; assumption.
    + intros [Hx Hno].
      assert (Hxa : range_end a <= x).
      { destruct (Z_lt_le_dec x (range_end a)) as [Hin |]; [| lia].
        exfalso. apply Hno. exists a.
        split; [apply elem_of_cons; left; reflexivity |].
        unfold in_range, range_end in *. lia. }
      destruct (Z_lt_le_dec x (base_address (range b))) as [Hlt | Hge].
      * exists gap. split.
        -- destruct (Z.ltb_spec (range_end a) (base_address (range b)));
             [apply elem_of_cons; left; reflexivity | lia].
        -- unfold in_range, gap. cbn. lia.
      * destruct (proj2 IH) as (g & Hg & Hin).
        { split; [lia |]. intros (d & Hd & Hdin). apply Hno. exists d.
          split; [apply elem_of_cons; right; exact Hd | exact Hdin]. }
        exists g. split; [| exact Hin].
        destruct (Z.ltb_spec (range_end a) (base_address (range b)));
          [apply elem_of_cons; right; exact Hg | exact Hg].
Qed.

(** X6. On a feed that honours the collaborator contract the ranges the
    scanner emits are the exact complement of the occupied ranges
    between the first base and the last end: a byte of that span lies in
    an emitted range exactly when it lies in no occupied range, no
    emitted range reaches outside the span, and the occupied sizes and
    the emitted sizes add up to the span. *)
Theorem scanner_gaps_complement_occupied K s first rest z :
  ascending (k_ranges K s) = true ->
  k_ranges K s = first :: rest ->
  last (first :: rest) = Some z ->
  exists gaps,
    gum_enumerate_free_ranges K record_range [] s = Done gaps s
    /\ (forall x,
          covered gaps x
          <-> base_address (range first) <= x < range_end z
              /\ ~ covered (k_ranges K s) x)
    /\ sum_sizes (k_ranges K s) + sum_sizes gaps
       = range_end z - base_address (range first).
Proof.
  intros Hasc Hfeed Hlast. exists (gaps_between (k_ranges K s)).
  split; [rewrite scan_refines by exact Hasc; apply enumerate_record |].
  rewrite Hfeed in *.
  split; [apply gaps_complement; assumption |].
  apply sizes_and_gaps_span; assumption.
Qed.

Lemma scanner_complement_example :
  ascending (k_ranges racy_kernel boot) = true
  /\ k_ranges racy_kernel boot
     = occupied 65536 65536
         :: [occupied 196608 65536; occupied 327680 65536]
  /\ last (occupied 65536 65536
             :: [occupied 196608 65536; occupied 327680 65536])
     = Some (occupied 327680 65536)
  /\ exists gaps,
       gum_enumerate_free_ranges racy_kernel record_range [] boot = Done gaps boot
       /\ (forall x,
             covered gaps x
             <-> base_address (range (occupied 65536 65536)) <= x
                 < range_end (occupied 327680 65536)
                 /\ ~ covered (k_ranges racy_kernel boot) x)
       /\ sum_sizes (k_ranges racy_kernel boot) + sum_sizes gaps
          = range_end (occupied 327680 65536)
            - base_address (range (occupied 65536 65536)).
Proof.
  split; [reflexivity |]. split; [reflexivity |]. split; [reflexivity |].
  exact (scanner_gaps_complement_occupied racy_kernel boot _ _ _
           eq_refl eq_refl eq_refl).
Defined.

(** ** Failure and overflow of the page allocators *)

(** X7. A page allocation that fails leaks nothing: when
    [gum_try_alloc_n_pages] returns [NULL] the page table is the one it
    started from, and when it does not, the pointer is page-aligned and
    at least one page above address zero. *)
Theorem failed_page_allocation_leaks_nothing K n page_prot s :
  page_bits_ok K -> 1 <= n < 2 ^ 32 ->
  exists p s',
    gum_try_alloc_n_pages K n page_prot s = Done p s'
    /\ (p = NULL -> pages s' = pages s)
    /\ (p <> NULL -> 2 * page_size K <= p /\ p mod page_size K = 0
                     /\ pages s' <> pages s).
Proof.
  intros Hok Hn. pose proof (page_size_bounds K Hok) as Hps.
  destruct (alloc_n_pages_run K Hok n page_prot s Hn)
    as (p & s' & Hrun & [[Hnull Hsame] | (B & Hp & HB & Hend & Hfree & Hnew)]).
  - exists p, s'. split; [exact Hrun |]. split; [intros _; exact Hsame |].
    intros Hne. contradiction.
  - exists p, s'. split; [exact Hrun |]. split.
    + intros Hnull. unfold NULL in Hnull. nia.
    + intros _. split; [nia |]. split; [rewrite Hp; apply Z.mod_mul; lia |].
      intros Heq. specialize (Hnew B). rewrite decide_True in Hnew by reflexivity.
      rewrite Heq, (Hfree B) in Hnew by lia. discriminate.
Qed.

Lemma failed_page_allocation_example :
  page_bits_ok mock_kernel /\ 1 <= 2 < 2 ^ 32
  /\ exists p s',
       gum_try_alloc_n_pages mock_kernel 2 GUM_PAGE_RW boot = Done p s'
       /\ (p = NULL -> pages s' = pages boot).
Proof.
  assert (Hok : page_bits_ok mock_kernel) by (unfold page_bits_ok; simpl; lia).
  assert (Hn : 1 <= 2 < 2 ^ 32) by lia.
  split; [exact Hok |]. split; [exact Hn |].
  destruct (failed_page_allocation_leaks_nothing mock_kernel 2 GUM_PAGE_RW boot
              Hok Hn) as (p & s' & Hrun & Hnull & _).
  exists p, s'. split; [exact Hrun | exact Hnull].
Defined.

(** X8. The page count is a 32-bit word: a request of [2^32 - 1] pages
    makes [1 + n_pages] wrap to zero, and both page allocators then
    return [NULL] without mapping anything, whatever the kernel would
    grant. *)
Theorem page_count_wraps_to_empty_request K page_prot spec s :
  page_bits_ok K ->
  (exists s',
     gum_try_alloc_n_pages K (2 ^ 32 - 1) page_prot s = Done NULL s'
     /\ pages s' = pages s)
  /\ (exists s',
        gum_try_alloc_n_pages_near K (2 ^ 32 - 1) page_prot spec s
        = Done NULL s'
        /\ pages s' = pages s).
Proof.
  intros Hok. split.
  - unfold gum_try_alloc_n_pages, gum_query_page_size.
    change (wrap32 (1 + (2 ^ 32 - 1))) with 0.
    change (wrap64 (0 * page_size K)) with 0.
    destruct (allocate_nothing K Hok NULL page_prot s) as (s1 & Hrun & Hpages).
    unfold bind. rewrite Hrun. change (NULL =? NULL) with true. cbv iota.
    exists s1. split; [reflexivity | exact Hpages].
  - unfold gum_try_alloc_n_pages_near, gum_query_page_size.
    change (wrap32 (1 + (2 ^ 32 - 1))) with 0.
    change (wrap64 (0 * page_size K)) with 0.
    set (ctx0 := {| nc_result := NULL; nc_size := 0;
                    nc_posix_page_prot := _gum_page_protection_to_posix page_prot;
                    nc_address_spec := spec |}).
    unfold bind at 1. rewrite scan_emits.
    destruct (near_search K Hok (scanned_gaps 0 (k_ranges K s)) ctx0 s)
      as (ctx' & s1 & -> & _ & [Hmiss | (pre & b & Hclaimed)]).
    + destruct (Hmiss eq_refl) as (Hr & Hp & _).
      rewrite Hr. change (NULL =? NULL) with true. cbv iota.
      exists s1. split; [reflexivity | exact Hp].
    + exfalso. destruct Hclaimed as (_ & _ & _ & _ & Hlen & _).
      cbn [nc_size ctx0] in Hlen. lia.
Qed.

Lemma page_count_wraps_example :
  page_bits_ok demo_kernel
  /\ exists s',
       gum_try_alloc_n_pages demo_kernel (2 ^ 32 - 1) GUM_PAGE_RW boot
       = Done NULL s'
       /\ pages s' = pages boot.
Proof.
  assert (Hok : page_bits_ok demo_kernel) by (unfold page_bits_ok; simpl; lia).
  split; [exact Hok |].
  exact (proj1 (page_count_wraps_to_empty_request demo_kernel GUM_PAGE_RW
                  near_demo_spec boot Hok)).
Defined.

(** ** Allocations side by side *)

(** X9. Two page allocations in a row never share a page: when both
    succeed their regions, header pages included, are disjoint, and the
    second leaves the header and the usable pages of the first as they
    were. *)
Theorem successive_allocations_are_apart K n1 prot1 n2 prot2 s :
  page_bits_ok K -> 1 <= n1 < 2 ^ 32 -> 1 <= n2 < 2 ^ 32 ->
  exists p1 p2 s2,
    two_allocations K n1 prot1 n2 prot2 s = Done (p1, p2) s2
    /\ (p1 = NULL \/ p2 = NULL
        \/ ((p1 + n1 * page_size K <= p2 - page_size K
             \/ p2 + n2 * page_size K <= p1 - page_size K)
            /\ header_locked K s2 p1 n1 prot1
            /\ header_locked K s2 p2 n2 prot2)).
Proof.
  intros Hok Hn1 Hn2. pose proof (page_size_bounds K Hok) as Hps.
  unfold two_allocations.
  destruct (alloc_n_pages_run K Hok n1 prot1 s Hn1) as (p1 & s1 & Hrun1 & R1).
  destruct (alloc_n_pages_run K Hok n2 prot2 s1 Hn2) as (p2 & s2 & Hrun2 & R2).
  exists p1, p2, s2. split.
  { unfold bind. rewrite Hrun1, Hrun2. reflexivity. }
  destruct R1 as [[Hnull _] | (B1 & Hp1 & HB1 & Hend1 & Hfree1 & Hnew1)];
    [left; exact Hnull |].
  destruct R2 as [[Hnull _] | (B2 & Hp2 & HB2 & Hend2 & Hfree2 & Hnew2)];
    [right; left; exact Hnull |].
  right. right.
  assert (Hapart : B1 + n1 + 1 <= B2 \/ B2 + n2 + 1 <= B1).
  { destruct (Z_le_gt_dec (B1 + n1 + 1) B2) as [| H12]; [left; assumption |].
    destruct (Z_le_gt_dec (B2 + n2 + 1) B1) as [| H21]; [right; assumption |].
    exfalso. pose proof (Hnew1 (Z.max B1 B2)) as Hsome.
    pose proof (Hfree2 (Z.max B1 B2) ltac:(lia)) as Hnone.
    rewrite Hnone in Hsome.
    repeat case_decide; try discriminate; lia. }
  split; [| split].
  - destruct Hapart; [left | right]; nia.
  - unfold header_locked, page_at. split.
    + replace (p1 - page_size K) with (B1 * page_size K) by lia.
      rewrite page_number_mul by exact Hok.
      rewrite Hnew2. repeat case_decide; try lia.
      rewrite Hnew1, decide_True by reflexivity. reflexivity.
    + intros x Hx.
      assert (Hi : B1 + 1 <= x / page_size K < B1 + 1 + n1)
        by (apply page_in_range; [exact Hok | lia]).
      rewrite Hnew2. repeat case_decide; try lia.
      rewrite Hnew1. repeat case_decide; try reflexivity; lia.
  - rewrite Hp2. apply (header_locked_intro K Hok s1); [lia | exact Hnew2].
Qed.

Lemma successive_allocations_example :
  page_bits_ok bump_kernel /\ 1 <= 1 < 2 ^ 32 /\ 1 <= 3 < 2 ^ 32
  /\ exists p1 p2 s2,
       two_allocations bump_kernel 1 GUM_PAGE_RW 3 GUM_PAGE_READ boot
       = Done (p1, p2) s2
       /\ (p1 = NULL \/ p2 = NULL
           \/ ((p1 + 1 * page_size bump_kernel <= p2 - page_size bump_kernel
                \/ p2 + 3 * page_size bump_kernel <= p1 - page_size bump_kernel)
               /\ header_locked bump_kernel s2 p1 1 GUM_PAGE_RW
               /\ header_locked bump_kernel s2 p2 3 GUM_PAGE_READ)).
Proof.
  assert (Hok : page_bits_ok bump_kernel) by (unfold page_bits_ok; simpl; lia).
  split; [exact Hok |]. split; [lia |]. split; [lia |].
  exact (successive_allocations_are_apart bump_kernel 1 GUM_PAGE_RW 3
           GUM_PAGE_READ boot Hok ltac:(lia) ltac:(lia)).
Defined.

(** On the bumping machine both allocations succeed, 128 KiB apart. *)
Example successive_allocations_run :
  exists s2,
    two_allocations bump_kernel 1 GUM_PAGE_RW 3 GUM_PAGE_READ boot
    = Done (69632, 200704) s2.
Proof. eexists. vm_compute. reflexivity. Qed.

(** ** Releasing what was allocated *)

Lemma free_pages_header K (Hok : page_bits_ok K) B n s' :
  0 < B -> 0 <= n -> (B + n + 1) * page_size K <= 2 ^ 64 ->
  pages s' !! B = Some (header_page (total_size K n)) ->
  gum_free_pages K ((B + 1) * page_size K) s'
  = Done tt
      (emit (SysMunmap (B * page_size K) (total_size K n) 0)
         (with_pages (unmap_pages B (Z.to_nat (n + 1)) (pages s')) s')).
Proof.
  intros HB Hn Hend Hhdr. pose proof (page_size_bounds K Hok) as Hps.
  unfold gum_free_pages, gum_query_page_size.
  replace ((B + 1) * page_size K - page_size K) with (B * page_size K) by lia.
  rewrite (wrap64_small (B * page_size K)) by nia.
  unfold bind at 1. unfold load_gsize.
  rewrite page_number_mul, page_offset_mul by exact Hok.
  rewrite Hhdr. cbn [header_page pg_prot pg_words].
  change (Z.land PROT_READ PROT_READ =? 0) with false. cbv iota.
  rewrite lookup_singleton_eq. cbn [default from_option]. unfold id.
  unfold gum_memory_release, gum_memory_free, bind, total_size.
  rewrite munmap_pages by (assumption || lia).
  reflexivity.
Qed.

(** X10. The range [gum_query_page_allocation_range] computes for a
    pointer returned by [gum_try_alloc_n_pages] and its usable size (a
    32-bit quantity) is the whole backing region: it starts at the
    header page, its size is the size recorded in the header, and it is
    exactly the range [gum_free_pages] hands to [munmap]. *)
Theorem query_range_is_backing_region K n page_prot s :
  page_bits_ok K -> 1 <= n -> n * page_size K < 2 ^ 32 ->
  exists p s',
    gum_try_alloc_n_pages K n page_prot s = Done p s'
    /\ (p = NULL
        \/ let r := gum_query_page_allocation_range K p (n * page_size K) in
           base_address r = p - page_size K
           /\ size r = (n + 1) * page_size K
           /\ load_gsize K (base_address r) s' = Done (size r) s'
           /\ exists s'',
                gum_free_pages K p s' = Done tt s''
                /\ trace s''
                   = SysMunmap (base_address r) (size r) 0 :: trace s').
Proof.
  intros Hok Hn Husable. pose proof (page_size_bounds K Hok) as Hps.
  assert (Hn32 : 1 <= n < 2 ^ 32) by nia.
  destruct (alloc_n_pages_run K Hok n page_prot s Hn32)
    as (p & s' & Hrun & [[Hnull _] | (B & Hp & HB & Hend & Hfree & Hnew)]).
  - exists p, s'. split; [exact Hrun |]. left. exact Hnull.
  - exists p, s'. split; [exact Hrun |]. right.
    assert (Hhdr : pages s' !! B = Some (header_page (total_size K n))).
    { rewrite Hnew, decide_True by reflexivity. reflexivity. }
    unfold gum_query_page_allocation_range, gum_query_page_size.
    cbn [base_address size]. cbv zeta.
    assert (Hbase : wrap64 (p - page_size K) = B * page_size K).
    { replace (p - page_size K) with (B * page_size K) by lia.
      apply wrap64_small. nia. }
    assert (Hsize : wrap64 (wrap32 (n * page_size K) + page_size K)
                    = (n + 1) * page_size K).
    { unfold wrap32. rewrite Z.mod_small by nia.
      rewrite wrap64_small by nia. lia. }
    rewrite Hbase, Hsize.
    split; [lia |]. split; [reflexivity |]. split.
    + unfold load_gsize.
      rewrite page_number_mul, page_offset_mul by exact Hok.
      rewrite Hhdr. cbn [header_page pg_prot pg_words].
      change (Z.land PROT_READ PROT_READ =? 0) with false. cbv iota.
      rewrite lookup_singleton_eq. reflexivity.
    + rewrite Hp, (free_pages_header K Hok B n s') by (assumption || lia).
      eexists. split; reflexivity.
Qed.

Lemma query_range_example :
  page_bits_ok demo_kernel /\ 1 <= 3
  /\ 3 * page_size demo_kernel < 2 ^ 32
  /\ exists p s',
       gum_try_alloc_n_pages demo_kernel 3 GUM_PAGE_RW boot = Done p s'
       /\ (p = NULL
           \/ let r := gum_query_page_allocation_range demo_kernel p
                         (3 * page_size demo_kernel) in
              base_address r = p - page_size demo_kernel
              /\ size r = (3 + 1) * page_size demo_kernel
              /\ load_gsize demo_kernel (base_address r) s' = Done (size r) s'
              /\ exists s'',
                   gum_free_pages demo_kernel p s' = Done tt s''
                   /\ trace s''
                      = SysMunmap (base_address r) (size r) 0 :: trace s').
Proof.
  assert (Hok : page_bits_ok demo_kernel) by (unfold page_bits_ok; simpl; lia).
  assert (Hu : 3 * page_size demo_kernel < 2 ^ 32)
    by (unfold page_size; simpl; lia).
  split; [exact Hok |]. split; [lia |]. split; [exact Hu |].
  exact (query_range_is_backing_region demo_kernel 3 GUM_PAGE_RW boot Hok
           ltac:(lia) Hu).
Defined.

(** X11. Freeing twice is caught: after [gum_free_pages] has released an
    allocation, a second [gum_free_pages] on the same pointer faults on
    the header read instead of unmapping anything. *)
Theorem double_free_faults K n page_prot s :
  page_bits_ok K -> 1 <= n < 2 ^ 32 ->
  exists p s',
    gum_try_alloc_n_pages K n page_prot s = Done p s'
    /\ (p = NULL
        \/ exists s'',
             gum_free_pages K p s' = Done tt s''
             /\ gum_free_pages K p s'' = Crash Segv).
Proof.
  intros Hok Hn. pose proof (page_size_bounds K Hok) as Hps.
  destruct (alloc_n_pages_run K Hok n page_prot s Hn)
    as (p & s' & Hrun & [[Hnull _] | (B & Hp & HB & Hend & Hfree & Hnew)]).
  - exists p, s'. split; [exact Hrun |]. left. exact Hnull.
  - exists p, s'. split; [exact Hrun |]. right.
    assert (Hhdr : pages s' !! B = Some (header_page (total_size K n))).
    { rewrite Hnew, decide_True by reflexivity. reflexivity. }
    rewrite Hp, (free_pages_header K Hok B n s') by (assumption || lia).
    eexists. split; [reflexivity |].
    unfold gum_free_pages, gum_query_page_size.
    replace ((B + 1) * page_size K - page_size K) with (B * page_size K) by lia.
    rewrite (wrap64_small (B * page_size K)) by nia.
    unfold bind at 1. unfold load_gsize.
    rewrite page_number_mul by exact Hok.
    cbn [pages emit with_pages].
    rewrite lookup_unmap_pages, decide_True; [reflexivity |].
    rewrite Z2Nat.id by lia. lia.
Qed.

Lemma double_free_example :
  page_bits_ok demo_kernel /\ 1 <= 2 < 2 ^ 32
  /\ exists p s',
       gum_try_alloc_n_pages demo_kernel 2 GUM_PAGE_READ boot = Done p s'
       /\ (p = NULL
           \/ exists s'',
                gum_free_pages demo_kernel p s' = Done tt s''
                /\ gum_free_pages demo_kernel p s'' = Crash Segv).
Proof.
  assert (Hok : page_bits_ok demo_kernel) by (unfold page_bits_ok; simpl; lia).
  assert (Hn : 1 <= 2 < 2 ^ 32) by lia.
  split; [exact Hok |]. split; [exact Hn |].
  exact (double_free_faults demo_kernel 2 GUM_PAGE_READ boot Hok Hn).
Defined.

(** X12. Round trip of the raw allocator: after [gum_memory_allocate]
    of a page-multiple size at a power-of-two alignment,
    [gum_memory_release] of the returned address and that size succeeds
    and the page table is again the one before the allocation. *)
Theorem raw_allocation_round_trip K hint size alignment page_prot s k :
  page_bits_ok K ->
  alignment = 2 ^ k -> 0 <= k < 64 ->
  0 < size -> size mod page_size K = 0 -> size + alignment <= 2 ^ 64 ->
  exists a s',
    gum_memory_allocate K hint size alignment page_prot s = Done a s'
    /\ (a = NULL
        \/ exists s'',
             gum_memory_release K a size s' = Done true s''
             /\ trace s'' = SysMunmap a size 0 :: trace s'
             /\ pages s'' = pages s).
Proof.
  intros Hok -> Hk Hsize Hmod Hfit. pose proof (page_size_bounds K Hok) as Hps.
  set (m := size / page_size K).
  assert (Hsz : size = m * page_size K)
    by (apply aligned_is_multiple; assumption).
  assert (Hm : 1 <= m) by nia.
  assert (Hrun : exists a s',
            gum_memory_allocate K hint (m * page_size K) (2 ^ k) page_prot s
            = Done a s'
            /\ ((a = NULL /\ pages s' = pages s)
                \/ allocated K s s' a m
                     (_gum_page_protection_to_posix page_prot) (2 ^ k))).
  { destruct (Z_lt_le_dec k (page_bits K)).
    - apply allocate_page_multiples_small; [exact Hok | lia | lia | lia].
    - apply allocate_page_multiples; [exact Hok | lia | lia | lia]. }
  destruct Hrun as (a & s' & Hrun & Hres).
  rewrite <- Hsz in Hrun. exists a, s'. split; [exact Hrun |].
  destruct Hres as [[Hnull _] | (Hapos & Hamod & Hapage & Haend & Hfree & Hnew)];
    [left; exact Hnull | right].
  set (A := a / page_size K) in *.
  assert (HaA : a = A * page_size K)
    by (apply aligned_is_multiple; assumption).
  assert (HA : 0 < A) by nia.
  unfold gum_memory_release, gum_memory_free, bind.
  pose proof (munmap_pages K Hok A m s' ltac:(lia) ltac:(lia) ltac:(lia))
    as Hun.
  rewrite <- HaA, <- Hsz in Hun. rewrite Hun.
  cbn [ret]. eexists. split; [reflexivity |].
  cbn [trace pages emit with_pages].
  split; [reflexivity |].
  apply map_eq. intros i.
  rewrite lookup_unmap_pages, Z2Nat.id, Hnew by lia.
  repeat case_decide; try reflexivity; try lia.
  symmetry. apply Hfree. lia.
Qed.

Lemma raw_round_trip_example :
  page_bits_ok demo_kernel
  /\ 65536 = 2 ^ 16 /\ 0 <= 16 < 64
  /\ 0 < 8192 /\ 8192 mod page_size demo_kernel = 0
  /\ 8192 + 65536 <= 2 ^ 64
  /\ exists a s',
       gum_memory_allocate demo_kernel NULL 8192 65536 GUM_PAGE_RW boot
       = Done a s'
       /\ (a = NULL
           \/ exists s'',
                gum_memory_release demo_kernel a 8192 s' = Done true s''
                /\ trace s'' = SysMunmap a 8192 0 :: trace s'
                /\ pages s'' = pages boot).
Proof.
  assert (Hok : page_bits_ok demo_kernel) by (unfold page_bits_ok; simpl; lia).
  assert (Hk : 0 <= 16 < 64) by lia.
  split; [exact Hok |]. split; [reflexivity |]. split; [exact Hk |].
  split; [lia |]. split; [reflexivity |]. split; [lia |].
  exact (raw_allocation_round_trip demo_kernel NULL 8192 65536 GUM_PAGE_RW
           boot 16 Hok eq_refl Hk ltac:(lia) eq_refl ltac:(lia)).
Defined.

(** X13. Round trip of the near allocator, on any feed: after a
    successful [gum_try_alloc_n_pages_near] returning [p],
    [gum_free_pages p] unmaps exactly the region
    [p - page_size, p - page_size + (n + 1) * page_size) and every byte
    outside it is mapped as it was before the allocation. *)
Theorem near_allocation_round_trip K n page_prot spec s :
  page_bits_ok K -> 1 <= n < 2 ^ 32 ->
  exists p s',
    gum_try_alloc_n_pages_near K n page_prot spec s = Done p s'
    /\ (p = NULL
        \/ exists s'',
             gum_free_pages K p s' = Done tt s''
             /\ trace s''
                = SysMunmap (p - page_size K) (total_size K n) 0 :: trace s'
             /\ forall x,
                  page_at K s'' x
                  = if decide (p - page_size K <= x
                               < p - page_size K + total_size K n)
                    then None else page_at K s x).
Proof.
  intros Hok Hn. pose proof (page_size_bounds K Hok) as Hps.
  destruct (near_run_any K Hok n page_prot spec s Hn)
    as (p & s' & Hrun & [[Hnull _] | (pre & B & Hclaimed)]).
  - exists p, s'. split; [exact Hrun |]. left. exact Hnull.
  - exists p, s'. split; [exact Hrun |]. right.
    destruct Hclaimed as (_ & HB & Hp & _ & Hend & _ & Hnew).
    assert (Hhdr : pages s' !! B = Some (header_page (total_size K n))).
    { rewrite Hnew, decide_True by reflexivity. reflexivity. }
    rewrite Hp, (free_pages_header K Hok B n s') by (assumption || lia).
    eexists. split; [reflexivity |].
    cbn [trace pages emit with_pages].
    replace ((B + 1) * page_size K - page_size K) with (B * page_size K) by lia.
    split; [reflexivity |].
    intros x. unfold page_at. cbn [pages emit with_pages].
    rewrite lookup_unmap_pages, Z2Nat.id, Hnew by lia.
    pose proof (page_in_range K Hok B (n + 1) x) as Hiff.
    unfold total_size.
    repeat case_decide; try reflexivity; lia.
Qed.

Lemma near_round_trip_example :
  page_bits_ok demo_kernel /\ 1 <= 1 < 2 ^ 32
  /\ exists p s',
       gum_try_alloc_n_pages_near demo_kernel 1 GUM_PAGE_RW near_demo_spec boot
       = Done p s'
       /\ (p = NULL
           \/ exists s'',
                gum_free_pages demo_kernel p s' = Done tt s''
                /\ trace s''
                   = SysMunmap (p - page_size demo_kernel)
                       (total_size demo_kernel 1) 0 :: trace s'
                /\ forall x,
                     page_at demo_kernel s'' x
                     = if decide (p - page_size demo_kernel <= x
                                  < p - page_size demo_kernel
                                    + total_size demo_kernel 1)
                       then None else page_at demo_kernel boot x).
Proof.
  assert (Hok : page_bits_ok demo_kernel) by (unfold page_bits_ok; simpl; lia).
  assert (Hn : 1 <= 1 < 2 ^ 32) by lia.
  split; [exact Hok |]. split; [exact Hn |].
  exact (near_allocation_round_trip demo_kernel 1 GUM_PAGE_RW near_demo_spec
           boot Hok Hn).
Defined.

(** ** Commit and decommit *)

Lemma store_depends_on_pages K a v s s' :
  pages s' = pages s ->
  (exists t, store_gsize K a v s = Done tt t) ->
  exists t', store_gsize K a v s' = Done tt t'.
Proof.
  intros Hpages [t Hstore]. unfold store_gsize in *. rewrite Hpages.
  destruct (pages s !! (a / page_size K)) as [pg |]; [| discriminate].
  destruct (Z.land (pg_prot pg) PROT_WRITE =? 0); [discriminate |].
  eexists. reflexivity.
Qed.

(** X14. Decommit followed by commit is safe for the region: whatever
    the kernel answers, the pair returns success, issues one or two
    advisories and no other system call, leaves the page table as it
    was, and every store that would succeed before it succeeds after
    it. *)
Theorem decommit_then_commit_keeps_region K address size page_prot s :
  exists s',
    decommit_then_commit K address size page_prot s = Done true s'
    /\ pages s' = pages s
    /\ (exists advisories,
          trace s' = advisories ++ trace s
          /\ Forall is_madvise advisories
          /\ (1 <= length advisories <= 2)%nat)
    /\ forall a v,
         (exists t, store_gsize K a v s = Done tt t) ->
         exists t', store_gsize K a v s' = Done tt t'.
Proof.
  assert (Hrun : exists ok s',
            gum_memory_decommit K address size s = Done ok s'
            /\ pages s' = pages s
            /\ exists advisories,
                 trace s' = advisories ++ trace s
                 /\ Forall is_madvise advisories
                 /\ (1 <= length advisories <= 2)%nat).
  { unfold gum_memory_decommit. unfold bind at 1. unfold madvise at 1.
    destruct (k_madvise K s address size MADV_FREE =? 0).
    - cbn [Z.eqb negb ret]. eexists _, _. split; [reflexivity |].
      split; [reflexivity |].
      exists [SysMadvise address size MADV_FREE 0].
      split; [reflexivity |]. split; [repeat constructor | simpl; lia].
    - cbn [Z.eqb negb]. unfold bind at 1. unfold get_errno at 1.
      cbn [errno emit fail_with].
      destruct (k_madvise K s address size MADV_FREE =? ENOSYS).
      + cbn [ret]. eexists _, _. split; [reflexivity |].
        split; [reflexivity |].
        exists [SysMadvise address size MADV_FREE (-1)].
        split; [reflexivity |]. split; [repeat constructor | simpl; lia].
      + destruct (k_madvise K s address size MADV_FREE =? EINVAL).
        * unfold bind, madvise.
          destruct (k_madvise K _ address size MADV_DONTNEED =? 0);
            cbn [ret]; eexists _, _; (split; [reflexivity |]);
            (split; [reflexivity |]);
            eexists [_; _]; (split; [reflexivity |]);
            (split; [repeat constructor | simpl; lia]).
        * unfold bind. cbn [ret]. eexists _, _. split; [reflexivity |].
          split; [reflexivity |].
          exists [SysMadvise address size MADV_FREE (-1)].
          split; [reflexivity |]. split; [repeat constructor | simpl; lia]. }
  destruct Hrun as (ok & s' & Hrun & Hpages & Htrace).
  exists s'. split.
  { unfold decommit_then_commit, bind. rewrite Hrun. reflexivity. }
  split; [exact Hpages |]. split; [exact Htrace |].
  intros a v. apply store_depends_on_pages. exact Hpages.
Qed.

(** ** The page-aligned mapping request *)

Lemma page_count_covers K (Hok : page_bits_ok K) len :
  len <= page_count K len * page_size K < len + page_size K.
Proof.
  pose proof (page_size_bounds K Hok) as Hps. unfold page_count.
  pose proof (Z.div_mod (len + page_size K - 1) (page_size K) ltac:(lia)).
  pose proof (Z.mod_pos_bound (len + page_size K - 1) (page_size K) ltac:(lia)).
  nia.
Qed.

(** X16. [gum_allocate_page_aligned] never hands [MAP_FAILED] on: it
    returns [NULL], with the page table untouched, or a non-null
    page-aligned address whose [size] bytes were unmapped before and are
    mapped with the requested protection after. *)
Theorem page_aligned_request_result K address size prot s :
  page_bits_ok K ->
  exists r s',
    gum_allocate_page_aligned K address size prot s = Done r s'
    /\ r <> MAP_FAILED
    /\ ((r = NULL /\ pages s' = pages s)
        \/ (0 < r /\ r mod page_size K = 0 /\ 0 < size /\ r + size <= 2 ^ 64
            /\ forall x, r <= x < r + size ->
                 page_at K s x = None
                 /\ page_at K s' x = Some (fresh_page prot))).
Proof.
  intros Hok. pose proof (page_size_bounds K Hok) as Hps.
  unfold gum_allocate_page_aligned. fold ANY_FLAGS. unfold bind.
  destruct (mmap_anywhere_cases K address size prot s)
    as [-> | (b & -> & Hlen & Hbal & Hbpos & Hbend & Hfree)].
  - cbn [ret]. change (MAP_FAILED =? MAP_FAILED) with true. cbn [negb].
    eexists _, _. split; [reflexivity |].
    split; [unfold NULL, MAP_FAILED; lia |]. left. split; reflexivity.
  - pose proof (page_count_covers K Hok size) as Hcover.
    assert (Hne : b <> MAP_FAILED).
    { intros ->. exact (map_failed_unaligned K Hok Hbal). }
    cbn [ret]. destruct (Z.eqb_spec b MAP_FAILED) as [| _]; [contradiction |].
    cbn [negb]. eexists _, _. split; [reflexivity |].
    split; [exact Hne |]. right.
    split; [exact Hbpos |]. split; [exact Hbal |]. split; [exact Hlen |].
    split; [lia |].
    intros x Hx. unfold page_at. cbn [pages emit with_pages].
    assert (HbB : b = b / page_size K * page_size K)
      by (apply aligned_is_multiple; assumption).
    assert (Hi : b / page_size K <= x / page_size K
                 < b / page_size K + page_count K size)
      by (apply page_in_range; [exact Hok | lia]).
    assert (Hcount : 0 <= page_count K size) by nia.
    split.
    + apply (pages_free_spec _ _ _ Hfree). rewrite Z2Nat.id by lia. exact Hi.
    + rewrite lookup_map_pages, Z2Nat.id by lia.
      rewrite decide_True by exact Hi. reflexivity.
Qed.

Lemma page_aligned_request_example :
  page_bits_ok demo_kernel
  /\ exists r s',
       gum_allocate_page_aligned demo_kernel NULL 5000 PROT_READ boot
       = Done r s'
       /\ r <> MAP_FAILED.
Proof.
  assert (Hok : page_bits_ok demo_kernel) by (unfold page_bits_ok; simpl; lia).
  split; [exact Hok |].
  destruct (page_aligned_request_result demo_kernel NULL 5000 PROT_READ boot Hok)
    as (r & s' & Hrun & Hne & _).
  exists r, s'. split; [exact Hrun | exact Hne].
Defined.

(** ** Sizes that are not page multiples *)

Section UnalignedSize.

Variable K : Kernel.
Hypothesis Hok : page_bits_ok K.

Let ps := page_size K.

Lemma over_allocation_rounds size E :
  0 < size -> 1 <= E -> size + E * ps <= 2 ^ 64 ->
  over_allocation size (E * ps) ps = (page_count K size + E - 1) * ps.
Proof.
  intros Hsize HE Hfit. pose proof (page_size_bounds K Hok) as Hps.
  fold ps in Hps. assert (HEp : ps <= E * ps) by nia.
  unfold over_allocation, alignment_slack.
  rewrite (wrap64_small (E * ps - ps)) by lia.
  rewrite (wrap64_small (size + (E * ps - ps))) by lia.
  pose proof (round_up_page K Hok (size + (E * ps - ps)) ltac:(lia)) as Hr.
  fold ps in Hr. rewrite Hr.
  rewrite (wrap64_small (size + (E * ps - ps) + (ps - 1))) by lia.
  unfold page_count. fold ps.
  replace (size + (E * ps - ps) + (ps - 1))
    with (size + ps - 1 + (E - 1) * ps) by lia.
  rewrite Z.mod_add by lia.
  pose proof (Z.div_mod (size + ps - 1) ps ltac:(lia)). lia.
Qed.

Lemma trim_suffix_refused Q size M s :
  0 < Q -> 0 < size < M * ps -> size mod ps <> 0 ->
  (Q + M) * ps <= 2 ^ 64 ->
  trim_suffix K (Q * ps) size (M * ps) s
  = Done size
      (emit (SysMunmap (Q * ps + size) (M * ps - size) (-1))
         (fail_with EINVAL s)).
Proof.
  intros HQ Hsize Hmod Hend. pose proof (page_size_bounds K Hok) as Hps.
  fold ps in Hps. assert (HQp : ps <= Q * ps) by nia.
  unfold trim_suffix.
  destruct (Z.eqb_spec (M * ps) size) as [Heq | _].
  { exfalso. apply Hmod. rewrite <- Heq. apply Z.mod_mul. lia. }
  cbn [negb].
  rewrite (wrap64_small (M * ps - size)) by lia.
  rewrite (wrap64_small (Q * ps + size)) by lia.
  unfold bind, gum_memory_free, bind, munmap. fold ps.
  replace ((Q * ps + size) mod ps =? 0) with false.
  2: { symmetry. apply Z.eqb_neq.
       replace (Q * ps + size) with (size + Q * ps) by lia.
       rewrite Z.mod_add by lia. exact Hmod. }
  rewrite andb_false_r. cbn [andb ret].
  replace (M * ps - (M * ps - size)) with size by lia.
  rewrite wrap64_small by lia. reflexivity.
Qed.

Lemma trim_prefix_run B P A s :
  0 < B -> 0 <= P -> (B + P) * ps <= 2 ^ 64 -> 0 <= A - P * ps < 2 ^ 64 ->
  trim_prefix K (B * ps) ((B + P) * ps) A s
  = Done (A - P * ps)
      (if decide (P = 0) then s
       else emit (SysMunmap (B * ps) (P * ps) 0)
              (with_pages (unmap_pages B (Z.to_nat P) (pages s)) s)).
Proof.
  intros HB HP Hend HA. pose proof (page_size_bounds K Hok) as Hps.
  fold ps in Hps. unfold trim_prefix.
  destruct (Z.eqb_spec ((B + P) * ps) (B * ps)) as [Heq | Hne]; cbn [negb].
  - assert (P = 0) by (apply Z.mul_cancel_r in Heq; lia).
    subst P. rewrite decide_True by reflexivity.
    unfold ret. f_equal. lia.
  - assert (0 < P) by (destruct (Z.eq_dec P 0); [subst; lia | lia]).
    rewrite decide_False by lia.
    assert (ps <= B * ps) by nia. assert (0 < P * ps) by nia.
    replace ((B + P) * ps - B * ps) with (P * ps) by lia.
    rewrite (wrap64_small (P * ps)) by lia.
    unfold bind, gum_memory_free, bind. unfold ps.
    rewrite munmap_pages by (assumption || lia).
    cbn [ret]. fold ps. rewrite wrap64_small by lia. reflexivity.
Qed.

Lemma allocate_unaligned_size hint size k page_prot s :
  page_bits K <= k < 64 -> 0 < size -> size mod ps <> 0 ->
  size + 2 ^ k <= 2 ^ 64 ->
  exists a s',
    gum_memory_allocate K hint size (2 ^ k) page_prot s = Done a s'
    /\ ((a = NULL /\ pages s' = pages s)
        \/ exists B P M,
             a = (B + P) * ps /\ 0 < B /\ 0 <= P /\ P * ps <= 2 ^ k - ps
             /\ a mod 2 ^ k = 0
             /\ over_allocation size (2 ^ k) ps = M * ps
             /\ size < (M - P) * ps /\ (B + M) * ps <= 2 ^ 64
             /\ (forall i, B <= i < B + M -> pages s !! i = None)
             /\ (forall i,
                   pages s' !! i
                   = if decide (B + P <= i < B + M)
                     then Some (fresh_page
                                  (_gum_page_protection_to_posix page_prot))
                     else pages s !! i)
             /\ trace s'
                = SysMunmap (a + size) ((B + M) * ps - (a + size)) (-1)
                  :: (if decide (P = 0) then []
                      else [SysMunmap (B * ps) (P * ps) 0])
                  ++ SysMmap (GUM_ALIGN_POINTER hint (2 ^ k)) (M * ps)
                       (_gum_page_protection_to_posix page_prot) ANY_FLAGS
                       (B * ps)
                  :: trace s).
Proof.
  intros Hk Hsize Hmod Hfit. pose proof (page_size_bounds K Hok) as Hps.
  fold ps in Hps.
  assert (Hbits : 0 <= page_bits K) by (unfold page_bits_ok in Hok; lia).
  set (E := 2 ^ (k - page_bits K)).
  assert (HE : 1 <= E) by (pose proof (pow2_pos (k - page_bits K)); lia).
  assert (Hal : 2 ^ k = E * ps).
  { unfold E, ps, page_size. rewrite <- Z.pow_add_r by lia. f_equal. lia. }
  pose proof (page_count_covers K Hok size) as Hcover. fold ps in Hcover.
  set (m := page_count K size) in *.
  assert (Hm : 1 <= m) by nia.
  assert (Hmlt : size < m * ps).
  { destruct (Z.eq_dec size (m * ps)) as [Heq | Hne]; [| lia].
    exfalso. apply Hmod. rewrite Heq. apply Z.mod_mul. lia. }
  assert (Hover : over_allocation size (2 ^ k) ps = (m + E - 1) * ps).
  { rewrite Hal. apply over_allocation_rounds; lia. }
  unfold gum_memory_allocate, gum_query_page_size. fold ps. rewrite Hover.
  unfold gum_allocate_page_aligned. fold ANY_FLAGS.
  set (prot := _gum_page_protection_to_posix page_prot).
  set (h := GUM_ALIGN_POINTER hint (2 ^ k)).
  unfold bind at 1. unfold bind at 1.
  destruct (mmap_anywhere_cases K h ((m + E - 1) * ps) prot s)
    as [-> | (b & -> & Hlen & Hbal & Hbpos & Hbend & Hfree)].
  - unfold ret at 1. cbv beta iota.
    change (MAP_FAILED =? MAP_FAILED) with true. cbv beta iota delta [negb].
    change (NULL =? NULL) with true. cbv beta iota.
    eexists _, _. split; [reflexivity |]. left. split; reflexivity.
  - unfold ps in Hbend, Hfree. rewrite page_count_mul in Hbend, Hfree by assumption.
    fold ps in Hbend, Hfree, Hbal.
    set (B := b / ps) in *.
    assert (HbB : b = B * ps) by (apply aligned_is_multiple; assumption).
    assert (HBpos : 0 < B) by nia.
    assert (Hm1 : ps <= m * ps) by nia.
    assert (HEp : ps <= E * ps) by nia.
    destruct (align_pointer_pow2 b k ltac:(lia) ltac:(lia) ltac:(lia))
      as [Hamod Harange].
    set (a := GUM_ALIGN_POINTER b (2 ^ k)) in *.
    assert (HaQ : a = (a / 2 ^ k * E) * ps).
    { pose proof (Z.div_mod a (2 ^ k)) as Hd.
      pose proof (pow2_pos k ltac:(lia)). lia. }
    set (P := a / 2 ^ k * E - B).
    assert (HaP : a = (B + P) * ps) by (unfold P; lia).
    assert (HP0 : 0 <= P) by nia.
    assert (HP1 : P <= E - 1) by nia.
    assert (HPE : P * ps <= (E - 1) * ps) by nia.
    unfold ret at 1. cbv beta iota.
    replace (b =? MAP_FAILED) with false
      by (symmetry; apply Z.eqb_neq; unfold MAP_FAILED; lia).
    cbv beta iota delta [negb].
    replace (b =? NULL) with false
      by (symmetry; apply Z.eqb_neq; unfold NULL; lia).
    set (s1 := emit _ _).
    pose proof (trim_prefix_run B P ((m + E - 1) * ps) s1
                  HBpos HP0 ltac:(lia) ltac:(nia)) as Hpre.
    set (s2 := if decide (P = 0) then s1 else _) in Hpre.
    replace ((m + E - 1) * ps - P * ps) with ((m + (E - 1 - P)) * ps)
      in Hpre by lia.
    pose proof (trim_suffix_refused (B + P) size (m + (E - 1 - P)) s2
                  ltac:(lia) ltac:(nia) Hmod ltac:(lia)) as Hsuf.
    rewrite <- HbB, <- HaP in Hpre. rewrite <- HaP in Hsuf.
    fold a. unfold bind. rewrite Hpre. rewrite Hsuf. rewrite Z.eqb_refl.
    unfold g_assert, ret.
    eexists a, _. split; [reflexivity |]. right.
    exists B, P, (m + E - 1).
    split; [exact HaP |]. split; [exact HBpos |]. split; [exact HP0 |].
    split; [lia |]. split; [exact Hamod |]. split; [reflexivity |].
    split; [nia |]. split; [lia |].
    assert (Hwas : forall i, B <= i < B + (m + E - 1) -> pages s !! i = None).
    { intros i Hi. apply (pages_free_spec _ _ _ Hfree). lia. }
    split; [exact Hwas |].
    split.
    + intros i. cbn [pages emit fail_with]. subst s2 s1.
      destruct (decide (P = 0)) as [HPz | HPnz];
        cbn [pages emit with_pages];
        fold ps; rewrite (page_count_mul K Hok); change (b / ps) with B;
        rewrite ?lookup_unmap_pages, lookup_map_pages;
        rewrite !Z2Nat.id by lia;
        repeat case_decide; try reflexivity; try lia;
        symmetry; apply Hwas; lia.
    + cbn [trace emit fail_with]. subst s2 s1.
      replace ((m + (E - 1 - P)) * ps - size)
        with ((B + (m + E - 1)) * ps - (a + size)) by lia.
      rewrite <- HbB.
      destruct (decide (P = 0)); cbn [trace emit with_pages app];
        reflexivity.
Qed.

End UnalignedSize.

(** X15. With a power-of-two alignment of at least the page size and a
    size that is not a page multiple, [gum_memory_allocate] requests the
    size rounded up to pages plus [alignment - page_size].  When the
    kernel grants it at base [b], the prefix below the aligned address
    [a] is released, but the release of the suffix is refused for its
    unaligned address: the call ends on a failed [munmap] and everything
    from [a] to the end [e] of the over-allocation stays mapped.  That
    end is at least the page boundary after [a + size] and as much as
    [alignment - page_size] beyond it: all of it when [b] is already
    aligned. *)
Theorem unaligned_size_keeps_trailing_slack K hint size alignment page_prot s k :
  page_bits_ok K ->
  alignment = 2 ^ k -> page_bits K <= k < 64 ->
  0 < size -> size mod page_size K <> 0 -> size + alignment <= 2 ^ 64 ->
  over_allocation size alignment (page_size K)
  = page_count K size * page_size K + (alignment - page_size K)
  /\ exists a s',
       gum_memory_allocate K hint size alignment page_prot s = Done a s'
       /\ ((a = NULL /\ pages s' = pages s)
           \/ exists b e,
                e = b + over_allocation size alignment (page_size K)
                /\ 0 < b /\ b mod page_size K = 0
                /\ b <= a < b + alignment /\ a mod alignment = 0
                /\ a + size < e <= 2 ^ 64
                /\ a + page_count K size * page_size K <= e
                   <= a + page_count K size * page_size K
                      + (alignment - page_size K)
                /\ (forall x, b <= x < e -> page_at K s x = None)
                /\ (forall x,
                      page_at K s' x
                      = if decide (a <= x < e)
                        then Some (fresh_page
                                     (_gum_page_protection_to_posix page_prot))
                        else page_at K s x)
                /\ trace s'
                   = SysMunmap (a + size) (e - (a + size)) (-1)
                     :: (if decide (a = b) then []
                         else [SysMunmap b (a - b) 0])
                     ++ SysMmap (GUM_ALIGN_POINTER hint alignment)
                          (over_allocation size alignment (page_size K))
                          (_gum_page_protection_to_posix page_prot)
                          ANY_FLAGS b
                     :: trace s).
Proof.
  intros Hok -> Hk Hsize Hmod Hfit. pose proof (page_size_bounds K Hok) as Hps.
  assert (Hbits : 0 <= page_bits K) by (unfold page_bits_ok in Hok; lia).
  assert (Hal : 2 ^ k = 2 ^ (k - page_bits K) * page_size K).
  { unfold page_size. rewrite <- Z.pow_add_r by lia. f_equal. lia. }
  assert (HE : 1 <= 2 ^ (k - page_bits K))
    by (pose proof (pow2_pos (k - page_bits K)); lia).
  assert (Hover : over_allocation size (2 ^ k) (page_size K)
                  = page_count K size * page_size K + (2 ^ k - page_size K)).
  { rewrite Hal at 1.
    pose proof (over_allocation_rounds K Hok size (2 ^ (k - page_bits K))
                  Hsize HE ltac:(lia)) as Hr.
    rewrite Hr. lia. }
  split; [exact Hover |].
  destruct (allocate_unaligned_size K Hok hint size k page_prot s Hk Hsize
              Hmod Hfit) as (a & s' & Hrun & Hres).
  exists a, s'. split; [exact Hrun |].
  destruct Hres as [Hnull | (B & P & M & HaP & HB & HP & HPE & Hamod & HM
                             & Hsz & Hend & Hfree & Hnew & Htrace)];
    [left; exact Hnull | right].
  exists (B * page_size K), ((B + M) * page_size K).
  rewrite HM in Hover |- *.
  assert (HPp : 0 <= P * page_size K) by nia.
  split; [lia |]. split; [nia |]. split; [apply Z.mod_mul; lia |].
  split; [lia |]. split; [exact Hamod |]. split; [lia |]. split; [lia |].
  split; [| split].
  - intros x Hx. unfold page_at. apply Hfree.
    apply (page_in_range K Hok B M x). lia.
  - intros x. unfold page_at. rewrite Hnew.
    pose proof (page_in_range K Hok (B + P) (M - P) x) as Hiff.
    replace (B + P + (M - P)) with (B + M) in Hiff by lia.
    rewrite <- HaP in Hiff.
    repeat case_decide; try reflexivity; lia.
  - rewrite Htrace. f_equal.
    replace (a - B * page_size K) with (P * page_size K) by lia.
    destruct (decide (P = 0)) as [-> | HPnz].
    + rewrite decide_True by lia. reflexivity.
    + rewrite decide_False by nia. reflexivity.
Qed.

Lemma unaligned_size_example :
  page_bits_ok demo_kernel
  /\ 65536 = 2 ^ 16 /\ page_bits demo_kernel <= 16 < 64
  /\ 0 < 100 /\ 100 mod page_size demo_kernel <> 0
  /\ 100 + 65536 <= 2 ^ 64
  /\ over_allocation 100 65536 (page_size demo_kernel) = 65536.
Proof.
  assert (Hok : page_bits_ok demo_kernel) by (unfold page_bits_ok; simpl; lia).
  assert (Hk : page_bits demo_kernel <= 16 < 64) by (simpl; lia).
  assert (Hmod : 100 mod page_size demo_kernel <> 0) by (vm_compute; discriminate).
  split; [exact Hok |]. split; [reflexivity |]. split; [exact Hk |].
  split; [lia |]. split; [exact Hmod |]. split; [lia |].
  exact (eq_trans
           (proj1 (unaligned_size_keeps_trailing_slack demo_kernel NULL 100
                     65536 GUM_PAGE_RW boot 16 Hok eq_refl Hk ltac:(lia) Hmod
                     ltac:(lia)))
           eq_refl).
Defined.

(** The kernel's base is already aligned: 100 bytes at alignment 64 KiB
    keep all sixteen pages of the over-allocation. *)
Example unaligned_size_run :
  exists a s',
    gum_memory_allocate demo_kernel NULL 100 65536 GUM_PAGE_RW boot = Done a s'
    /\ a <> NULL
    /\ trace s' = [SysMunmap (a + 100) 65436 (-1);
                   SysMmap 0 65536 3 ANY_FLAGS a]
    /\ page_at demo_kernel s' (a + 65535) = Some (fresh_page 3)
    /\ page_at demo_kernel s' (a + 65536) = None.
Proof.
  eexists _, _. split; [vm_compute; reflexivity |].
  split; [vm_compute; discriminate |].
  split; [vm_compute; reflexivity |].
  split; vm_compute; reflexivity.
Qed.

(** ** The near allocator and the occupied ranges *)

Lemma gaps_avoid_occupied rs :
  ascending rs = true ->
  forall g, g ∈ gaps_between rs ->
    (forall d, d ∈ rs ->
       range_end d <= base_address (range g)
       \/ base_address (range g) + size (range g) <= base_address (range d))
    /\ (forall a rest, rs = a :: rest ->
          range_end a <= base_address (range g)).
Proof.
  induction rs as [| a rest IH]; intros Hasc g Hg.
  - apply elem_of_nil in Hg. contradiction.
  - destruct rest as [| b rest].
    { apply elem_of_nil in Hg. contradiction. }
    pose proof (ascending_tail _ _ Hasc) as Htail.
    pose proof (ascending_head_least rest b) as Hleast.
    assert (Hab : range_end a <= base_address (range b)
                  /\ 0 < size (range b)).
    { cbn [ascending] in Hasc, Htail. unfold range_end in *.
      apply andb_prop in Hasc as [Hasc _].
      apply andb_prop in Hasc as [Hasc Hnext].
      apply andb_prop in Htail as [Htail' _].
      apply andb_prop in Htail' as [Htail' _]. unbool. lia. }
    rewrite gaps_between_cons in Hg. unfold gap_of_pair in Hg.
    assert (Hcase : g = free_range (range_end a)
                          (base_address (range b) - range_end a)
                    \/ g ∈ gaps_between (b :: rest)).
    { destruct (range_end a <? base_address (range b)); [| right; exact Hg].
      apply elem_of_cons in Hg as [-> | Hg]; [left; reflexivity | right; exact Hg]. }
    destruct Hcase as [-> | Hin].
    + cbn [free_range range base_address size]. split.
      * intros d Hd. apply elem_of_cons in Hd as [-> | Hd]; [left; lia |].
        right. pose proof (Hleast d Htail Hd). lia.
      * intros a' rest' [= <- _]. lia.
    + destruct (IH Htail g Hin) as [Hothers Hhead].
      specialize (Hhead b rest eq_refl). unfold range_end in *.
      split.
      * intros d Hd. apply elem_of_cons in Hd as [-> | Hd]; [left; lia |].
        apply Hothers. exact Hd.
      * intros a' rest' [= <- _]. lia.
Qed.

(** X17. Under the collaborator contract a near allocation never lands
    on a range the enumerator reported as occupied: the mapped region,
    header page included, is disjoint from every occupied range of the
    feed. *)
Theorem near_allocation_avoids_occupied K n page_prot spec s :
  page_bits_ok K -> 1 <= n < 2 ^ 32 ->
  ascending (k_ranges K s) = true ->
  exists p s',
    gum_try_alloc_n_pages_near K n page_prot spec s = Done p s'
    /\ (p = NULL
        \/ forall d, d ∈ k_ranges K s ->
             range_end d <= p - page_size K
             \/ p - page_size K + total_size K n <= base_address (range d)).
Proof.
  intros Hok Hn Hasc. pose proof (page_size_bounds K Hok) as Hps.
  pose proof (gaps_between_inside _ Hasc) as Hall.
  rewrite Forall_forall in Hall.
  destruct (near_run K Hok n page_prot spec s Hn Hasc)
    as (p & s' & Hrun & [[Hnull _] | (pre & B & Hclaimed)]).
  - exists p, s'. split; [exact Hrun |]. left. exact Hnull.
  - exists p, s'. split; [exact Hrun |]. right.
    destruct Hclaimed as ((post & Hpost) & HB & Hp & Htotal & Hend & _).
    assert (Hin : B * page_size K
                  ∈ near_candidates (near_required K n) spec
                      (gaps_between (k_ranges K s))).
    { rewrite Hpost. apply elem_of_app. right. apply elem_of_cons. left.
      reflexivity. }
    apply list_elem_of_omap in Hin as (g & Hg & Hcand).
    destruct (Hall g Hg) as [Hg1 Hg2].
    pose proof (near_required_range K n) as Hreq.
    destruct (near_candidate_inside _ _ _ _ (proj1 Hreq) Hg1 Hg2 Hcand)
      as (Hlo & Hhi & _).
    destruct (gaps_avoid_occupied _ Hasc g Hg) as [Hothers _].
    intros d Hd. rewrite Htotal in Hhi.
    destruct (Hothers d Hd); [left | right]; lia.
Qed.

Lemma near_avoids_occupied_example :
  page_bits_ok racy_kernel /\ 1 <= 1 < 2 ^ 32
  /\ ascending (k_ranges racy_kernel boot) = true
  /\ exists p s',
       gum_try_alloc_n_pages_near racy_kernel 1 GUM_PAGE_READ racy_demo_spec boot
       = Done p s'
       /\ (p = NULL
           \/ forall d, d ∈ k_ranges racy_kernel boot ->
                range_end d <= p - page_size racy_kernel
                \/ p - page_size racy_kernel + total_size racy_kernel 1
                   <= base_address (range d)).
Proof.
  assert (Hok : page_bits_ok racy_kernel) by (unfold page_bits_ok; simpl; lia).
  assert (Hn : 1 <= 1 < 2 ^ 32) by lia.
  split; [exact Hok |]. split; [exact Hn |]. split; [reflexivity |].
  exact (near_allocation_avoids_occupied racy_kernel 1 GUM_PAGE_READ
           racy_demo_spec boot Hok Hn eq_refl).
Defined.
